(** * Instance-segmentation evaluation utilities: a shallow embedding

    The development follows the two source files of the repository:

    - [evaluate.py]: [predict_label], [cluster_features], [reduce],
      [visualize], [best_symmetric_dice], [dice_score], [evaluate_model];
    - [costum_dataset.py]: [coco224Dataset], [VOCDataset], [resize_sample].

    Conventions of the embedding.

    - Python exceptions are values of [exn]; a computation that may raise has
      type [result A].
    - A finite floating point number is a rational, so float values are
      canonical rationals ([Qc]: equal numbers are equal terms); a division by
      zero in numpy gives [inf] or [nan], so [np_true_divide] returns an
      [npfloat].  What floating point adds is that every operation rounds its
      exact result; the rounding is the field [fl] of the class [FloatArith],
      with the instances [binary64] (IEEE 754 double precision, round to
      nearest, ties to even; overflow to infinity is not modelled) and
      [exact_arithmetic] (no rounding).  [resize_sample], whose truncation
      depends on the rounding, is written over [FloatArith].  The Dice scorer
      is given twice: [dice_score] and its callers compute in exact
      arithmetic, and [Rounded.dice_score] is the same code with the rounding
      of every operation; lemma [rounded_dice_score_exact] relates the two.
      The evaluator's sums and the image normalisation of [visualize] are in
      exact arithmetic.
    - A numpy array is its shape together with its row-major data; binary
      element-wise operations broadcast as numpy does.
    - Library calls whose algorithm is not part of the repository (PCA,
      HDBSCAN, PIL resampling, torchvision transforms, the network and its
      loss) are fields of interface classes; the properties proved about the
      repository's code state which contract of the library they rely on. *)

From Stdlib Require Import ZArith QArith Qcanon List Permutation Lia Lqa.
From stdpp Require Import base numbers list strings gmap sorting.

Local Open Scope Z_scope.

(** ** Exceptions and the error monad *)

Inductive exn : Type :=
  | ValueError
  | IndexError
  | ZeroDivisionError
  | NameError            (* includes UnboundLocalError *)
  | FileNotFoundError
  | LibraryError         (* a failure raised inside an external library *)
  | NonFinite.           (* an inf/nan was produced where the model needs a rational *)

Inductive result (A : Type) : Type :=
  | OK (a : A)
  | Error (e : exn).
Arguments OK {A} a.
Arguments Error {A} e.

#[global] Instance result_ret : MRet result := @OK.
#[global] Instance result_bind : MBind result :=
  fun A B f m => match m with OK a => f a | Error e => Error e end.
#[global] Instance result_fmap : FMap result :=
  fun A B f m => match m with OK a => OK (f a) | Error e => Error e end.

(** Left-to-right loop with early exit on an exception. *)
Fixpoint for_each {A S : Type} (body : S -> A -> result S) (s : S) (l : list A)
  : result S :=
  match l with
  | [] => OK s
  | a :: l' => s' ← body s a; for_each body s' l'
  end.

(** Evaluation of every element of a list, stopping at the first exception. *)
Fixpoint mapM {A B} (F : A -> result B) (l : list A) : result (list B) :=
  match l with
  | [] => OK []
  | a :: l' => b ← F a; bs ← mapM F l'; OK (b :: bs)
  end.

(** ** Numbers *)

Definition Qc_ltb (a b : Qc) : bool :=
  match (a ?= b)%Qc with Lt => true | _ => false end.

#[global] Instance Qc_inhabited : Inhabited Qc := populate 0%Qc.

(** Python's [max([a, b])]: the first maximal element. *)
Definition py_max2 (a b : Qc) : Qc := if Qc_ltb a b then b else a.
Definition py_min2 (a b : Qc) : Qc := if Qc_ltb b a then b else a.

(** A float as numpy may produce it. *)
Inductive npfloat : Type :=
  | Finite (q : Qc)
  | PosInf
  | NegInf
  | NaN.

(** numpy's [a / b] on floats: never raises, a zero divisor gives inf or nan. *)
Definition np_true_divide (a b : Qc) : npfloat :=
  if decide (b = 0%Qc) then
    (if Qc_ltb 0 a then PosInf else if Qc_ltb a 0 then NegInf else NaN)
  else Finite (a / b)%Qc.

Definition finite (x : npfloat) : result Qc :=
  match x with Finite q => OK q | _ => Error NonFinite end.

Definition npfloat_map (f : Qc -> Qc) (x : npfloat) : npfloat :=
  match x with Finite q => Finite (f q) | _ => x end.

(** [int(x)] of a float: truncation toward zero. *)
Definition py_int (x : Qc) : Z := Z.quot (Qnum x) (Z.pos (Qden x)).

(** Conversion of an integer to [np.int32]: wrap-around. *)
Definition to_int32 (z : Z) : Z := (z + 2 ^ 31) mod 2 ^ 32 - 2 ^ 31.

(** Conversion of a float, truncated to the integer [z], to [np.int32]: a
    value that does not fit gives the smallest int32. *)
Definition float_to_int32 (z : Z) : Z :=
  if (- 2 ^ 31 <=? z) && (z <? 2 ^ 31) then z else - 2 ^ 31.

(** ** Floating point rounding *)

(** The rounding applied to the exact result of a float operation. *)
Class FloatArith : Type := { fl : Qc -> Qc }.

Definition pow2 (k : Z) : Qc :=
  if 0 <=? k then Qc_of_Z (2 ^ k) else (/ Qc_of_Z (2 ^ (- k)))%Qc.

Definition Qc_floor (q : Qc) : Z := Qnum q / Z.pos (Qden q).

(** The nearest integer, a tie going to the even one. *)
Definition round_half_even (s : Qc) : Z :=
  let f := Qc_floor s in
  match (s - Qc_of_Z f ?= Q2Qc (1 # 2))%Qc with
  | Lt => f
  | Gt => f + 1
  | Eq => if Z.even f then f else f + 1
  end.

(** For [0 < q], the exponent [e] with [2^e <= q < 2^(e+1)]. *)
Definition binade (q : Qc) : Z :=
  let e0 := Z.log2 (Qnum q) - Z.log2 (Z.pos (Qden q)) in
  if Qc_ltb q (pow2 e0) then e0 - 1 else e0.

(** Rounding of [0 < q] to 53 significant bits, or to a multiple of
    [2^-1074] in the subnormal range. *)
Definition round_binary64_pos (q : Qc) : Qc :=
  let u := Z.max (binade q - 52) (-1074) in
  (Qc_of_Z (round_half_even (q / pow2 u)) * pow2 u)%Qc.

Definition round_binary64 (q : Qc) : Qc :=
  if Qc_ltb 0 q then round_binary64_pos q
  else if Qc_ltb q 0 then (- round_binary64_pos (- q))%Qc
  else 0%Qc.

Definition binary64 : FloatArith := {| fl := round_binary64 |}.
Definition exact_arithmetic : FloatArith := {| fl := fun q => q |}.

(** [float(z)], and the conversion of an integer operand of a float
    operation. *)
Definition py_float `{FloatArith} (z : Z) : Qc := fl (Qc_of_Z z).

(** ** numpy arrays *)

Record ndarray (A : Type) : Type := mk_ndarray {
  shape : list nat;
  data : list A        (* row-major *)
}.
Arguments mk_ndarray {A} _ _.
Arguments shape {A} _.
Arguments data {A} _.

Definition prod_shape (s : list nat) : nat := foldr Nat.mul 1%nat s.

(** The arrays numpy can build: as many entries as the shape says. *)
Definition wf_array {A} (a : ndarray A) : Prop :=
  length (data a) = prod_shape (shape a).

(** A two-dimensional array from its rows. *)
Definition of_rows {A} (rows : list (list A)) : ndarray A :=
  mk_ndarray [length rows; length (default [] (head rows))] (concat rows).

Definition np_map {A B} (f : A -> B) (a : ndarray A) : ndarray B :=
  mk_ndarray (shape a) (map f (data a)).

(** Broadcasting of two shapes, on the reversed shapes (last axis first). *)
Fixpoint broadcast_rev (r1 r2 : list nat) : option (list nat) :=
  match r1, r2 with
  | [], _ => Some r2
  | _, [] => Some r1
  | d1 :: r1', d2 :: r2' =>
      r ← broadcast_rev r1' r2';
      if decide (d1 = d2) then Some (d1 :: r)
      else if decide (d1 = 1%nat) then Some (d2 :: r)
      else if decide (d2 = 1%nat) then Some (d1 :: r)
      else None
  end.

Definition broadcast_shapes (s1 s2 : list nat) : option (list nat) :=
  reverse <$> broadcast_rev (reverse s1) (reverse s2).

(** Flat index, in an operand of reversed shape [r_in], of the entry that
    position [p] of the broadcast result (reversed shape [r_out]) reads. *)
Fixpoint src_index (r_out r_in : list nat) (p stride : nat) : nat :=
  match r_out, r_in with
  | d :: r_out', e :: r_in' =>
      ((if decide (e = 1%nat) then 0 else (p mod d) * stride)
       + src_index r_out' r_in' (p / d) (stride * e))%nat
  | _, _ => 0%nat
  end.

Definition broadcast_to `{Inhabited A} (s_out : list nat) (a : ndarray A) : list A :=
  map (fun p => data a !!! src_index (reverse s_out) (reverse (shape a)) p 1)
      (seq 0 (prod_shape s_out)).

(** An element-wise binary operation; incompatible shapes raise ValueError. *)
Definition np_binop `{Inhabited A, Inhabited B} {C}
    (f : A -> B -> C) (a : ndarray A) (b : ndarray B) : result (ndarray C) :=
  match broadcast_shapes (shape a) (shape b) with
  | None => Error ValueError
  | Some s => OK (mk_ndarray s (zip_with f (broadcast_to s a) (broadcast_to s b)))
  end.

(** [np.unique]: the sorted distinct values. *)
Fixpoint insert_unique (v : Z) (l : list Z) : list Z :=
  match l with
  | [] => [v]
  | w :: l' =>
      if v <? w then v :: l
      else if v =? w then l
      else w :: insert_unique v l'
  end.

Definition np_unique (a : ndarray Z) : list Z := foldr insert_unique [] (data a).

(** [np.where(x == v, 1, 0)] *)
Definition np_where_eq (x : ndarray Z) (v : Z) : ndarray Z :=
  np_map (fun e => if e =? v then 1 else 0) x.

(** [np.logical_and]: non-zero integers are true. *)
Definition np_logical_and (a b : ndarray Z) : result (ndarray bool) :=
  np_binop (fun p q => negb (p =? 0) && negb (q =? 0)) a b.

Definition np_add (a b : ndarray Z) : result (ndarray Z) := np_binop Z.add a b.

Definition np_sum (a : ndarray Z) : Z := foldr Z.add 0 (data a).
Definition np_sum_bool (a : ndarray bool) : Z :=
  foldr (fun b acc => (if b : bool then 1 else 0) + acc) 0 (data a).

(** ** The Dice scorer ([evaluate.py], [dice_score], [best_symmetric_dice]) *)

(** Body of the inner loop: the Dice coefficient of one pair of instances. *)
Definition dice_pair (x y : ndarray Z) (x_instance y_instance : Z) : result Qc :=
  let x_mask := np_where_eq x x_instance in
  let y_mask := np_where_eq y y_instance in
  land ← np_logical_and x_mask y_mask;
  let overlap := np_sum_bool land in
  s ← np_add x_mask y_mask;
  finite (np_true_divide (2 * Qc_of_Z overlap)%Qc (Qc_of_Z (np_sum s))).

(** The inner loop: best score of [x_instance] against the instances of [y]. *)
Definition best_match (x y : ndarray Z) (y_instances : list Z) (x_instance : Z)
  : result Qc :=
  for_each (fun max_val y_instance =>
              score ← dice_pair x y x_instance y_instance;
              OK (py_max2 max_val score))
           0%Qc y_instances.

Definition dice_score (x y : ndarray Z) : result Qc :=
  let x_instances := np_unique x in
  let y_instances := np_unique y in
  total_score ←
    for_each (fun total_score x_instance =>
                max_val ← best_match x y y_instances x_instance;
                OK (total_score + max_val)%Qc)
             0%Qc x_instances;
  if decide (length x_instances = 0%nat) then Error ZeroDivisionError
  else OK (total_score / Qc_of_Z (Z.of_nat (length x_instances)))%Qc.

Definition best_symmetric_dice (pred gt : ndarray Z) : result Qc :=
  score1 ← dice_score pred gt;
  score2 ← dice_score gt pred;
  OK (py_max2 score1 score2).

(** *** The scorer in floating point

    The same functions with the rounding of every float operation:
    [2.0*overlap] and the division that makes a score, each addition to
    [total_score], and the final division.  [overlap], the sum of the masks
    and [len(x_instances)] are integers, converted when they meet a float. *)
Module Rounded.
Section Scorer.
Context `{FloatArith}.

Definition dice_pair (x y : ndarray Z) (x_instance y_instance : Z) : result Qc :=
  let x_mask := np_where_eq x x_instance in
  let y_mask := np_where_eq y y_instance in
  land ← np_logical_and x_mask y_mask;
  let overlap := np_sum_bool land in
  s ← np_add x_mask y_mask;
  finite (npfloat_map fl
            (np_true_divide (fl (2 * py_float overlap)%Qc) (py_float (np_sum s)))).

Definition best_match (x y : ndarray Z) (y_instances : list Z) (x_instance : Z)
  : result Qc :=
  for_each (fun max_val y_instance =>
              score ← dice_pair x y x_instance y_instance;
              OK (py_max2 max_val score))
           0%Qc y_instances.

(** The values of [max_val] that the outer loop prints, one per instance of
    [x], in the order of the loop. *)
Definition best_scores (x y : ndarray Z) : result (list Qc) :=
  mapM (best_match x y (np_unique y)) (np_unique x).

Definition dice_score (x y : ndarray Z) : result Qc :=
  let x_instances := np_unique x in
  let y_instances := np_unique y in
  total_score ←
    for_each (fun total_score x_instance =>
                max_val ← best_match x y y_instances x_instance;
                OK (fl (total_score + max_val)%Qc))
             0%Qc x_instances;
  if decide (length x_instances = 0%nat) then Error ZeroDivisionError
  else OK (fl (total_score / py_float (Z.of_nat (length x_instances)))%Qc).

Definition best_symmetric_dice (pred gt : ndarray Z) : result Qc :=
  score1 ← dice_score pred gt;
  score2 ← dice_score gt pred;
  OK (py_max2 score1 score2).

End Scorer.
End Rounded.

(** ** The Label Predictor ([evaluate.py], [predict_label], [cluster_features], [reduce]) *)

(** The two numerical libraries behind the predictor: scikit-learn's PCA
    ([PCA(n_components).fit_transform]) and HDBSCAN ([fit_predict]).  Both may
    raise. *)
Class Postproc : Type := {
  pca_fit_transform : nat -> list (list Qc) -> result (list (list Qc));
  hdbscan_fit_predict : list (list Qc) -> result (list Z)
}.

(** Row-major enumeration of an index space. *)
Definition tabulate2 {A} (n0 n1 : nat) (f : nat -> nat -> A) : list A :=
  i ← seq 0 n0; j ← seq 0 n1; [f i j].
Definition tabulate3 {A} (n0 n1 n2 : nat) (f : nat -> nat -> nat -> A) : list A :=
  i ← seq 0 n0; j ← seq 0 n1; k ← seq 0 n2; [f i j k].

Definition shape3 {A} (a : ndarray A) : result (nat * nat * nat) :=
  match shape a with
  | [n0; n1; n2] => OK (n0, n1, n2)
  | _ => Error ValueError
  end.

(** [np.transpose(features, [1,2,0])]: from (c,h,w) to (h,w,c). *)
Definition np_transpose_120 (a : ndarray Qc) : result (ndarray Qc) :=
  '(c, h, w) ← shape3 a;
  OK (mk_ndarray [h; w; c]
        (tabulate3 h w c (fun i j k => data a !!! ((k * h + i) * w + j)%nat))).

Definition ceil_div (n f : nat) : nat := ((n + f - 1) / f)%nat.

Definition np_max_list (l : list Qc) : Qc :=
  match l with
  | [] => 0%Qc
  | a :: l' => foldl py_max2 a l'
  end.

(** [skimage.measure.block_reduce(a, (f,f,1), np.max)] on an (h,w,c) array:
    the array is padded with [cval = 0] up to a multiple of the block size,
    then every f x f x 1 block is replaced by its maximum. *)
Definition block_reduce_max (f : nat) (a : ndarray Qc) : result (ndarray Qc) :=
  '(h, w, c) ← shape3 a;
  if decide (f = 0%nat) then Error ValueError
  else
    let padded i j k :=
      if decide (i < h ∧ j < w)%nat then data a !!! ((i * w + j) * c + k)%nat
      else 0%Qc in
    OK (mk_ndarray [ceil_div h f; ceil_div w f; c]
          (tabulate3 (ceil_div h f) (ceil_div w f) c (fun i j k =>
             np_max_list (tabulate2 f f (fun di dj =>
                            padded (i * f + di) (j * f + dj) k)%nat)))).

(** [np.reshape(a, [n, c])] as the list of its [n] rows. *)
Definition reshape_rows {A} (n c : nat) (d : list A) : list (list A) :=
  map (fun p => take c (drop (p * c) d)) (seq 0 n).

(** [np.reshape(labels, [h, w])] of a one-dimensional array. *)
Definition np_reshape2 {A} (d : list A) (h w : nat) : result (ndarray A) :=
  if decide (length d = (h * w)%nat) then OK (mk_ndarray [h; w] d)
  else Error ValueError.

(** [skimage.transform.rescale(a, order=0, scale=f, preserve_range=True)] on a
    two-dimensional array, for an integer scale: the output has
    [round(f * h)] rows and [round(f * w)] columns, and nearest-neighbour
    interpolation reads the input pixel [(r / f, c / f)].  An input with an
    empty side is refused. *)
Definition rescale_order0 `{Inhabited A} (f : nat) (a : ndarray A)
  : result (ndarray A) :=
  match shape a with
  | [h; w] =>
      if decide (h = 0 ∨ w = 0)%nat then Error ValueError
      else
        OK (mk_ndarray [(h * f)%nat; (w * f)%nat]
              (tabulate2 (h * f) (w * f)
                 (fun r c => data a !!! ((r / f) * w + c / f)%nat)))
  | _ => Error ValueError
  end.

Section Predictor.
Context `{Postproc}.

(** The source prints the explained variance; stdout is not modelled. *)
Definition reduce (features : list (list Qc)) (dimension : nat)
  : result (list (list Qc)) :=
  pca_fit_transform dimension features.

Definition cluster_features (features : list (list Qc)) : result (list Z) :=
  labels ← hdbscan_fit_predict features;
  OK (map (fun l => if l =? -1 then 0 else l) labels).

Definition predict_label (features : ndarray Qc) (downsample_factor : nat)
  : result (ndarray Z) :=
  features ← np_transpose_120 features;
  features ← block_reduce_max downsample_factor features;
  '(h, w, c) ← shape3 features;
  let flat_features := reshape_rows (h * w) c (data features) in
  reduced_features ← reduce flat_features 10;
  cluster_mask ← cluster_features reduced_features;
  predicted_label ← np_reshape2 cluster_mask h w;
  predicted_label ← rescale_order0 downsample_factor predicted_label;
  OK (np_map float_to_int32 predicted_label).
End Predictor.

(** ** The Sample Provider ([costum_dataset.py]) *)

(** PIL images, torch tensors and the transforms applied to them.  Sizes are
    PIL sizes, (width, height). *)
Class Imaging : Type := {
  Image : Type;
  Tensor : Type;
  im_size : Image -> Z * Z;
  im_resize : Image -> Z * Z -> result Image;    (* img.resize(size, ANTIALIAS) *)
  center_crop : Z -> Z -> Image -> Image;        (* CenterCrop([h, w])(img) *)
  to_tensor : Image -> Tensor;                   (* transforms.ToTensor() *)
  normalize : list Qc -> list Qc -> Tensor -> Tensor;  (* Normalize(mean, std) *)
  np_asarray : Image -> ndarray Z                (* np.asarray(label) *)
}.

(** An array of either element kind. *)
Inductive array : Type :=
  | IntArr (a : ndarray Z)
  | FloatArr (a : ndarray Qc).

Definition newline : Ascii.ascii := Ascii.ascii_of_nat 10.

(** [s.split("\n")] *)
Fixpoint split_newline (s : string) : list string :=
  match s with
  | EmptyString => [EmptyString]
  | String c s' =>
      if decide (c = newline) then EmptyString :: split_newline s'
      else match split_newline s' with
           | piece :: pieces => String c piece :: pieces
           | [] => [String c EmptyString]
           end
  end.

(** [l[i]] on a Python list: negative indices count from the end. *)
Definition py_index {A} (l : list A) (i : Z) : result A :=
  let n := Z.of_nat (length l) in
  let j := if i <? 0 then i + n else i in
  if (0 <=? j) && (j <? n) then
    match l !! Z.to_nat j with Some a => OK a | None => Error IndexError end
  else Error IndexError.

(** [a / b] for a Python float [a] and an integer [b]: raises on a zero
    divisor, otherwise the rounded quotient. *)
Definition py_float_div `{FloatArith} (a : Qc) (b : Z) : result Qc :=
  if decide (b = 0) then Error ZeroDivisionError else OK (fl (a / py_float b)%Qc).

(** [x * a] for an integer [x] and a Python float [a]. *)
Definition py_int_mul_float `{FloatArith} (x : Z) (a : Qc) : Qc :=
  fl (py_float x * a)%Qc.

Definition imagenet_mean : list Qc := [Q2Qc (485 # 1000); Q2Qc (456 # 1000); Q2Qc (406 # 1000)].
Definition imagenet_std : list Qc := [Q2Qc (229 # 1000); Q2Qc (224 # 1000); Q2Qc (225 # 1000)].

Section Provider.
Context `{Imaging, FloatArith}.

Inductive file : Type :=
  | TextFile (content : string)
  | ImageFile (im : Image)
  | NpzFile (arr_0 : array).

Definition filesystem : Type := string -> option file.

Record Sample : Type := mk_Sample {
  image : Tensor;
  label : array;
  size : option (Z * Z)
}.

Definition read_text (fs : filesystem) (path : string) : result string :=
  match fs path with
  | None => Error FileNotFoundError
  | Some (TextFile s) => OK s
  | Some _ => Error LibraryError
  end.

(** [PIL.Image.open] *)
Definition im_open (fs : filesystem) (path : string) : result Image :=
  match fs path with
  | None => Error FileNotFoundError
  | Some (ImageFile im) => OK im
  | Some _ => Error LibraryError
  end.

(** [np.load(path)['arr_0']] *)
Definition np_load_arr_0 (fs : filesystem) (path : string) : result array :=
  match fs path with
  | None => Error FileNotFoundError
  | Some (NpzFile a) => OK a
  | Some _ => Error LibraryError
  end.

(** [ids_file.read().split("\n")[:-1]] *)
Definition read_ids (fs : filesystem) (ids_file_path : string) : result (list string) :=
  content ← read_text fs ids_file_path;
  OK (removelast (split_newline content)).

Definition resize_sample (img label : Image) (h w : Z) (restore : bool)
  : result (Image * Image) :=
  let old_size := im_size img in
  w_ratio ← py_float_div (py_float w) (fst old_size);
  h_ratio ← py_float_div (py_float h) (snd old_size);
  let ratio := if restore then py_max2 w_ratio h_ratio
               else py_min2 w_ratio h_ratio in
  let new_size := (py_int (py_int_mul_float (fst old_size) ratio),
                   py_int (py_int_mul_float (snd old_size) ratio)) in
  img ← im_resize img new_size;
  label ← im_resize label new_size;
  OK (center_crop h w img, center_crop h w label).

(** *** The fixed-size provider *)
Record coco224Dataset : Type := mk_coco224Dataset {
  coco_ids : list string;
  coco_data_path : string;
  coco_labels_path : string
}.

Definition coco224_init (fs : filesystem) (data_path labels_path ids_file_path : string)
  : result coco224Dataset :=
  ids ← read_ids fs ids_file_path;
  OK (mk_coco224Dataset ids data_path labels_path).

Definition coco224_len (self : coco224Dataset) : nat := length (coco_ids self).

Definition coco224_getitem (fs : filesystem) (self : coco224Dataset) (item : Z)
  : result Sample :=
  id ← py_index (coco_ids self) item;
  img ← im_open fs (coco_data_path self +:+ id +:+ ".jpg");
  label ← np_load_arr_0 fs (coco_labels_path self +:+ id +:+ ".npz");
  let img := to_tensor img in
  let img := normalize imagenet_mean imagenet_std img in
  OK (mk_Sample img label None).

(** *** The resizable provider *)
Record VOCDataset : Type := mk_VOCDataset {
  voc_ids : list string;
  voc_data_path : string;
  voc_labels_path : string;
  voc_h : Z;
  voc_w : Z;
  voc_evaluate : bool
}.

Definition VOC_init (fs : filesystem) (data_path labels_path ids_file_path : string)
    (img_h img_w : Z) (evaluate : bool) : result VOCDataset :=
  ids ← read_ids fs ids_file_path;
  OK (mk_VOCDataset ids data_path labels_path img_h img_w evaluate).

Definition VOC_len (self : VOCDataset) : nat := length (voc_ids self).

Definition VOC_getitem (fs : filesystem) (self : VOCDataset) (item : Z)
  : result Sample :=
  id ← py_index (voc_ids self) item;
  img ← im_open fs (voc_data_path self +:+ id +:+ ".jpg");
  label ← im_open fs (voc_labels_path self +:+ id +:+ ".png");
  let size := im_size label in
  '(img, label) ← (if voc_evaluate self
                   then resize_sample img label (voc_h self) (voc_w self) false
                   else OK (img, label));
  let label := np_asarray label in
  let img := to_tensor img in
  let img := normalize imagenet_mean imagenet_std img in
  OK (mk_Sample img (IntArr label) (Some size)).
End Provider.

(** ** The Evaluator ([evaluate.py], [evaluate_model], [visualize]) *)

(** The network under evaluation and its loss.  [net] returns the feature
    tensors of the batch, one (c,h,w) array per sample. *)
Class Network : Type := {
  Inputs : Type;
  net : Inputs -> list (ndarray Qc);
  loss_fn : list (ndarray Qc) -> list (ndarray Z) -> Qc
}.

(** [a[0]] on the leading axis of an array. *)
Definition first_item {A} (l : list A) : result A :=
  match l with
  | a :: _ => OK a
  | [] => Error IndexError
  end.

Section Evaluator.
Context `{Postproc, Network}.

(** A batch of the dataloader: [batch['image']] and [batch['label']]. *)
Record Batch : Type := mk_Batch {
  batch_image : Inputs;
  batch_label : list (ndarray Z)
}.

(** One iteration of the loop over the dataloader; the state is
    [(running_loss, running_dice)]. *)
Definition evaluate_step (running : Qc * Qc) (batch : Batch) : result (Qc * Qc) :=
  let '(running_loss, running_dice) := running in
  let inputs := batch_image batch in
  let labels := batch_label batch in
  let features := net inputs in
  let current_loss := loss_fn features labels in
  np_features_0 ← first_item features;
  pred ← predict_label np_features_0 2;
  labels_0 ← first_item labels;
  dice_dist ← best_symmetric_dice pred labels_0;
  OK (running_loss + current_loss, running_dice + dice_dist)%Qc.

(** [enumerate] leaves in [i] the index of the last batch; with no batch at
    all [i] is unbound. *)
Definition last_index {A} (l : list A) : result Z :=
  match l with
  | [] => Error NameError
  | _ => OK (Z.of_nat (length l) - 1)
  end.

Definition evaluate_model (dataloader : list Batch) : result (npfloat * npfloat) :=
  '(running_loss, running_dice) ← for_each evaluate_step (0%Qc, 0%Qc) dataloader;
  i ← last_index dataloader;
  let val_loss := np_true_divide running_loss (Qc_of_Z i) in
  let average_dice := np_true_divide running_dice (Qc_of_Z i) in
  OK (val_loss, average_dice).
End Evaluator.

(** *** [visualize]: arrays live in a heap, names hold references *)

Abbreviation loc := nat (only parsing).

(** What [imsave] received for a file. *)
Inductive saved : Type :=
  | SavedFloat (a : ndarray npfloat)
  | SavedInt (a : ndarray Z).

Record world : Type := mk_world {
  heap : gmap nat array;            (* the arrays of the caller *)
  dirs : gset string;               (* directories that exist *)
  files : gmap string saved         (* image files written *)
}.

(** A computation that changes the world and may raise: the world it leaves
    behind comes with the value or the exception, so that what was written
    before an exception stays written. *)
Definition io (A : Type) : Type := world -> world * result A.

#[global] Instance io_ret : MRet io := fun A a σ => (σ, OK a).
#[global] Instance io_bind : MBind io :=
  fun A B k m σ => match m σ with
                   | (σ', OK a) => k a σ'
                   | (σ', Error e) => (σ', Error e)
                   end.

(** A computation that leaves the world alone. *)
Definition lift {A} (r : result A) : io A := fun σ => (σ, r).

(** The directories [os.makedirs(path)] makes sure exist: [path] and every
    prefix of it that ends before a separator.  Names are kept as written. *)
Definition slash : Ascii.ascii := Ascii.ascii_of_nat 47.

Fixpoint dir_prefixes (done rest : string) : list string :=
  match rest with
  | EmptyString => [done]
  | String c rest' =>
      (if decide (c = slash) then [done] else [])
      ++ dir_prefixes (done +:+ String c EmptyString) rest'
  end.

Definition path_dirs (path : string) : list string :=
  filter (fun d => d <> EmptyString) (dir_prefixes EmptyString path).

(** [os.makedirs(path, exist_ok=True)] *)
Definition makedirs (path : string) : io unit :=
  fun σ => (mk_world (heap σ) (dirs σ ∪ list_to_set (path_dirs path)) (files σ), OK tt).

(** [imsave(path, a)] *)
Definition imsave (path : string) (a : saved) : io unit :=
  fun σ => (mk_world (heap σ) (dirs σ) (<[path := a]> (files σ)), OK tt).

(** The array a name refers to. *)
Definition deref (r : loc) : io array :=
  fun σ => (σ, match heap σ !! r with
               | Some a => OK a
               | None => Error NameError
               end).

(** A write into the buffer of the array at [r]. *)
Definition store (r : loc) (a : array) : io unit :=
  fun σ => (mk_world (<[r := a]> (heap σ)) (dirs σ) (files σ), OK tt).

Definition as_float (a : array) : ndarray Qc :=
  match a with
  | IntArr a => np_map Qc_of_Z a
  | FloatArr a => a
  end.

Definition array_shape (a : array) : list nat :=
  match a with IntArr a => shape a | FloatArr a => shape a end.

(** [a.astype(np.int32)] *)
Definition astype_int32 (a : array) : ndarray Z :=
  match a with
  | IntArr a => np_map to_int32 a
  | FloatArr a => np_map (fun v => float_to_int32 (py_int v)) a
  end.

(** The effect of [a[np.where(a == 255)] = 0] on the buffer of [a]. *)
Definition remap_255 (a : array) : array :=
  match a with
  | IntArr a => IntArr (np_map (fun v => if v =? 255 then 0 else v) a)
  | FloatArr a => FloatArr (np_map (fun v => if decide (v = Qc_of_Z 255) then 0%Qc else v) a)
  end.

(** [np.squeeze]: a view without the axes of length one. *)
Definition np_squeeze {A} (a : ndarray A) : ndarray A :=
  mk_ndarray (filter (fun d => d <> 1%nat) (shape a)) (data a).

Definition Qc_abs (v : Qc) : Qc := if Qc_ltb v 0 then (- v)%Qc else v.

(** [np.amax]: raises on an empty array. *)
Definition np_amax (a : ndarray Qc) : result Qc :=
  match data a with
  | [] => Error ValueError
  | v :: l => OK (foldl py_max2 v l)
  end.

Definition seg_dir (name : string) : string :=
  "visualizations/" +:+ name +:+ "/segmentations".

Definition seg_file (name id suffix : string) : string :=
  "visualizations/" +:+ name +:+ "/segmentations/" +:+ id +:+ suffix.

Section Visualize.
Context `{Postproc}.

Definition visualize (input label features : loc) (name id : string) : io unit :=
  (* Save original image *)
  makedirs (seg_dir name);;
  input_arr ← deref input;
  img_data ← lift (np_transpose_120 (as_float input_arr));
  max_val ← lift (np_amax (np_map Qc_abs img_data));
  let img_data :=
    np_map (fun v => npfloat_map (fun q => (q + 1) / 2)%Qc (np_true_divide v max_val))
           img_data in
  imsave (seg_file name id "img.jpg") (SavedFloat img_data);;
  (* Save ground truth *)
  label_arr ← deref label;
  let squeezed := bool_decide (length (array_shape label_arr) = 3%nat) in
  (* the in-place assignment goes through the view to the caller's array *)
  let label_arr := remap_255 label_arr in
  store label label_arr;;
  let label_local := astype_int32 label_arr in
  let label_local := if squeezed then np_squeeze label_local else label_local in
  imsave (seg_file name id "gt.png") (SavedInt label_local);;
  (* reduce features dimensionality and predict label *)
  features_arr ← deref features;
  predicted_label ← lift (predict_label (as_float features_arr) 1);
  imsave (seg_file name id "seg.png") (SavedInt predicted_label).
End Visualize.

(** ** Specification-side definitions

    These follow the words of the specification, not the code: sets of pixel
    positions, the Dice coefficient of two such sets, the maximum over the
    labels of one array and the average over the labels of the other, the
    non-empty lines of a file. *)

(** The shape without its leading axes of length one: (1,h,w) and (h,w)
    describe the same pixels. *)
Fixpoint squeeze_leading (s : list nat) : list nat :=
  match s with
  | 1%nat :: s' => squeeze_leading s'
  | _ => s
  end.

(** Two arrays over the same pixels. *)
Definition same_extent {A B} (x : ndarray A) (y : ndarray B) : Prop :=
  squeeze_leading (shape x) = squeeze_leading (shape y).

(** Number of positions where [x] has the value [v]: |{x = v}|. *)
Definition instance_size (x : ndarray Z) (v : Z) : Z :=
  Z.of_nat (length (filter (fun e => e = v) (data x))).

(** Number of positions where [x] has the value [v] and [y] the value [w]:
    |{x = v} ∩ {y = w}|. *)
Definition instance_overlap (x y : ndarray Z) (v w : Z) : Z :=
  Z.of_nat (length (filter (fun p => fst p = v ∧ snd p = w) (zip (data x) (data y)))).

(** The standard Dice coefficient 2|A ∩ B| / (|A| + |B|). *)
Definition dice_coefficient (x y : ndarray Z) (v w : Z) : Qc :=
  (2 * Qc_of_Z (instance_overlap x y v w)
   / Qc_of_Z (instance_size x v + instance_size y w))%Qc.

Definition Qc_max (a b : Qc) : Qc := if decide (a ≤ b)%Qc then b else a.

Definition sum_over (vs : list Z) (f : Z -> Qc) : Qc :=
  foldr (fun v acc => (f v + acc)%Qc) 0%Qc vs.

Definition max_over (ws : list Z) (f : Z -> Qc) : Qc :=
  match ws with
  | [] => 0%Qc
  | w :: ws' => foldr (fun w' m => Qc_max (f w') m) (f w) ws'
  end.

(** [vs] lists the distinct values occurring in [x], each once, in any order. *)
Definition distinct_values (vs : list Z) (x : ndarray Z) : Prop :=
  NoDup vs ∧ ∀ v, v ∈ vs ↔ v ∈ data x.

(** The average over the labels of [x] of the best Dice coefficient against
    the labels of [y]. *)
Definition dice_score_spec (x y : ndarray Z) (vs ws : list Z) : Qc :=
  (sum_over vs (fun v => max_over ws (dice_coefficient x y v))
   / Qc_of_Z (Z.of_nat (length vs)))%Qc.

(** [m] is the maximum of the numbers in [l]. *)
Definition is_max (m : Qc) (l : list Qc) : Prop :=
  m ∈ l ∧ ∀ q, q ∈ l → (q ≤ m)%Qc.

(** The non-empty lines of a text file: the non-empty pieces between its
    newline characters. *)
Definition nonempty_lines (content : string) : list string :=
  filter (fun l => l <> EmptyString) (split_newline content).

(** The properties of correctly rounded binary floating point that the
    statements below rely on: a relative error of at most [2^-53] in the
    normal range (below the overflow threshold), integers below [2^53] are
    exact, and rounding never crosses zero or a representable integer. *)
Definition float_eps : Qc := pow2 (-53).

Record correctly_rounded (F : FloatArith) : Prop := {
  fl_accurate : ∀ q : Qc,
    (pow2 (-1022) ≤ q)%Qc -> (q ≤ pow2 1023)%Qc ->
    (q * (1 - float_eps) ≤ fl q)%Qc ∧ (fl q ≤ q * (1 + float_eps))%Qc;
  fl_exact_int : ∀ z : Z, 0 ≤ z < 2 ^ 53 -> fl (Qc_of_Z z) = Qc_of_Z z;
  fl_nonneg : ∀ q : Qc, (0 ≤ q)%Qc -> (0 ≤ fl q)%Qc;
  fl_below_int : ∀ (q : Qc) (z : Z),
    0 ≤ z < 2 ^ 53 -> (q ≤ Qc_of_Z z)%Qc -> (fl q ≤ Qc_of_Z z)%Qc
}.

(** The largest side of an image: PIL keeps sizes in C integers. *)
Definition max_side : Z := 2 ^ 31 - 1.

(** The sum of a list of floats, added from the left with a rounding after
    each addition. *)
Definition float_sum `{FloatArith} (l : list Qc) : Qc :=
  foldl (fun total m => fl (total + m)%Qc) 0%Qc l.

(** The Dice coefficient as a float: the rounded quotient. *)
Definition float_dice_coefficient `{FloatArith} (x y : ndarray Z) (v w : Z) : Qc :=
  fl (dice_coefficient x y v w).

(** The floating point average of the best coefficients: the labels [vs] of
    [x] are visited in the order of the list. *)
Definition dice_score_float_spec `{FloatArith} (x y : ndarray Z) (vs ws : list Z) : Qc :=
  fl (float_sum (map (fun v => max_over ws (float_dice_coefficient x y v)) vs)
      / Qc_of_Z (Z.of_nat (length vs)))%Qc.

(** ** Concrete inputs used in examples *)

(** The two labelings used as examples in the specification. *)
Definition inverse_pred : ndarray Z := of_rows [[1; 1]; [0; 0]].
Definition inverse_gt : ndarray Z := of_rows [[0; 0]; [1; 1]].
Definition stripes_pred : ndarray Z := of_rows [[1; 1]; [2; 2]].
Definition stripes_gt : ndarray Z := of_rows [[1; 2]; [1; 2]].

(** The score of a run, when there is one. *)
Definition score_of (r : result Qc) : option Qc :=
  match r with OK s => Some s | Error _ => None end.

(** A stand-in for the numerical libraries: a PCA that leaves the points as
    they are and a clusterer that calls a point noise when its first feature
    is below 5 and puts every other point in cluster 1. *)
Definition toy_postproc : Postproc := {|
  pca_fit_transform := fun _ pts => OK pts;
  hdbscan_fit_predict := fun pts =>
    OK (map (fun p => match p with
                      | q :: _ => if Qc_ltb q (Qc_of_Z 5) then -1 else 1
                      | [] => -1
                      end) pts)
|}.

(** One channel, 3 x 3 pixels. *)
Definition features_1x3x3 : ndarray Qc :=
  mk_ndarray [1; 3; 3]%nat (map Qc_of_Z [1; 2; 3; 4; 5; 6; 7; 8; 9]).

(** One channel, 2 x 2 pixels. *)
Definition features_1x2x2 : ndarray Qc :=
  mk_ndarray [1; 2; 2]%nat (map Qc_of_Z [6; 7; 8; 9]).

(** A network whose features are its input and whose loss is always 1/2. *)
Definition toy_network : Network := {|
  Inputs := ndarray Qc;
  net := fun x => [x];
  loss_fn := fun _ _ => Q2Qc (1 # 2)
|}.

Definition toy_batch : @Batch toy_network :=
  @mk_Batch toy_network features_1x2x2 [of_rows [[7; 7]; [7; 7]]].

(** A text made of newline-terminated lines. *)
Definition unlines (lines : list string) : string :=
  foldr (fun l acc => l +:+ String newline acc) EmptyString lines.

Fixpoint has_newline (s : string) : bool :=
  match s with
  | EmptyString => false
  | String c s' => bool_decide (c = newline) || has_newline s'
  end.

(** Images reduced to their size: resizing succeeds on positive sizes, as
    PIL's does, and cropping returns the requested size. *)
Definition toy_imaging : Imaging := {|
  Image := Z * Z;
  Tensor := unit;
  im_size := fun im => im;
  im_resize := fun _ sz =>
    if (1 <=? fst sz) && (1 <=? snd sz) then OK sz else Error ValueError;
  center_crop := fun h w _ => (w, h);
  to_tensor := fun _ => tt;
  normalize := fun _ _ t => t;
  np_asarray := fun im =>
    mk_ndarray [Z.to_nat (snd im); Z.to_nat (fst im)]
               (replicate (Z.to_nat (snd im) * Z.to_nat (fst im)) 0)
|}.

(** A file system with one identifier list and the files of sample "a". *)
Definition toy_fs : @filesystem toy_imaging := fun path =>
  if decide (path = "ids.txt") then Some (@TextFile toy_imaging ("a" +:+ String newline EmptyString))
  else if decide (path = "blank.txt")
       then Some (@TextFile toy_imaging (unlines ["a"; EmptyString; "b"]))
  else if decide (path = "img/a.jpg") then Some (@ImageFile toy_imaging (4, 3))
  else if decide (path = "lab/a.png") then Some (@ImageFile toy_imaging (4, 3))
  else if decide (path = "lab/a.npz")
       then Some (@NpzFile toy_imaging (IntArr (of_rows [[0; 1]; [1; 1]])))
  else None.

(** A caller's heap for [visualize]: a 3 x 1 x 1 input at location 0, a 1 x 1
    label holding the value 255 at location 1, features at location 2. *)
Definition toy_world : world := {|
  heap := <[0%nat := FloatArr (mk_ndarray [3; 1; 1]%nat (map Qc_of_Z [1; 2; 3]))]>
          (<[1%nat := IntArr (of_rows [[255]])]>
           (<[2%nat := FloatArr features_1x2x2]> ∅));
  dirs := ∅;
  files := ∅
|}.

(** A caller's heap with arrays of the shapes [visualize] documents: a
    3 x 4 x 4 input at location 0, a 4 x 4 label with unlabeled pixels (255)
    at location 1 and 10 x 4 x 4 features at location 2. *)
Definition label_4x4 : ndarray Z :=
  of_rows [[255; 255; 1; 1]; [255; 1; 1; 1]; [2; 2; 1; 1]; [2; 2; 255; 255]].

Definition sample_world : world := {|
  heap := <[0%nat := FloatArr (mk_ndarray [3; 4; 4]%nat (map Qc_of_Z (seqZ (-20) 48)))]>
          (<[1%nat := IntArr label_4x4]>
           (<[2%nat := FloatArr (mk_ndarray [10; 4; 4]%nat (map Qc_of_Z (seqZ 0 160)))]> ∅));
  dirs := ∅;
  files := ∅
|}.

(** Two labelings of five pixels on which the order of the float sum shows. *)
Definition thirds_pred : ndarray Z := of_rows [[2; 0; 2; 1; 3]].
Definition thirds_gt : ndarray Z := of_rows [[0; 1; 2; 3; 3]].

(** ** Auxiliary definitions for further properties *)

(** The points that [predict_label] hands to [reduce]: the first lines of its
    body, up to [flat_features]. *)
Definition pixel_points (features : ndarray Qc) (downsample_factor : nat)
  : result (list (list Qc)) :=
  features ← np_transpose_120 features;
  features ← block_reduce_max downsample_factor features;
  '(h, w, c) ← shape3 features;
  OK (reshape_rows (h * w) c (data features)).

(** Number of newline characters of a text. *)
Fixpoint count_newlines (s : string) : nat :=
  match s with
  | EmptyString => 0%nat
  | String c s' => ((if decide (c = newline) then 1 else 0) + count_newlines s')%nat
  end.

(** A PCA that always fails, and a clusterer that always fails. *)
Definition failing_pca : Postproc := {|
  pca_fit_transform := fun _ _ => Error LibraryError;
  hdbscan_fit_predict := fun pts => OK (map (fun _ => 0) pts)
|}.

Definition failing_hdbscan : Postproc := {|
  pca_fit_transform := fun _ pts => OK pts;
  hdbscan_fit_predict := fun _ => Error LibraryError
|}.

(** Two channels, 2 x 3 pixels. *)
Definition features_2x2x3 : ndarray Qc :=
  mk_ndarray [2; 2; 3]%nat (map Qc_of_Z [1; 2; 3; 4; 5; 6; 7; 8; 9; 10; 11; 12]).


(** A batch without labels. *)
Definition unlabeled_batch : @Batch toy_network :=
  @mk_Batch toy_network features_1x2x2 [].

(** The size that [resize_sample] asks [resize] for: the lines of its body up
    to [new_size], on an image with non-empty sides. *)
Definition new_size `{Imaging, FloatArith} (img : Image) (h w : Z) (restore : bool)
  : Z * Z :=
  let old_size := im_size img in
  let w_ratio := fl (py_float w / py_float (fst old_size))%Qc in
  let h_ratio := fl (py_float h / py_float (snd old_size))%Qc in
  let ratio := if restore then py_max2 w_ratio h_ratio
               else py_min2 w_ratio h_ratio in
  (py_int (py_int_mul_float (fst old_size) ratio),
   py_int (py_int_mul_float (snd old_size) ratio)).

(** The image that [visualize] saves for the input array: the lines of its
    body between [os.makedirs] and the first [imsave]. *)
Definition normalized_image (input_arr : array) : result (ndarray npfloat) :=
  img_data ← np_transpose_120 (as_float input_arr);
  max_val ← np_amax (np_map Qc_abs img_data);
  OK (np_map (fun v => npfloat_map (fun q => (q + 1) / 2)%Qc (np_true_divide v max_val))
             img_data).

(** The ground truth that [visualize] saves for the label array. *)
Definition ground_truth (label_arr : array) : ndarray Z :=
  let squeezed := bool_decide (length (array_shape label_arr) = 3%nat) in
  let label_local := astype_int32 (remap_255 label_arr) in
  if squeezed then np_squeeze label_local else label_local.

(** * Properties *)

(** ** The error monad *)

Ltac unfold_result := unfold mbind, mret, fmap, result_bind, result_ret, result_fmap in *.

Lemma bind_OK {A B} (m : result A) (k : A -> result B) (a : A) :
  m = OK a -> (m ≫= k) = k a.
Proof. intros ->. reflexivity. Qed.

Lemma bind_Error {A B} (m : result A) (k : A -> result B) (e : exn) :
  m = Error e -> (m ≫= k) = Error e.
Proof. intros ->. reflexivity. Qed.

Lemma bind_OK_inv {A B} (m : result A) (k : A -> result B) (b : B) :
  (m ≫= k) = OK b -> ∃ a, m = OK a ∧ k a = OK b.
Proof. destruct m as [a|e]; [eauto | discriminate]. Qed.

Lemma for_each_pure {A S} (body : S -> A -> result S) (g : S -> A -> S) l s :
  (∀ s a, a ∈ l -> body s a = OK (g s a)) ->
  for_each body s l = OK (foldl g s l).
Proof.
  revert s. induction l as [|a l IH]; intros s Hbody; simpl; [done|].
  rewrite (Hbody s a) by left. simpl. unfold_result.
  apply IH. intros s' a' Ha'. apply Hbody. by right.
Qed.

Lemma for_each_mapM {A B S} (F : A -> result B) (g : S -> B -> S) l s :
  for_each (fun s a => b ← F a; OK (g s b)) s l
  = (bs ← mapM F l; OK (foldl g s bs)).
Proof.
  revert s. induction l as [|a l IH]; intros s; simpl; [done|].
  destruct (F a) as [b|e]; simpl; [|done].
  unfold_result. rewrite IH. by destruct (mapM F l).
Qed.

Lemma mapM_ext {A B} (F G : A -> result B) l :
  (∀ a, a ∈ l -> F a = G a) -> mapM F l = mapM G l.
Proof.
  induction l as [|a l IH]; intros HFG; simpl; [done|].
  rewrite (HFG a) by left. rewrite IH; [done|].
  intros a' Ha'. apply HFG. by right.
Qed.

Lemma mapM_map {A A' B} (F : A' -> result B) (h : A -> A') l :
  mapM F (map h l) = mapM (fun a => F (h a)) l.
Proof. induction l as [|a l IH]; simpl; [done|]. by rewrite IH. Qed.

Lemma mapM_pure {A B} (F : A -> result B) (f : A -> B) l :
  (∀ a, a ∈ l -> F a = OK (f a)) -> mapM F l = OK (map f l).
Proof.
  induction l as [|a l IH]; intros HF; simpl; [done|].
  rewrite (HF a) by left. simpl. unfold_result.
  rewrite IH; [done|]. intros a' Ha'. apply HF. by right.
Qed.

(** Two runs that agree up to the order of the visited elements. *)
Definition same_outcome {B} (r r' : result (list B)) : Prop :=
  match r, r' with
  | OK bs, OK bs' => bs ≡ₚ bs'
  | Error e, Error e' => e = e'
  | _, _ => False
  end.

Lemma mapM_perm {A B} (F : A -> result B) (e0 : exn) l l' :
  (∀ a e, F a = Error e -> e = e0) ->
  l ≡ₚ l' -> same_outcome (mapM F l) (mapM F l').
Proof.
  intros Huni Hperm. induction Hperm as [|a l l' Hp IH|a b l|l l' l'' Hp1 IH1 Hp2 IH2]; simpl.
  - done.
  - destruct (F a) as [b|e]; simpl; [|done].
    unfold same_outcome in IH.
    destruct (mapM F l), (mapM F l'); simpl; try done. by constructor.
  - destruct (F a) as [fa|ea] eqn:Ha, (F b) as [fb|eb] eqn:Hb; simpl; try done.
    + destruct (mapM F l); simpl; [apply perm_swap | done].
    + apply Huni in Ha, Hb. congruence.
  - unfold same_outcome in *.
    destruct (mapM F l), (mapM F l'), (mapM F l''); try done.
    + by etrans.
    + congruence.
Qed.

(** ** Rational numbers *)

#[local] Open Scope Qc_scope.

Lemma Qc_ltb_lt a b : Qc_ltb a b = true ↔ a < b.
Proof.
  unfold Qc_ltb. rewrite Qclt_alt. destruct (a ?= b); split; congruence.
Qed.

Lemma Qc_ltb_ge a b : Qc_ltb a b = false ↔ b ≤ a.
Proof.
  rewrite <-not_true_iff_false, Qc_ltb_lt. symmetry. apply Qcle_ngt.
Qed.

Lemma py_max2_ub_l a b : a ≤ py_max2 a b.
Proof.
  unfold py_max2. destruct (Qc_ltb a b) eqn:E; [|done].
  apply Qc_ltb_lt in E. by apply Qclt_le_weak.
Qed.

Lemma py_max2_ub_r a b : b ≤ py_max2 a b.
Proof.
  unfold py_max2. destruct (Qc_ltb a b) eqn:E; [done|]. by apply Qc_ltb_ge.
Qed.

Lemma py_max2_cases a b : py_max2 a b = a ∨ py_max2 a b = b.
Proof. unfold py_max2. destruct (Qc_ltb a b); auto. Qed.

Lemma py_max2_lub a b c : a ≤ c -> b ≤ c -> py_max2 a b ≤ c.
Proof. destruct (py_max2_cases a b) as [-> | ->]; auto. Qed.

Lemma py_max2_comm a b : py_max2 a b = py_max2 b a.
Proof.
  apply Qcle_antisym; apply py_max2_lub;
    auto using py_max2_ub_l, py_max2_ub_r.
Qed.

Lemma py_max2_assoc a b c : py_max2 (py_max2 a b) c = py_max2 a (py_max2 b c).
Proof.
  apply Qcle_antisym; repeat apply py_max2_lub;
    eauto using py_max2_ub_l, py_max2_ub_r, Qcle_trans.
Qed.

Lemma Qc_max_py_max2 a b : Qc_max a b = py_max2 a b.
Proof.
  unfold Qc_max. apply Qcle_antisym.
  - case_decide; auto using py_max2_ub_l, py_max2_ub_r.
  - apply py_max2_lub; case_decide; try done.
    by apply Qclt_le_weak, Qclt_nge.
Qed.

Lemma is_max_unique m m' l l' :
  (∀ q, q ∈ l ↔ q ∈ l') -> is_max m l -> is_max m' l' -> m = m'.
Proof.
  intros Hel [Hm Hub] [Hm' Hub']. apply Qcle_antisym.
  - apply Hub'. by apply Hel.
  - apply Hub. by apply Hel.
Qed.

Lemma foldl_py_max2_is_max a l : is_max (foldl py_max2 a l) (a :: l).
Proof.
  revert a. induction l as [|b l IH]; intros a; simpl.
  - split; [left|]. intros q ->%list_elem_of_singleton. done.
  - destruct (IH (py_max2 a b)) as [Hin Hub]. split.
    + apply elem_of_cons in Hin as [Hin|Hin]; [|by do 2 right].
      rewrite Hin. destruct (py_max2_cases a b) as [-> | ->]; [left | right; left].
    + intros q Hq. apply elem_of_cons in Hq as [->|Hq].
      * trans (py_max2 a b); [apply py_max2_ub_l | apply Hub; left].
      * apply elem_of_cons in Hq as [->|Hq].
        -- trans (py_max2 a b); [apply py_max2_ub_r | apply Hub; left].
        -- apply Hub. by right.
Qed.

Lemma foldl_py_max2_perm a l l' :
  l ≡ₚ l' -> foldl py_max2 a l = foldl py_max2 a l'.
Proof.
  intros Hp. eapply is_max_unique; [|apply foldl_py_max2_is_max..].
  intros q. by rewrite Hp.
Qed.

Lemma foldl_Qcplus_sum a l : foldl Qcplus a l = a + foldr Qcplus 0 l.
Proof.
  revert a. induction l as [|b l IH]; intros a; simpl; [ring|].
  rewrite IH. ring.
Qed.

Lemma foldl_Qcplus_perm a l l' :
  l ≡ₚ l' -> foldl Qcplus a l = foldl Qcplus a l'.
Proof.
  intros Hp. rewrite !foldl_Qcplus_sum. f_equal.
  induction Hp; simpl; [done | congruence | ring | congruence].
Qed.

#[local] Close Scope Qc_scope.

(** ** [np.unique] *)

Lemma elem_of_insert_unique v w l : w ∈ insert_unique v l ↔ w = v ∨ w ∈ l.
Proof.
  induction l as [|u l IH]; simpl.
  - rewrite list_elem_of_singleton, elem_of_nil. tauto.
  - destruct (Z.ltb_spec v u); [by rewrite elem_of_cons|].
    destruct (Z.eqb_spec v u) as [->|].
    + rewrite elem_of_cons. tauto.
    + rewrite !elem_of_cons, IH. tauto.
Qed.

Lemma insert_unique_sorted v l :
  StronglySorted Z.lt l -> StronglySorted Z.lt (insert_unique v l).
Proof.
  induction 1 as [|u l Hs IH Hall]; simpl.
  - repeat constructor.
  - destruct (Z.ltb_spec v u).
    + constructor; [by constructor|].
      constructor; [done|]. eapply Forall_impl; [exact Hall|]. simpl. lia.
    + destruct (Z.eqb_spec v u); [by constructor|].
      constructor; [done|]. apply Forall_forall. intros w Hw.
      apply elem_of_insert_unique in Hw as [->|Hw]; [lia|].
      rewrite Forall_forall in Hall. by apply Hall.
Qed.

Lemma np_unique_sorted x : StronglySorted Z.lt (np_unique x).
Proof.
  unfold np_unique. induction (data x); simpl; [constructor|].
  by apply insert_unique_sorted.
Qed.

Lemma sorted_lt_NoDup l : StronglySorted Z.lt l -> NoDup l.
Proof.
  induction 1 as [|u l Hs IH Hall]; constructor; [|done].
  intros Hu. rewrite Forall_forall in Hall. specialize (Hall u Hu). lia.
Qed.

Lemma elem_of_np_unique x v : v ∈ np_unique x ↔ v ∈ data x.
Proof.
  unfold np_unique. induction (data x) as [|u l IH]; simpl; [done|].
  rewrite elem_of_insert_unique, elem_of_cons, IH. done.
Qed.

Lemma np_unique_distinct x : distinct_values (np_unique x) x.
Proof.
  split; [apply sorted_lt_NoDup, np_unique_sorted | apply elem_of_np_unique].
Qed.

Lemma distinct_values_perm vs vs' x :
  distinct_values vs x -> distinct_values vs' x -> vs ≡ₚ vs'.
Proof.
  intros [Hnd Hel] [Hnd' Hel']. apply NoDup_Permutation; [done..|].
  intros v. by rewrite Hel, Hel'.
Qed.

Lemma distinct_values_relabel σ `{!Inj (=) (=) σ} vs x :
  distinct_values vs x -> distinct_values (map σ vs) (np_map σ x).
Proof.
  intros [Hnd Hel]. split.
  - change (map σ vs) with (σ <$> vs). by apply NoDup_fmap_2.
  - intros v. simpl. change (map σ vs) with (σ <$> vs).
    change (map σ (data x)) with (σ <$> data x).
    rewrite !list_elem_of_fmap. by setoid_rewrite Hel.
Qed.

Lemma np_unique_relabel σ `{!Inj (=) (=) σ} x :
  np_unique (np_map σ x) ≡ₚ map σ (np_unique x).
Proof.
  eapply distinct_values_perm; [apply np_unique_distinct|].
  apply distinct_values_relabel; [done|]. apply np_unique_distinct.
Qed.

(** ** Relabelling the instances *)

Section Relabel.
Context (σ τ : Z -> Z) `{!Inj (=) (=) σ, !Inj (=) (=) τ}.

Lemma np_where_eq_relabel (ρ : Z -> Z) `{!Inj (=) (=) ρ} x v :
  np_where_eq (np_map ρ x) (ρ v) = np_where_eq x v.
Proof.
  unfold np_where_eq, np_map. simpl. f_equal.
  rewrite map_map. apply map_ext. intros e.
  destruct (Z.eqb_spec (ρ e) (ρ v)) as [Heq|Hne], (Z.eqb_spec e v) as [Heq'|Hne'];
    try done.
  - by apply (inj ρ) in Heq.
  - by subst.
Qed.

Lemma dice_pair_relabel x y v w :
  dice_pair (np_map σ x) (np_map τ y) (σ v) (τ w) = dice_pair x y v w.
Proof. unfold dice_pair. by rewrite !np_where_eq_relabel. Qed.
End Relabel.

(** Whatever the instances, one pair of arrays can raise only one kind of
    exception in [dice_pair]. *)
Lemma dice_pair_error_uniform x y :
  ∃ e0, ∀ v w e, dice_pair x y v w = Error e -> e = e0.
Proof.
  destruct (broadcast_shapes (shape x) (shape y)) as [s|] eqn:Hs.
  - exists NonFinite. intros v w e. unfold dice_pair, np_logical_and, np_add, np_binop.
    simpl. rewrite Hs. simpl. unfold finite.
    destruct (np_true_divide _ _); congruence.
  - exists ValueError. intros v w e. unfold dice_pair, np_logical_and, np_binop.
    simpl. rewrite Hs. simpl. congruence.
Qed.

Lemma mapM_Error_inv {A B} (F : A -> result B) l e :
  mapM F l = Error e -> ∃ a, a ∈ l ∧ F a = Error e.
Proof.
  induction l as [|a l IH]; simpl; [done|].
  destruct (F a) as [b|e'] eqn:Ha; simpl.
  - destruct (mapM F l) as [bs|e'']; simpl; [done|].
    intros [= ->]. destruct IH as (a' & ? & ?); [done|].
    exists a'. split; [by right | done].
  - intros [= ->]. exists a. split; [left | done].
Qed.

Lemma best_match_mapM x y ws v :
  best_match x y ws v
  = (scores ← mapM (dice_pair x y v) ws; OK (foldl py_max2 0%Qc scores)).
Proof. unfold best_match. apply for_each_mapM. Qed.

Lemma best_match_error_uniform x y :
  ∃ e0, (∀ v w e, dice_pair x y v w = Error e -> e = e0)
        ∧ ∀ ws v e, best_match x y ws v = Error e -> e = e0.
Proof.
  destruct (dice_pair_error_uniform x y) as [e0 He0]. exists e0.
  split; [done|]. intros ws v e. rewrite best_match_mapM.
  destruct (mapM _ ws) as [bs|e'] eqn:Hm; simpl; [done|].
  intros [= ->]. apply mapM_Error_inv in Hm as (w & _ & Hw). eauto.
Qed.

Lemma best_match_perm x y ws ws' v :
  ws ≡ₚ ws' -> best_match x y ws v = best_match x y ws' v.
Proof.
  intros Hp. rewrite !best_match_mapM.
  destruct (dice_pair_error_uniform x y) as [e0 He0].
  pose proof (mapM_perm (dice_pair x y v) e0 ws ws' (He0 v) Hp) as Hsame.
  unfold same_outcome in Hsame.
  destruct (mapM _ ws), (mapM _ ws'); simpl; try done; [|congruence].
  f_equal. by apply foldl_py_max2_perm.
Qed.

Lemma dice_score_mapM x y :
  dice_score x y
  = (bests ← mapM (best_match x y (np_unique y)) (np_unique x);
     if decide (length (np_unique x) = 0%nat) then Error ZeroDivisionError
     else OK (foldl Qcplus 0 bests / Qc_of_Z (Z.of_nat (length (np_unique x))))%Qc).
Proof.
  unfold dice_score.
  rewrite (for_each_mapM (best_match x y (np_unique y)) Qcplus).
  by destruct (mapM _ _).
Qed.

(** ** Broadcasting of two arrays of one shape *)

Lemma prod_shape_app s1 s2 :
  prod_shape (s1 ++ s2) = (prod_shape s1 * prod_shape s2)%nat.
Proof.
  unfold prod_shape. induction s1 as [|d s1 IH]; simpl; [lia|].
  rewrite IH. lia.
Qed.

Lemma prod_shape_reverse s : prod_shape (reverse s) = prod_shape s.
Proof.
  induction s as [|d s IH]; [done|].
  rewrite reverse_cons, prod_shape_app, IH. simpl. lia.
Qed.

Lemma squeeze_leading_ones s :
  ∃ k, s = replicate k 1%nat ++ squeeze_leading s.
Proof.
  induction s as [|d s [k IH]]; [by exists 0%nat|].
  destruct (decide (d = 1%nat)) as [->|Hd].
  - exists (S k). simpl. by rewrite <-IH.
  - exists 0%nat. simpl. by destruct d as [|[|d]].
Qed.

Lemma prod_shape_ones k s : prod_shape (replicate k 1%nat ++ s) = prod_shape s.
Proof.
  rewrite prod_shape_app. unfold prod_shape at 1.
  induction k as [|k IH]; simpl in *; lia.
Qed.

Lemma prod_shape_squeeze s : prod_shape (squeeze_leading s) = prod_shape s.
Proof.
  destruct (squeeze_leading_ones s) as [k Hk]. rewrite Hk at 2.
  by rewrite prod_shape_ones.
Qed.

Lemma broadcast_rev_ones i j :
  broadcast_rev (replicate i 1%nat) (replicate j 1%nat)
  = Some (replicate (i `max` j) 1%nat).
Proof.
  revert j. induction i as [|i IH]; intros [|j]; simpl; try done.
  by rewrite IH.
Qed.

Lemma broadcast_rev_core r i j :
  broadcast_rev (r ++ replicate i 1%nat) (r ++ replicate j 1%nat)
  = Some (r ++ replicate (i `max` j) 1%nat).
Proof.
  induction r as [|d r IH]; simpl; [apply broadcast_rev_ones|].
  rewrite IH. simpl. by rewrite decide_True.
Qed.

Lemma reverse_ones_app k s :
  reverse (replicate k 1%nat ++ s) = reverse s ++ replicate k 1%nat.
Proof. by rewrite reverse_app, reverse_replicate. Qed.

Lemma broadcast_shapes_core s i j :
  broadcast_shapes (replicate i 1%nat ++ s) (replicate j 1%nat ++ s)
  = Some (replicate (i `max` j) 1%nat ++ s).
Proof.
  unfold broadcast_shapes. rewrite !reverse_ones_app, broadcast_rev_core. simpl.
  by rewrite <-reverse_ones_app, reverse_involutive.
Qed.

Lemma src_index_ones m i stride :
  src_index (replicate m 1%nat) (replicate i 1%nat) 0 stride = 0%nat.
Proof.
  revert i stride. induction m as [|m IH]; intros [|i] stride; simpl; done.
Qed.

Lemma src_index_core r m i p stride :
  (p < prod_shape r)%nat ->
  src_index (r ++ replicate m 1%nat) (r ++ replicate i 1%nat) p stride
  = (p * stride)%nat.
Proof.
  revert p stride. induction r as [|d r IH]; intros p stride Hp; simpl in *.
  - assert (p = 0)%nat as -> by (unfold prod_shape in Hp; simpl in Hp; lia).
    apply src_index_ones.
  - change (foldr Nat.mul 1%nat r) with (prod_shape r) in *.
    assert (d ≠ 0)%nat as Hd by (intros ->; simpl in Hp; lia).
    rewrite IH; last first.
    { apply Nat.Div0.div_lt_upper_bound. lia. }
    pose proof (Nat.div_mod_eq p d) as Hdm.
    case_decide as Hd1.
    + subst d. rewrite Nat.div_1_r. lia.
    + nia.
Qed.

Lemma tabulate_lookup_total `{Inhabited A} (l : list A) :
  map (fun p => l !!! p) (seq 0 (length l)) = l.
Proof.
  apply list_eq. intros i.
  change (map (λ p, l !!! p) (seq 0 (length l)))
    with ((λ p, l !!! p) <$> seq 0 (length l)).
  rewrite list_lookup_fmap. destruct (l !! i) as [a|] eqn:Hi.
  - rewrite lookup_seq_lt by (by eapply lookup_lt_Some). simpl.
    f_equal. by apply list_lookup_total_correct.
  - rewrite lookup_seq_ge; [done|]. by apply lookup_ge_None.
Qed.

Lemma broadcast_to_core `{Inhabited A} (a : ndarray A) s m i :
  wf_array a -> shape a = replicate i 1%nat ++ s ->
  broadcast_to (replicate m 1%nat ++ s) a = data a.
Proof.
  unfold wf_array, broadcast_to. intros Hwf Hs.
  etrans; [|apply (tabulate_lookup_total (data a))].
  rewrite Hwf, Hs, !prod_shape_ones.
  apply map_ext_in. intros p Hp%in_seq. rewrite !reverse_ones_app.
  rewrite src_index_core by (rewrite prod_shape_reverse; lia).
  by rewrite Nat.mul_1_r.
Qed.

(** Arrays over the same pixels combine entry by entry. *)
Lemma np_binop_same_extent `{Inhabited A, Inhabited B} {C}
    (f : A -> B -> C) (a : ndarray A) (b : ndarray B) :
  wf_array a -> wf_array b -> same_extent a b ->
  ∃ s, np_binop f a b = OK (mk_ndarray s (zip_with f (data a) (data b))).
Proof.
  intros Ha Hb Hs. unfold np_binop, same_extent in *.
  destruct (squeeze_leading_ones (shape a)) as [i Hi].
  destruct (squeeze_leading_ones (shape b)) as [j Hj].
  rewrite <-Hs in Hj. remember (squeeze_leading (shape a)) as core eqn:Hcore.
  rewrite Hi, Hj, broadcast_shapes_core.
  rewrite (broadcast_to_core a _ _ i), (broadcast_to_core b _ _ j) by done.
  eauto.
Qed.

Lemma same_extent_length {A B} (a : ndarray A) (b : ndarray B) :
  wf_array a -> wf_array b -> same_extent a b ->
  length (data a) = length (data b).
Proof.
  unfold wf_array, same_extent. intros -> -> Hs.
  by rewrite <-(prod_shape_squeeze (shape a)), Hs, prod_shape_squeeze.
Qed.

Lemma same_shape_extent {A B} (a : ndarray A) (b : ndarray B) :
  shape a = shape b -> same_extent a b.
Proof. unfold same_extent. by intros ->. Qed.

(** ** The Dice coefficient of one pair of instances *)

Lemma mask_overlap_count (dx dy : list Z) v w :
  foldr (fun (b : bool) acc => (if b then 1 else 0) + acc) 0
    (zip_with (fun p q => negb (p =? 0) && negb (q =? 0))
       (map (fun e => if e =? v then 1 else 0) dx)
       (map (fun e => if e =? w then 1 else 0) dy))
  = Z.of_nat (length (filter (fun p => fst p = v ∧ snd p = w) (zip dx dy))).
Proof.
  revert dy. induction dx as [|a dx IH]; intros [|b dy]; simpl; try done.
  rewrite IH. rewrite filter_cons. simpl.
  destruct (Z.eqb_spec a v), (Z.eqb_spec b w); simpl;
    case_decide; simpl; try lia; tauto.
Qed.

Lemma mask_sum_count (dx dy : list Z) v w :
  length dx = length dy ->
  foldr Z.add 0
    (zip_with Z.add (map (fun e => if e =? v then 1 else 0) dx)
                    (map (fun e => if e =? w then 1 else 0) dy))
  = Z.of_nat (length (filter (fun e => e = v) dx))
    + Z.of_nat (length (filter (fun e => e = w) dy)).
Proof.
  revert dy. induction dx as [|a dx IH]; intros [|b dy] Hlen; simpl in *; try done.
  rewrite IH by lia. rewrite !filter_cons.
  destruct (Z.eqb_spec a v), (Z.eqb_spec b w);
    repeat case_decide; simpl; try lia; tauto.
Qed.

Lemma instance_size_nonneg x v : 0 ≤ instance_size x v.
Proof. unfold instance_size. lia. Qed.

Lemma instance_size_pos x v : v ∈ data x -> 0 < instance_size x v.
Proof.
  unfold instance_size. intros Hv.
  assert (v ∈ filter (fun e => e = v) (data x)) as Hin
    by (by apply list_elem_of_filter).
  destruct (filter _ (data x)); [by apply elem_of_nil in Hin | simpl; lia].
Qed.

Lemma overlap_le_size_l (dx dy : list Z) v w :
  (length (filter (fun p => fst p = v ∧ snd p = w) (zip dx dy))
   ≤ length (filter (fun e => e = v) dx))%nat.
Proof.
  revert dy. induction dx as [|a dx IH]; intros [|b dy]; simpl; try lia.
  rewrite !filter_cons. simpl. specialize (IH dy).
  repeat case_decide; simpl; try lia; tauto.
Qed.

Lemma overlap_le_size_r (dx dy : list Z) v w :
  (length (filter (fun p => fst p = v ∧ snd p = w) (zip dx dy))
   ≤ length (filter (fun e => e = w) dy))%nat.
Proof.
  revert dy. induction dx as [|a dx IH]; intros [|b dy]; simpl; try lia.
  rewrite !filter_cons. simpl. specialize (IH dy).
  repeat case_decide; simpl; try lia; tauto.
Qed.

Lemma instance_overlap_bounds x y v w :
  0 ≤ instance_overlap x y v w
  ∧ 2 * instance_overlap x y v w ≤ instance_size x v + instance_size y w.
Proof.
  unfold instance_overlap, instance_size.
  pose proof (overlap_le_size_l (data x) (data y) v w).
  pose proof (overlap_le_size_r (data x) (data y) v w). lia.
Qed.

Lemma wf_np_where_eq x v : wf_array x -> wf_array (np_where_eq x v).
Proof. unfold wf_array. simpl. by rewrite length_map. Qed.

Lemma dice_pair_same_extent x y v w :
  wf_array x -> wf_array y -> same_extent x y -> v ∈ data x ->
  dice_pair x y v w = OK (dice_coefficient x y v w).
Proof.
  intros Hx Hy Hs Hv. unfold dice_pair, np_logical_and, np_add.
  destruct (np_binop_same_extent
              (fun p q => negb (p =? 0) && negb (q =? 0))
              (np_where_eq x v) (np_where_eq y w)) as [s1 ->];
    [by apply wf_np_where_eq.. | done |].
  destruct (np_binop_same_extent Z.add (np_where_eq x v) (np_where_eq y w))
    as [s2 ->]; [by apply wf_np_where_eq.. | done |].
  simpl. unfold np_sum_bool, np_sum. simpl.
  rewrite mask_overlap_count, mask_sum_count by (by apply same_extent_length).
  fold (instance_overlap x y v w) (instance_size x v) (instance_size y w).
  unfold np_true_divide. rewrite decide_False; [done|].
  rewrite <-Z2Qc_inj_0. intros Heq%Z2Qc_inj.
  pose proof (instance_size_pos x v Hv). pose proof (instance_size_nonneg y w). lia.
Qed.

#[local] Open Scope Qc_scope.

Lemma Qc_of_Z_nonneg n : (0 ≤ n)%Z -> 0 ≤ Qc_of_Z n.
Proof. intros Hn. rewrite <-Z2Qc_inj_0. by apply (proj1 (Z2Qc_inj_le 0 n)). Qed.

Lemma Qcdiv_bounds a b : 0 ≤ a -> a ≤ b -> 0 ≤ a / b ∧ a / b ≤ 1.
Proof.
  intros Ha Hab. destruct (decide (b = 0)) as [->|Hb].
  - unfold Qcdiv. replace (/ 0) with 0 by (by apply Qc_is_canon).
    rewrite Qcmult_0_r. done.
  - assert (0 < b) as Hpos.
    { destruct (Qcle_lt_or_eq 0 b) as [?|?];
        [by apply Qcle_trans with a | done | congruence]. }
    pose proof (Qcinv_pos b Hpos) as Hinv. unfold Qcdiv. split.
    + apply Qcmult_nonneg_nonneg; [done | by apply Qclt_le_weak].
    + rewrite <-(Qcmult_inv_r b Hb).
      apply Qcmult_le_mono_nonneg_r; [by apply Qclt_le_weak | done].
Qed.

Lemma dice_coefficient_bounds x y v w :
  0 ≤ dice_coefficient x y v w ∧ dice_coefficient x y v w ≤ 1.
Proof.
  unfold dice_coefficient.
  destruct (instance_overlap_bounds x y v w) as [H0 H2].
  apply Qcdiv_bounds.
  - rewrite <-Z2Qc_inj_2, <-Z2Qc_inj_mul. apply Qc_of_Z_nonneg. lia.
  - rewrite <-Z2Qc_inj_2, <-Z2Qc_inj_mul. by apply (proj1 (Z2Qc_inj_le _ _)).
Qed.

#[local] Close Scope Qc_scope.

#[local] Open Scope Qc_scope.

(** ** Maxima and sums of the specification *)

Lemma is_max_proper m l l' : (∀ q, q ∈ l ↔ q ∈ l') -> is_max m l -> is_max m l'.
Proof.
  intros Hel [Hin Hub]. split; [by apply Hel|].
  intros q Hq. by apply Hub, Hel.
Qed.

Lemma is_max_cons a m l : is_max m l -> is_max (py_max2 a m) (a :: l).
Proof.
  intros [Hin Hub]. split.
  - destruct (py_max2_cases a m) as [-> | ->]; [left | by right].
  - intros q [->|Hq]%elem_of_cons; [apply py_max2_ub_l|].
    apply Qcle_trans with m; [by apply Hub | apply py_max2_ub_r].
Qed.

Lemma max_over_is_max ws f : ws ≠ [] -> is_max (max_over ws f) (map f ws).
Proof.
  destruct ws as [|w ws]; [done|]. intros _. simpl.
  induction ws as [|a ws IH]; simpl.
  - split; [left|]. by intros q ->%list_elem_of_singleton.
  - rewrite Qc_max_py_max2.
    eapply is_max_proper; [|apply is_max_cons, IH].
    intros q. rewrite !elem_of_cons. tauto.
Qed.

Lemma is_max_drop_zero m l :
  l ≠ [] -> (∀ q, q ∈ l -> 0 ≤ q) -> is_max m (0 :: l) -> is_max m l.
Proof.
  intros Hne Hpos [Hin Hub]. split; [|intros q Hq; apply Hub; by right].
  apply elem_of_cons in Hin as [->|Hin]; [|done].
  destruct l as [|q l]; [done|].
  assert (q = 0) as ->; [|left].
  apply Qcle_antisym; [apply Hub; right; left | apply Hpos; left].
Qed.

Lemma foldl_py_max2_max_over ws0 ws (f : Z -> Qc) :
  ws ≠ [] -> (∀ w, w ∈ ws0 ↔ w ∈ ws) -> (∀ w, 0 ≤ f w) ->
  foldl py_max2 0 (map f ws0) = max_over ws f.
Proof.
  intros Hne Hel Hpos.
  assert (∀ q, q ∈ map f ws0 ↔ q ∈ map f ws) as Hel'.
  { intros q. change (q ∈ f <$> ws0 ↔ q ∈ f <$> ws).
    rewrite !list_elem_of_fmap. by setoid_rewrite Hel. }
  eapply (is_max_unique _ _ (map f ws0) (map f ws) Hel').
  - apply is_max_drop_zero; [| |apply foldl_py_max2_is_max].
    + destruct ws as [|w ws]; [done|]. intros Hnil.
      assert (f w ∈ map f ws0) as Hin by (apply Hel'; left).
      rewrite Hnil in Hin. by apply elem_of_nil in Hin.
    + intros q Hq. change (q ∈ f <$> ws0) in Hq.
      apply list_elem_of_fmap in Hq as (w & -> & _). apply Hpos.
  - by apply max_over_is_max.
Qed.

Lemma foldl_Qcplus_sum_over vs (f : Z -> Qc) :
  foldl Qcplus 0 (map f vs) = sum_over vs f.
Proof.
  rewrite foldl_Qcplus_sum, Qcplus_0_l. unfold sum_over.
  induction vs as [|v vs IH]; simpl; [done | by rewrite IH].
Qed.

Lemma sum_over_perm vs vs' f : vs ≡ₚ vs' -> sum_over vs f = sum_over vs' f.
Proof.
  intros Hp. rewrite <-!foldl_Qcplus_sum_over. apply foldl_Qcplus_perm.
  change (f <$> vs ≡ₚ f <$> vs'). by rewrite Hp.
Qed.

Lemma sum_over_bounds vs f :
  (∀ v, 0 ≤ f v ∧ f v ≤ 1) ->
  0 ≤ sum_over vs f ∧ sum_over vs f ≤ Qc_of_Z (Z.of_nat (length vs)).
Proof.
  intros Hf. unfold sum_over. induction vs as [|v vs [IH0 IH1]]; simpl length; simpl foldr.
  - split; [done|]. apply Qc_of_Z_nonneg. lia.
  - destruct (Hf v) as [H0 H1]. split.
    + by apply Qcplus_nonneg_nonneg.
    + rewrite Nat2Z.inj_succ, <-Z.add_1_l, Z2Qc_inj_add, Z2Qc_inj_1.
      by apply Qcplus_le_compat.
Qed.

Lemma max_over_bounds ws f :
  (∀ w, 0 ≤ f w ∧ f w ≤ 1) -> 0 ≤ max_over ws f ∧ max_over ws f ≤ 1.
Proof.
  intros Hf. destruct (decide (ws = [])) as [->|Hne]; [done|].
  destruct (max_over_is_max ws f Hne) as [Hin _].
  change (max_over ws f ∈ f <$> ws) in Hin.
  apply list_elem_of_fmap in Hin as (w & -> & _). apply Hf.
Qed.

Lemma dice_score_spec_bounds x y vs ws :
  0 ≤ dice_score_spec x y vs ws ∧ dice_score_spec x y vs ws ≤ 1.
Proof.
  unfold dice_score_spec. apply Qcdiv_bounds; apply sum_over_bounds;
    intros v; apply max_over_bounds, dice_coefficient_bounds.
Qed.

(** ** [dice_score] on two arrays over the same pixels *)

Lemma best_match_same_extent x y ws0 ws v :
  wf_array x -> wf_array y -> same_extent x y -> v ∈ data x ->
  ws ≠ [] -> (∀ w, w ∈ ws0 ↔ w ∈ ws) ->
  best_match x y ws0 v = OK (max_over ws (dice_coefficient x y v)).
Proof.
  intros Hx Hy Hs Hv Hne Hel. rewrite best_match_mapM.
  rewrite (mapM_pure _ (dice_coefficient x y v))
    by (intros w _; by apply dice_pair_same_extent).
  simpl. f_equal. apply foldl_py_max2_max_over; [done..|].
  intros w. apply dice_coefficient_bounds.
Qed.

Lemma distinct_values_nonempty vs x : distinct_values vs x -> data x ≠ [] -> vs ≠ [].
Proof.
  intros [_ Hel] Hne ->. destruct (data x) as [|v l]; [done|].
  specialize (Hel v). rewrite elem_of_nil in Hel. apply Hel. left.
Qed.

Lemma dice_score_enumerated x y vs ws :
  wf_array x -> wf_array y -> same_extent x y -> data x ≠ [] ->
  distinct_values vs x -> distinct_values ws y ->
  dice_score x y = OK (dice_score_spec x y vs ws).
Proof.
  intros Hx Hy Hs Hne Hvs Hws.
  assert (data y ≠ []) as Hney.
  { intros Hnil. apply Hne. apply length_zero_iff_nil.
    by rewrite (same_extent_length x y), Hnil. }
  pose proof (distinct_values_nonempty _ _ Hws Hney) as Hwne.
  pose proof (distinct_values_perm _ _ _ (np_unique_distinct x) Hvs) as Hpx.
  rewrite dice_score_mapM.
  rewrite (mapM_pure _ (fun v => max_over ws (dice_coefficient x y v))); last first.
  { intros v Hv%elem_of_np_unique. apply best_match_same_extent; try done.
    intros w. rewrite elem_of_np_unique. symmetry. apply Hws. }
  simpl. rewrite decide_False; last first.
  { rewrite Hpx. intros Hlen%length_zero_iff_nil.
    by apply (distinct_values_nonempty _ _ Hvs Hne). }
  unfold dice_score_spec.
  by rewrite foldl_Qcplus_sum_over, (sum_over_perm _ _ _ Hpx), Hpx.
Qed.

Lemma same_extent_sym {A B} (a : ndarray A) (b : ndarray B) :
  same_extent a b -> same_extent b a.
Proof. unfold same_extent. by intros ->. Qed.

Lemma dice_score_returns x y :
  wf_array x -> wf_array y -> same_extent x y -> data x ≠ [] ->
  ∃ s, dice_score x y = OK s.
Proof.
  intros. eexists.
  apply (dice_score_enumerated x y (np_unique x) (np_unique y));
    auto using np_unique_distinct.
Qed.

#[local] Close Scope Qc_scope.

#[local] Open Scope Qc_scope.

(** ** The Dice scorer: main statements *)

Ltac qc_eval := apply Qc_is_canon; vm_compute; reflexivity.

(** Evaluation of a computation that returns a rational. *)
Ltac result_eval :=
  match goal with
  | |- ?l = OK ?q =>
      let r := eval vm_compute in l in
      change l with r; apply (f_equal (@OK Qc)); qc_eval
  end.

(** The same pixels under the shapes (1,2,2) and (2,2). *)
Example dice_score_leading_axis :
  dice_score (mk_ndarray [1; 2; 2]%nat [1; 1; 2; 2]%Z) stripes_gt = OK (Q2Qc (1 # 2)).
Proof. result_eval. Qed.

(** Shapes that do not broadcast raise, as in numpy. *)
Example dice_score_shape_mismatch :
  dice_score (mk_ndarray [3]%nat [1; 1; 2]%Z) stripes_gt = Error ValueError.
Proof. vm_compute. reflexivity. Qed.

(** The value of the specification's formula on the example. *)
Lemma dice_score_spec_stripes :
  dice_score_spec stripes_pred stripes_gt [2; 1]%Z [1; 2]%Z = Q2Qc (1 # 2).
Proof. qc_eval. Qed.

Lemma best_symmetric_dice_unfold pred gt :
  best_symmetric_dice pred gt
  = (s1 ← dice_score pred gt; s2 ← dice_score gt pred; OK (Qc_max s1 s2)).
Proof.
  unfold best_symmetric_dice. destruct (dice_score pred gt) as [s1|]; simpl; [|done].
  destruct (dice_score gt pred) as [s2|]; simpl; [|done].
  by rewrite Qc_max_py_max2.
Qed.

(** [best_symmetric_dice] gives the same score in both orders, or raises in
    both. *)
Lemma best_symmetric_dice_sym_score pred gt :
  score_of (best_symmetric_dice pred gt) = score_of (best_symmetric_dice gt pred).
Proof.
  unfold best_symmetric_dice.
  destruct (dice_score pred gt) as [s1|], (dice_score gt pred) as [s2|]; simpl; try done.
  by rewrite py_max2_comm.
Qed.

(** C7.  [best_symmetric_dice pred gt] is the maximum of [dice_score pred gt]
    and [dice_score gt pred]; on non-empty arrays over the same pixels both scores
    exist and the result does not depend on the order of the arguments.  The
    perfect inverse labeling scores 1 and the crossed stripes score 1/2. *)
Theorem best_symmetric_dice_max_and_symmetric :
  (∀ pred gt,
     best_symmetric_dice pred gt
     = (s1 ← dice_score pred gt; s2 ← dice_score gt pred; OK (Qc_max s1 s2)))
  ∧ (∀ pred gt,
       wf_array pred -> wf_array gt -> same_extent pred gt -> data pred ≠ [] ->
       ∃ s1 s2 m,
         dice_score pred gt = OK s1 ∧ dice_score gt pred = OK s2
         ∧ is_max m [s1; s2]
         ∧ best_symmetric_dice pred gt = OK m
         ∧ best_symmetric_dice gt pred = OK m)
  ∧ best_symmetric_dice inverse_pred inverse_gt = OK 1
  ∧ best_symmetric_dice stripes_pred stripes_gt = OK (Q2Qc (1 # 2)).
Proof.
  split; [apply best_symmetric_dice_unfold|]. split; [|split].
  - intros pred gt Hp Hg Hs Hne.
    assert (data gt ≠ []) as Hneg.
    { intros Hnil. apply Hne, length_zero_iff_nil.
      by rewrite (same_extent_length pred gt), Hnil. }
    destruct (dice_score_returns pred gt) as [s1 H1]; [done..|].
    destruct (dice_score_returns gt pred) as [s2 H2];
      [done | done | by apply same_extent_sym | done |].
    exists s1, s2, (py_max2 s1 s2). split; [done|]. split; [done|]. split; [|split].
    + eapply is_max_proper; [|apply (foldl_py_max2_is_max s1 [s2])]. done.
    + unfold best_symmetric_dice. by rewrite H1, H2.
    + unfold best_symmetric_dice. rewrite H1, H2. simpl. by rewrite py_max2_comm.
  - result_eval.
  - result_eval.
Qed.

Lemma best_symmetric_dice_max_and_symmetric_witness :
  ∃ s1 s2 m,
    dice_score inverse_pred inverse_gt = OK s1
    ∧ dice_score inverse_gt inverse_pred = OK s2
    ∧ is_max m [s1; s2]
    ∧ best_symmetric_dice inverse_pred inverse_gt = OK m
    ∧ best_symmetric_dice inverse_gt inverse_pred = OK m.
Proof.
  apply (proj1 (proj2 best_symmetric_dice_max_and_symmetric) inverse_pred inverse_gt).
  - reflexivity.
  - reflexivity.
  - reflexivity.
  - discriminate.
Defined.

Lemma Zsucc_inj : Inj (=) (=) Z.succ.
Proof. intros a b. lia. Qed.
Lemma Zopp_inj : Inj (=) (=) Z.opp.
Proof. intros a b. lia. Qed.

#[local] Close Scope Qc_scope.

(** ** The Label Predictor *)

Lemma bind_singleton_map {A B} (h : A -> B) (l : list A) :
  (l ≫= fun a => [h a]) = map h l.
Proof. induction l as [|a l IH]; [done|]. rewrite bind_cons, IH. done. Qed.

Lemma bind_rows_lookup {A B} (F : A -> list B) (n1 : nat) l i j :
  (∀ a, length (F a) = n1) -> (j < n1)%nat ->
  (l ≫= F) !! (i * n1 + j)%nat = (l !! i) ≫= fun a => F a !! j.
Proof.
  intros Hlen Hj. revert i. induction l as [|a l IH]; intros i.
  - by rewrite lookup_nil.
  - rewrite bind_cons. destruct i as [|i]; simpl.
    + rewrite lookup_app_l by (rewrite Hlen; lia). done.
    + rewrite lookup_app_r by (rewrite Hlen; lia).
      rewrite Hlen. replace (n1 + i * n1 + j - n1)%nat with (i * n1 + j)%nat by lia.
      apply IH.
Qed.

Lemma tabulate2_lookup {A} (n0 n1 : nat) (g : nat -> nat -> A) i j :
  (i < n0)%nat -> (j < n1)%nat ->
  tabulate2 n0 n1 g !! (i * n1 + j)%nat = Some (g i j).
Proof.
  intros Hi Hj. unfold tabulate2.
  rewrite (bind_rows_lookup _ n1) by
    (try done; intros a; by rewrite bind_singleton_map, length_map, length_seq).
  rewrite lookup_seq_lt by done. simpl.
  rewrite bind_singleton_map. change (map (g i) (seq 0 n1)) with (g i <$> seq 0 n1).
  rewrite list_lookup_fmap, lookup_seq_lt by done. done.
Qed.

Lemma bind_rows_length {A B} (F : A -> list B) (n1 : nat) l :
  (∀ a, length (F a) = n1) -> length (l ≫= F) = (length l * n1)%nat.
Proof.
  intros Hlen. induction l as [|a l IH]; [done|].
  rewrite bind_cons, length_app, IH, Hlen. simpl. lia.
Qed.

Lemma tabulate2_length {A} (n0 n1 : nat) (g : nat -> nat -> A) :
  length (tabulate2 n0 n1 g) = (n0 * n1)%nat.
Proof.
  unfold tabulate2. rewrite (bind_rows_length _ n1), length_seq; [done|].
  intros a. by rewrite bind_singleton_map, length_map, length_seq.
Qed.

Lemma tabulate2_Forall {A} (P : A -> Prop) (n0 n1 : nat) (g : nat -> nat -> A) :
  (∀ i j, P (g i j)) -> Forall P (tabulate2 n0 n1 g).
Proof.
  intros Hg. unfold tabulate2. apply Forall_forall. intros a Ha.
  apply list_elem_of_bind in Ha as (i & Ha & _).
  apply list_elem_of_bind in Ha as (j & Ha & _).
  apply list_elem_of_singleton in Ha as ->. apply Hg.
Qed.

Lemma lookup_total_Forall `{Inhabited A} (P : A -> Prop) (l : list A) i :
  P inhabitant -> Forall P l -> P (l !!! i).
Proof.
  intros Hd Hl. rewrite list_lookup_total_alt.
  destruct (l !! i) as [a|] eqn:Hi; simpl; [|done].
  rewrite Forall_forall in Hl. apply Hl. by eapply list_elem_of_lookup_2.
Qed.

Lemma to_int32_small z : -2 ^ 31 ≤ z < 2 ^ 31 -> to_int32 z = z.
Proof. intros Hz. unfold to_int32. rewrite Z.mod_small; lia. Qed.

Lemma float_to_int32_small z : -2 ^ 31 ≤ z < 2 ^ 31 -> float_to_int32 z = z.
Proof.
  intros Hz. unfold float_to_int32.
  destruct (Z.leb_spec (- 2 ^ 31) z); [|lia].
  destruct (Z.ltb_spec z (2 ^ 31)); [done|lia].
Qed.

Lemma ceil_div_exact (n f : nat) :
  f ≠ 0%nat -> (f | n)%nat -> (ceil_div n f * f)%nat = n.
Proof.
  intros Hf [k ->]. unfold ceil_div.
  replace (k * f + f - 1)%nat with ((f - 1) + k * f)%nat by lia.
  rewrite Nat.div_add by done. rewrite Nat.div_small by lia. lia.
Qed.

Lemma ceil_div_ge (n f : nat) : f ≠ 0%nat -> (n ≤ ceil_div n f * f)%nat.
Proof.
  intros Hf. unfold ceil_div.
  pose proof (Nat.div_mod_eq (n + f - 1) f).
  pose proof (Nat.mod_upper_bound (n + f - 1) f Hf). lia.
Qed.

Section PredictorFacts.
Context `{Postproc}.

(** What a successful run of [predict_label] went through. *)
Lemma predict_label_inv features f mask :
  predict_label features f = OK mask ->
  ∃ c h w pts reduced raw,
    shape features = [c; h; w] ∧ f ≠ 0%nat
    ∧ length pts = (ceil_div h f * ceil_div w f)%nat
    ∧ pca_fit_transform 10 pts = OK reduced
    ∧ hdbscan_fit_predict reduced = OK raw
    ∧ length raw = (ceil_div h f * ceil_div w f)%nat
    ∧ ceil_div h f ≠ 0%nat ∧ ceil_div w f ≠ 0%nat
    ∧ mask = np_map float_to_int32
               (mk_ndarray [(ceil_div h f * f)%nat; (ceil_div w f * f)%nat]
                  (tabulate2 (ceil_div h f * f) (ceil_div w f * f) (fun r c =>
                     map (fun l => if l =? -1 then 0 else l) raw
                       !!! ((r / f) * ceil_div w f + c / f)%nat))).
Proof.
  unfold predict_label, np_transpose_120, shape3.
  destruct (shape features) as [|c [|h [|w [|? ?]]]] eqn:Hs; try discriminate.
  simpl. unfold block_reduce_max, shape3. simpl.
  case_decide as Hf; [discriminate|]. simpl.
  unfold reduce, cluster_features.
  set (pts := reshape_rows _ _ _).
  destruct (pca_fit_transform 10 pts) as [reduced|] eqn:Hpca; [|discriminate].
  simpl. destruct (hdbscan_fit_predict reduced) as [raw|] eqn:Hcl; [|discriminate].
  simpl. unfold np_reshape2. case_decide as Hlen; [|discriminate].
  simpl. unfold rescale_order0. simpl.
  case_decide as Hempty; [discriminate|]. simpl. intros [= <-].
  exists c, h, w, pts, reduced, raw. repeat split; try done.
  - unfold pts, reshape_rows. by rewrite length_map, length_seq.
  - by rewrite length_map in Hlen.
  - intros E. apply Hempty. by left.
  - intros E. apply Hempty. by right.
Qed.

Lemma predict_label_shape features f mask c h w :
  shape features = [c; h; w] ->
  predict_label features f = OK mask ->
  shape mask = [(ceil_div h f * f)%nat; (ceil_div w f * f)%nat]
  ∧ wf_array mask.
Proof.
  intros Hs Hrun.
  apply predict_label_inv in Hrun
    as (c' & h' & w' & pts & red & raw & Hs' & _ & _ & _ & _ & _ & _ & _ & ->).
  rewrite Hs in Hs'. injection Hs' as <- <- <-.
  split; [done|]. unfold wf_array. simpl.
  rewrite length_map, tabulate2_length. unfold prod_shape. simpl. lia.
Qed.

(** When the library calls succeed, HDBSCAN labels every point and the
    feature map has no empty side, [predict_label] returns. *)
Lemma predict_label_returns features f c h w :
  shape features = [c; h; w] -> f ≠ 0%nat -> h ≠ 0%nat -> w ≠ 0%nat ->
  (∀ pts, ∃ reduced, pca_fit_transform 10 pts = OK reduced
                     ∧ length reduced = length pts) ->
  (∀ pts, ∃ raw, hdbscan_fit_predict pts = OK raw ∧ length raw = length pts) ->
  ∃ mask, predict_label features f = OK mask.
Proof.
  intros Hs Hf Hh Hw Hpca Hcl.
  pose proof (ceil_div_ge h f Hf) as Hch. pose proof (ceil_div_ge w f Hf) as Hcw.
  unfold predict_label, np_transpose_120, shape3. rewrite Hs. simpl.
  unfold block_reduce_max, shape3. simpl. rewrite decide_False by done. simpl.
  unfold reduce, cluster_features.
  set (pts := reshape_rows _ _ _).
  destruct (Hpca pts) as (reduced & -> & Hl1). simpl.
  destruct (Hcl reduced) as (raw & -> & Hl2). simpl.
  unfold np_reshape2. rewrite decide_True.
  - simpl. unfold rescale_order0. simpl.
    rewrite decide_False by (intros [E|E]; rewrite E in *; lia).
    simpl. eauto.
  - rewrite length_map, Hl2, Hl1. unfold pts, reshape_rows.
    by rewrite length_map, length_seq.
Qed.

Lemma cluster_features_noise pts labels :
  cluster_features pts = OK labels ->
  ∃ raw, hdbscan_fit_predict pts = OK raw
         ∧ length labels = length raw
         ∧ ∀ p l, raw !! p = Some l ->
                  labels !! p = Some (if l =? -1 then 0 else l).
Proof.
  unfold cluster_features.
  destruct (hdbscan_fit_predict pts) as [raw|]; [|discriminate].
  simpl. intros [= <-]. exists raw. split; [done|]. split; [by rewrite length_map|].
  intros p l Hp. change (map ?f raw) with (f <$> raw).
  by rewrite list_lookup_fmap, Hp.
Qed.
End PredictorFacts.

(** On a feature map whose sides are multiples of the factor, the mask has the
    size of the feature map. *)
Lemma predict_label_shape_divisible `{Postproc} features f mask c h w :
  shape features = [c; h; w] -> (f | h)%nat -> (f | w)%nat ->
  predict_label features f = OK mask ->
  shape mask = [h; w].
Proof.
  intros Hs Hh Hw Hrun.
  pose proof (predict_label_inv _ _ _ Hrun) as (? & ? & ? & ? & ? & ? & _ & Hf & _).
  apply (predict_label_shape _ _ _ c h w Hs) in Hrun as [-> _].
  by rewrite !ceil_div_exact.
Qed.

(** C3.  On a 3 x 3 feature map with downsample factor 2 the returned mask is
    4 x 4: [block_reduce] pads the map to 4 x 4 before pooling and [rescale]
    doubles the pooled 2 x 2 mask. *)
Theorem predict_label_odd_size_grows :
  shape features_1x3x3 = [1; 3; 3]%nat
  ∧ ∃ mask, @predict_label toy_postproc features_1x3x3 2 = OK mask
            ∧ shape mask = [4; 4]%nat.
Proof. split; [done|]. eexists. split; [vm_compute; reflexivity | done]. Qed.

(** C8.  When HDBSCAN returns labels from -1 (noise) upwards that fit 32 bits,
    every entry of the mask returned by [predict_label] is non-negative; the
    pixel (r, c) of the mask carries 0 when the clusterer marked its source
    point (r / f, c / f) as noise, and the label of that point otherwise. *)
Theorem predict_label_mask_nonneg `{Postproc} (features : ndarray Qc) (f : nat)
    (mask : ndarray Z) :
  (∀ pts raw, hdbscan_fit_predict pts = OK raw ->
              Forall (fun l => -1 ≤ l < 2 ^ 31) raw) ->
  predict_label features f = OK mask ->
  Forall (fun v => 0 ≤ v) (data mask)
  ∧ ∃ (h' w' : nat) reduced raw,
      hdbscan_fit_predict reduced = OK raw
      ∧ shape mask = [(h' * f)%nat; (w' * f)%nat]
      ∧ ∀ r c, (r < h' * f)%nat -> (c < w' * f)%nat ->
          data mask !! (r * (w' * f) + c)%nat
          = Some (let l := raw !!! (r / f * w' + c / f)%nat in
                  if l =? -1 then 0 else l).
Proof.
  intros Hrange Hrun.
  apply predict_label_inv in Hrun
    as (c & h & w & pts & reduced & raw & Hs & Hf & _ & _ & Hcl & Hlen & _ & _ & ->).
  pose proof (Hrange _ _ Hcl) as Hraw.
  set (labels := map (fun l => if l =? -1 then 0 else l) raw).
  assert (Forall (fun l => 0 ≤ l < 2 ^ 31) labels) as Hlabels.
  { unfold labels. apply Forall_forall. intros l Hl.
    change (l ∈ (fun l => if l =? -1 then 0 else l) <$> raw) in Hl.
    apply list_elem_of_fmap in Hl as (l0 & -> & Hl0).
    rewrite Forall_forall in Hraw. specialize (Hraw l0 Hl0).
    destruct (Z.eqb_spec l0 (-1)); lia. }
  assert (∀ i, 0 ≤ labels !!! i < 2 ^ 31) as Hget.
  { intros i. apply (lookup_total_Forall (fun l => 0 ≤ l < 2 ^ 31)); [|done].
    change (0 ≤ 1 < 2 ^ 31). lia. }
  split.
  - simpl. change (map float_to_int32 ?l) with (float_to_int32 <$> l).
    apply Forall_fmap, tabulate2_Forall. intros r c'. simpl.
    rewrite float_to_int32_small; specialize (Hget (r / f * ceil_div w f + c' / f)%nat); lia.
  - exists (ceil_div h f), (ceil_div w f), reduced, raw.
    split; [done|]. split; [done|]. intros r c' Hr Hc. simpl.
    change (map float_to_int32 ?l) with (float_to_int32 <$> l).
    rewrite list_lookup_fmap, tabulate2_lookup by done. simpl. f_equal.
    rewrite float_to_int32_small by (specialize (Hget (r / f * ceil_div w f + c' / f)%nat); lia).
    unfold labels. change (map ?g raw) with (g <$> raw).
    rewrite (list_lookup_total_fmap (fun l => if l =? -1 then 0 else l) raw); [done|].
    rewrite Hlen.
    assert (r / f < ceil_div h f)%nat by (apply Nat.Div0.div_lt_upper_bound; lia).
    assert (c' / f < ceil_div w f)%nat by (apply Nat.Div0.div_lt_upper_bound; lia).
    nia.
Qed.

Lemma toy_postproc_labels pts raw :
  @hdbscan_fit_predict toy_postproc pts = OK raw ->
  Forall (fun l => -1 ≤ l < 2 ^ 31) raw.
Proof.
  simpl. intros [= <-]. apply Forall_forall. intros l Hl.
  change (l ∈ (fun p : list Qc => match p with
                     | q :: _ => if Qc_ltb q (Qc_of_Z 5) then -1 else 1
                     | [] => -1
                     end) <$> pts) in Hl.
  apply list_elem_of_fmap in Hl as (p & -> & _).
  destruct p as [|q p]; [lia|]. destruct (Qc_ltb q (Qc_of_Z 5)); lia.
Qed.

Lemma predict_label_mask_nonneg_witness :
  Forall (fun v => 0 ≤ v)
    (data (mk_ndarray [3; 3]%nat [0; 0; 0; 0; 1; 1; 1; 1; 1]))
  ∧ ∃ (h' w' : nat) reduced raw,
      @hdbscan_fit_predict toy_postproc reduced = OK raw
      ∧ shape (mk_ndarray [3; 3]%nat [0; 0; 0; 0; 1; 1; 1; 1; 1])
        = [(h' * 1)%nat; (w' * 1)%nat]
      ∧ ∀ r c, (r < h' * 1)%nat -> (c < w' * 1)%nat ->
          data (mk_ndarray [3; 3]%nat [0; 0; 0; 0; 1; 1; 1; 1; 1])
            !! (r * (w' * 1) + c)%nat
          = Some (let l := raw !!! (r / 1 * w' + c / 1)%nat in
                  if l =? -1 then 0 else l).
Proof.
  apply (@predict_label_mask_nonneg toy_postproc features_1x3x3 1).
  - exact toy_postproc_labels.
  - vm_compute. reflexivity.
Defined.

(** ** The Evaluator *)

Lemma np_true_divide_nonzero a b :
  b ≠ 0%Qc -> np_true_divide a b = Finite (a / b)%Qc.
Proof. intros Hb. unfold np_true_divide. by rewrite decide_False. Qed.

Lemma np_true_divide_pos_zero a : (0 < a)%Qc -> np_true_divide a 0%Qc = PosInf.
Proof.
  intros Ha. unfold np_true_divide. rewrite decide_True by done.
  apply Qc_ltb_lt in Ha. by rewrite Ha.
Qed.

Section EvaluatorFacts.
Context `{Postproc, Network}.

(** The sums are divided by the index of the last batch. *)
Lemma evaluate_model_last_index dataloader running_loss running_dice :
  dataloader ≠ [] ->
  for_each evaluate_step (0%Qc, 0%Qc) dataloader = OK (running_loss, running_dice) ->
  evaluate_model dataloader
  = OK (np_true_divide running_loss (Qc_of_Z (Z.of_nat (length dataloader) - 1)),
        np_true_divide running_dice (Qc_of_Z (Z.of_nat (length dataloader) - 1))).
Proof.
  intros Hne Hrun. unfold evaluate_model. rewrite Hrun. simpl.
  destruct dataloader; [done|]. reflexivity.
Qed.
End EvaluatorFacts.

Lemma toy_batch_step running_loss running_dice :
  @evaluate_step toy_postproc toy_network (running_loss, running_dice) toy_batch
  = OK (running_loss + Q2Qc (1 # 2), running_dice + 1)%Qc.
Proof.
  unfold evaluate_step. simpl.
  replace (@predict_label toy_postproc features_1x2x2 2)
    with (OK (of_rows [[1; 1]; [1; 1]])) by (vm_compute; reflexivity).
  simpl.
  replace (best_symmetric_dice (of_rows [[1; 1]; [1; 1]]) (of_rows [[7; 7]; [7; 7]]))
    with (OK 1%Qc); [done|].
  symmetry. result_eval.
Qed.

(** C1.  With one batch of loss 1/2 and Dice 1, [evaluate_model] divides both
    sums by 0 and returns infinities; with two such batches it divides by 1
    and returns the sums 1 and 2. *)
Theorem evaluate_model_divides_by_last_index :
  @evaluate_model toy_postproc toy_network [toy_batch] = OK (PosInf, PosInf)
  ∧ @evaluate_model toy_postproc toy_network [toy_batch; toy_batch]
    = OK (Finite 1%Qc, Finite 2%Qc).
Proof.
  assert (∀ s a l, for_each (@evaluate_step toy_postproc toy_network) s (a :: l)
                   = (s' ← evaluate_step s a; for_each evaluate_step s' l))
    as Hcons by reflexivity.
  split.
  - rewrite (evaluate_model_last_index _ (Q2Qc (1 # 2)) 1%Qc); [|done|].
    + change (Qc_of_Z (Z.of_nat (length [toy_batch]) - 1)) with (Qc_of_Z 0).
      rewrite Z2Qc_inj_0, !np_true_divide_pos_zero; done.
    + rewrite Hcons, (bind_OK _ _ _ (toy_batch_step _ _)).
      change (for_each _ ?s []) with (OK s). do 2 f_equal; qc_eval.
  - rewrite (evaluate_model_last_index _ 1%Qc 2%Qc); [|done|].
    + change (Qc_of_Z (Z.of_nat (length [toy_batch; toy_batch]) - 1)) with (Qc_of_Z 1).
      rewrite Z2Qc_inj_1, !np_true_divide_nonzero by done.
      do 3 f_equal; qc_eval.
    + rewrite Hcons, (bind_OK _ _ _ (toy_batch_step _ _)).
      rewrite Hcons, (bind_OK _ _ _ (toy_batch_step _ _)).
      change (for_each _ ?s []) with (OK s). do 2 f_equal; qc_eval.
Qed.

(** ** The Sample Provider *)

Lemma split_newline_line l rest :
  has_newline l = false ->
  split_newline (l +:+ String newline rest) = l :: split_newline rest.
Proof.
  induction l as [|c l IH]; simpl; intros Hl.
  - done.
  - apply orb_false_iff in Hl as [Hc Hl]. apply bool_decide_eq_false in Hc.
    rewrite decide_False by done.
    change (String.append l (String newline rest)) with (l +:+ String newline rest).
    by rewrite IH.
Qed.

Lemma split_newline_unlines lines :
  Forall (fun l => has_newline l = false) lines ->
  split_newline (unlines lines) = lines ++ [EmptyString].
Proof.
  induction 1 as [|l lines Hl _ IH]; simpl; [done|].
  by rewrite split_newline_line, IH.
Qed.

Lemma nonempty_lines_unlines lines :
  Forall (fun l => has_newline l = false) lines ->
  nonempty_lines (unlines lines) = filter (fun l => l ≠ EmptyString) lines.
Proof.
  intros Hl. unfold nonempty_lines. rewrite split_newline_unlines by done.
  rewrite filter_app, filter_cons_False, filter_nil by (intros Hne; by apply Hne).
  by rewrite app_nil_r.
Qed.

Lemma filter_all {A} (P : A -> Prop) `{∀ a, Decision (P a)} (l : list A) :
  Forall P l -> filter P l = l.
Proof.
  induction 1 as [|a l Ha _ IH]; [done|]. by rewrite filter_cons_True, IH.
Qed.

Section ProviderFacts.
Context `{Imaging}.

Lemma read_ids_unlines (fs : filesystem) path lines :
  Forall (fun l => has_newline l = false) lines ->
  fs path = Some (TextFile (unlines lines)) ->
  read_ids fs path = OK lines.
Proof.
  intros Hl Hfile. unfold read_ids, read_text. rewrite Hfile. simpl.
  by rewrite split_newline_unlines, removelast_last.
Qed.

(** The number of identifiers is the number of newline characters. *)
Lemma read_ids_length (fs : filesystem) path content ids :
  fs path = Some (TextFile content) ->
  read_ids fs path = OK ids ->
  S (length ids) = length (split_newline content).
Proof.
  intros Hfile. unfold read_ids, read_text. rewrite Hfile. simpl. intros [= <-].
  assert (split_newline content ≠ []) as Hne by (destruct content; simpl;
    [done | case_decide; [done | by destruct (split_newline content)]]).
  destruct (exists_last Hne) as (l & a & ->).
  rewrite removelast_last, length_app. simpl. lia.
Qed.
End ProviderFacts.

(** C4 (as stated): the identifier file with the lines a, an empty line and b
    has two non-empty lines, and each of the two providers reports length 3. *)
Lemma dataset_length_blank_line_counterexample :
  ¬ (∀ (I : Imaging) (fs : @filesystem I) data_path labels_path ids_file_path
       content ds,
       fs ids_file_path = Some (TextFile content) ->
       coco224_init fs data_path labels_path ids_file_path = OK ds ->
       coco224_len ds = length (nonempty_lines content))
  ∧ ¬ (∀ (I : Imaging) (fs : @filesystem I) data_path labels_path ids_file_path
         content h w ev ds,
         fs ids_file_path = Some (TextFile content) ->
         VOC_init fs data_path labels_path ids_file_path h w ev = OK ds ->
         VOC_len ds = length (nonempty_lines content)).
Proof.
  split; intros Hall.
  - specialize (Hall toy_imaging toy_fs "img/" "lab/" "blank.txt"
                  (unlines ["a"; EmptyString; "b"])
                  (mk_coco224Dataset ["a"; EmptyString; "b"] "img/" "lab/")
                  eq_refl eq_refl).
    vm_compute in Hall. discriminate.
  - specialize (Hall toy_imaging toy_fs "img/" "lab/" "blank.txt"
                  (unlines ["a"; EmptyString; "b"]) 224 224 false
                  (mk_VOCDataset ["a"; EmptyString; "b"] "img/" "lab/" 224 224 false)
                  eq_refl eq_refl).
    vm_compute in Hall. discriminate.
Qed.

(** C4 (amended).  For an identifier file made of newline-terminated lines,
    both providers hold exactly these lines and report their number, empty
    lines included; when no line is empty this is the number of non-empty
    lines of the file. *)
Theorem dataset_length_counts_lines `{Imaging} (fs : filesystem)
    (data_path labels_path ids_file_path : string) (lines : list string) :
  Forall (fun l => has_newline l = false) lines ->
  fs ids_file_path = Some (TextFile (unlines lines)) ->
  (∃ ds, coco224_init fs data_path labels_path ids_file_path = OK ds
         ∧ coco_ids ds = lines ∧ coco224_len ds = length lines)
  ∧ (∀ h w ev, ∃ ds, VOC_init fs data_path labels_path ids_file_path h w ev = OK ds
                     ∧ voc_ids ds = lines ∧ VOC_len ds = length lines)
  ∧ (Forall (fun l => l ≠ EmptyString) lines ->
     length (nonempty_lines (unlines lines)) = length lines).
Proof.
  intros Hl Hfile. pose proof (read_ids_unlines fs _ _ Hl Hfile) as Hids.
  split; [|split].
  - unfold coco224_init. rewrite Hids. simpl. eauto.
  - intros h w ev. unfold VOC_init. rewrite Hids. simpl. eauto.
  - intros Hne. by rewrite nonempty_lines_unlines, filter_all.
Qed.

Lemma dataset_length_counts_lines_witness :
  (∃ ds, @coco224_init toy_imaging toy_fs "img/" "lab/" "blank.txt" = OK ds
         ∧ coco_ids ds = ["a"; EmptyString; "b"] ∧ coco224_len ds = 3%nat)
  ∧ (∀ h w ev, ∃ ds, @VOC_init toy_imaging toy_fs "img/" "lab/" "blank.txt" h w ev = OK ds
                     ∧ voc_ids ds = ["a"; EmptyString; "b"] ∧ VOC_len ds = 3%nat)
  ∧ (Forall (fun l => l ≠ EmptyString) ["a"; EmptyString; "b"] ->
     length (nonempty_lines (unlines ["a"; EmptyString; "b"])) = 3%nat).
Proof.
  apply (@dataset_length_counts_lines toy_imaging toy_fs "img/" "lab/" "blank.txt"
           ["a"; EmptyString; "b"]).
  - repeat constructor.
  - reflexivity.
Defined.

(** *** Indexing *)


Lemma py_index_in_range {A} (l : list A) (i : Z) :
  0 ≤ i < Z.of_nat (length l) ->
  ∃ a, l !! Z.to_nat i = Some a ∧ py_index l i = OK a.
Proof.
  intros Hi. unfold py_index.
  destruct (Z.ltb_spec i 0); [lia|].
  destruct (Z.leb_spec 0 i); [|lia]. destruct (Z.ltb_spec i (Z.of_nat (length l))); [|lia].
  simpl. destruct (lookup_lt_is_Some_2 l (Z.to_nat i)) as [a Ha]; [lia|].
  rewrite Ha. eauto.
Qed.





#[local] Open Scope Qc_scope.

(** ** Floating point rounding *)

(** Goals on canonical rationals, read on the rationals they stand for. *)
Lemma this_plus (a b : Qc) : (this (a + b) == this a + this b)%Q.
Proof. apply Qred_correct. Qed.
Lemma this_mult (a b : Qc) : (this (a * b) == this a * this b)%Q.
Proof. apply Qred_correct. Qed.
Lemma this_opp (a : Qc) : (this (- a) == - this a)%Q.
Proof. apply Qred_correct. Qed.
Lemma this_minus (a b : Qc) : (this (a - b) == this a - this b)%Q.
Proof. unfold Qcminus. rewrite this_plus, this_opp. reflexivity. Qed.
Lemma this_inv (a : Qc) : (this (/ a) == / this a)%Q.
Proof. apply Qred_correct. Qed.
Lemma this_div (a b : Qc) : (this (a / b) == this a / this b)%Q.
Proof. unfold Qcdiv. rewrite this_mult, this_inv. reflexivity. Qed.
Lemma this_of_Z (z : Z) : (this (Qc_of_Z z) == inject_Z z)%Q.
Proof. reflexivity. Qed.
Lemma this_Q2Qc (q : Q) : (this (Q2Qc q) == q)%Q.
Proof. apply Qred_correct. Qed.

Ltac to_Q :=
  repeat match goal with
  | H : @eq Qc _ _ |- _ => apply Qc_is_canon
  end;
  unfold Qcle, Qclt in *;
  repeat match goal with
  | H : @eq Qc ?a ?b |- _ =>
      let H' := fresh in
      assert (this a == this b)%Q as H' by (rewrite H; reflexivity); clear H
  end;
  try apply Qc_is_canon;
  do 4 rewrite ?this_plus, ?this_mult, ?this_opp, ?this_minus, ?this_div, ?this_inv,
               ?this_of_Z, ?this_Q2Qc in *.

Lemma inject_Z_succ z : (inject_Z (z + 1) == inject_Z z + 1)%Q.
Proof. rewrite inject_Z_plus. reflexivity. Qed.

Lemma Qc_of_Z_mono a b : (a ≤ b)%Z -> Qc_of_Z a ≤ Qc_of_Z b.
Proof. apply Z2Qc_inj_le. Qed.

Lemma Qc_of_Z_mono_inv a b : Qc_of_Z a ≤ Qc_of_Z b -> (a ≤ b)%Z.
Proof. apply Z2Qc_inj_le. Qed.

Lemma Qc_of_Z_smono a b : (a < b)%Z -> Qc_of_Z a < Qc_of_Z b.
Proof. apply Z2Qc_inj_lt. Qed.

Lemma Qc_of_Z_smono_inv a b : Qc_of_Z a < Qc_of_Z b -> (a < b)%Z.
Proof. apply Z2Qc_inj_lt. Qed.

Lemma Qc_pos_neq_0 (a : Qc) : 0 < a -> a ≠ 0.
Proof. intros Ha ->. by apply (Qclt_not_eq 0 0) in Ha. Qed.

Lemma Qcdiv_mul_cancel (q p : Qc) : p ≠ 0 -> q / p * p = q.
Proof. intros Hp. rewrite Qcmult_comm. by apply Qcmult_div_r. Qed.

(** *** Powers of two *)

Lemma Qc_of_Z_pow2_pos k : (0 ≤ k)%Z -> 0 < Qc_of_Z (2 ^ k).
Proof.
  intros Hk. rewrite <-Z2Qc_inj_0. apply Qc_of_Z_smono.
  by apply Z.pow_pos_nonneg.
Qed.

Lemma pow2_nonneg_exp k : (0 ≤ k)%Z -> pow2 k = Qc_of_Z (2 ^ k).
Proof. intros Hk. unfold pow2. by destruct (Z.leb_spec 0 k); [|lia]. Qed.

Lemma pow2_neg_exp k : (k < 0)%Z -> pow2 k = / Qc_of_Z (2 ^ (- k)).
Proof. intros Hk. unfold pow2. by destruct (Z.leb_spec 0 k); [lia|]. Qed.

Lemma pow2_pos k : 0 < pow2 k.
Proof.
  destruct (Z.leb_spec 0 k).
  - rewrite pow2_nonneg_exp by done. by apply Qc_of_Z_pow2_pos.
  - rewrite pow2_neg_exp by done. apply Qcinv_pos, Qc_of_Z_pow2_pos. lia.
Qed.

Lemma pow2_succ k : pow2 (k + 1) = 2 * pow2 k.
Proof.
  destruct (Z.leb_spec 0 k) as [Hk|Hk].
  - rewrite !pow2_nonneg_exp by lia.
    rewrite Z.pow_add_r by lia. by rewrite Z2Qc_inj_mul, Qcmult_comm.
  - destruct (decide (k = -1)%Z) as [->|Hk1]; [by apply Qc_is_canon|].
    rewrite !pow2_neg_exp by lia.
    replace (- k)%Z with (- (k + 1) + 1)%Z by lia.
    rewrite Z.pow_add_r by lia. rewrite Z2Qc_inj_mul.
    pose proof (Qc_pos_neq_0 _ (Qc_of_Z_pow2_pos (- (k + 1)) ltac:(lia))).
    change (2 ^ 1)%Z with 2%Z; rewrite Z2Qc_inj_2. field. by split.
Qed.

Lemma pow2_add_nonneg u k : (0 ≤ k)%Z -> pow2 (u + k) = Qc_of_Z (2 ^ k) * pow2 u.
Proof.
  intros Hk. revert k Hk. apply natlike_ind.
  - rewrite Z.add_0_r. change (2 ^ 0)%Z with 1%Z; rewrite Z2Qc_inj_1. ring.
  - intros k Hk IH. unfold Z.succ. rewrite Z.add_assoc, pow2_succ, IH.
    rewrite Z.pow_add_r, Z2Qc_inj_mul by lia. change (2 ^ 1)%Z with 2%Z; rewrite Z2Qc_inj_2. ring.
Qed.

Lemma pow2_add a b : pow2 (a + b) = pow2 a * pow2 b.
Proof.
  destruct (Z.leb_spec 0 b) as [Hb|Hb].
  - rewrite pow2_add_nonneg, (pow2_nonneg_exp b) by done. ring.
  - rewrite (pow2_neg_exp b) by done.
    replace a with ((a + b) + (- b))%Z at 2 by lia.
    rewrite (pow2_add_nonneg (a + b) (- b)) by lia.
    pose proof (Qc_pos_neq_0 _ (Qc_of_Z_pow2_pos (- b) ltac:(lia))).
    by field.
Qed.

Lemma pow2_le a b : (a ≤ b)%Z -> pow2 a ≤ pow2 b.
Proof.
  intros Hab. replace b with (a + (b - a))%Z by lia.
  rewrite pow2_add_nonneg by lia.
  pose proof (pow2_pos a) as Hp.
  assert (1 ≤ Qc_of_Z (2 ^ (b - a))) as H1.
  { rewrite <-Z2Qc_inj_1. apply Qc_of_Z_mono.
    pose proof (Z.pow_pos_nonneg 2 (b - a)). lia. }
  to_Q. nra.
Qed.

(** *** Rounding to an integer *)

Lemma Qc_floor_le s : Qc_of_Z (Qc_floor s) ≤ s.
Proof.
  unfold Qcle, Qle, Qc_floor. simpl. rewrite Z.mul_1_r, Z.mul_comm.
  apply Z.mul_div_le. lia.
Qed.

Lemma Qc_floor_lt s : s < Qc_of_Z (Qc_floor s + 1).
Proof.
  unfold Qclt, Qlt, Qc_floor. simpl. rewrite Z.mul_1_r, Z.mul_comm.
  apply Z.mul_succ_div_gt. lia.
Qed.

Lemma round_half_even_cases s :
  (round_half_even s = Qc_floor s ∧ s - Qc_of_Z (Qc_floor s) ≤ Q2Qc (1 # 2))
  ∨ (round_half_even s = (Qc_floor s + 1)%Z ∧ Q2Qc (1 # 2) ≤ s - Qc_of_Z (Qc_floor s)).
Proof.
  unfold round_half_even.
  destruct (s - Qc_of_Z (Qc_floor s) ?= Q2Qc (1 # 2)) eqn:E.
  - apply Qceq_alt in E. rewrite E.
    destruct (Z.even (Qc_floor s)); [left | right]; (split; [done | apply Qcle_refl]).
  - apply Qclt_alt in E. left. split; [done | by apply Qclt_le_weak].
  - apply Qcgt_alt in E. right. split; [done | by apply Qclt_le_weak].
Qed.

Lemma round_half_even_near s :
  s - Q2Qc (1 # 2) ≤ Qc_of_Z (round_half_even s)
  ∧ Qc_of_Z (round_half_even s) ≤ s + Q2Qc (1 # 2).
Proof.
  pose proof (Qc_floor_le s) as Hle. pose proof (Qc_floor_lt s) as Hlt.
  destruct (round_half_even_cases s) as [[-> H]|[-> H]];
    to_Q; rewrite ?inject_Z_succ in *; lra.
Qed.

Lemma round_half_even_le_int s n : s ≤ Qc_of_Z n -> (round_half_even s ≤ n)%Z.
Proof.
  intros Hs. pose proof (Qc_floor_le s) as Hle.
  destruct (round_half_even_cases s) as [[-> H]|[-> H]].
  - apply Qc_of_Z_mono_inv. by apply Qcle_trans with s.
  - assert (Qc_of_Z (Qc_floor s) < Qc_of_Z n) as Hlt%Qc_of_Z_smono_inv; [|lia].
    to_Q. lra.
Qed.

Lemma round_half_even_ge_int s n : Qc_of_Z n ≤ s -> (n ≤ round_half_even s)%Z.
Proof.
  intros Hs. pose proof (Qc_floor_lt s) as Hlt.
  assert (Qc_of_Z n < Qc_of_Z (Qc_floor s + 1)) as Hn%Qc_of_Z_smono_inv
    by (by apply Qcle_lt_trans with s).
  destruct (round_half_even_cases s) as [[-> _]|[-> _]]; lia.
Qed.

Lemma round_half_even_int n : round_half_even (Qc_of_Z n) = n.
Proof.
  apply Z.le_antisymm;
    [apply round_half_even_le_int | apply round_half_even_ge_int]; apply Qcle_refl.
Qed.

(** *** The exponent *)

Lemma Qc_num_den (q : Qc) : q * Qc_of_Z (Z.pos (Qden q)) = Qc_of_Z (Qnum q).
Proof.
  to_Q. destruct q as [[n d] Hc]. simpl. unfold Qeq. simpl. lia.
Qed.

Lemma binade_le q : 0 < q -> pow2 (binade q) ≤ q.
Proof.
  intros Hq. unfold binade. cbv zeta.
  set (n := Qnum q). set (d := Z.pos (Qden q)).
  destruct (Qc_ltb q (pow2 (Z.log2 n - Z.log2 d))) eqn:E;
    [|by apply Qc_ltb_ge].
  assert (0 < n)%Z as Hn.
  { unfold Qclt, Qlt in Hq. simpl in Hq. unfold n. lia. }
  assert (0 < d)%Z as Hd by (unfold d; lia).
  pose proof (Z.log2_spec n Hn) as [Hn1 _].
  pose proof (Z.log2_spec d Hd) as [_ Hd2].
  pose proof (Z.log2_nonneg n). pose proof (Z.log2_nonneg d).
  pose proof (Qc_num_den q) as Hq'. fold n d in Hq'.
  assert (Qc_of_Z (2 ^ Z.log2 n) ≤ Qc_of_Z n) as Hn' by (by apply Qc_of_Z_mono).
  assert (Qc_of_Z d ≤ Qc_of_Z (2 ^ Z.succ (Z.log2 d))) as Hd'
    by (apply Qc_of_Z_mono; lia).
  assert (0 < Qc_of_Z d) as Hdpos
    by (rewrite <-Z2Qc_inj_0; by apply Qc_of_Z_smono).
  pose proof (pow2_pos (Z.log2 n - Z.log2 d - 1)) as Hp.
  assert (pow2 (Z.log2 n - Z.log2 d - 1) * Qc_of_Z (2 ^ Z.succ (Z.log2 d))
          = Qc_of_Z (2 ^ Z.log2 n)) as Hprod.
  { rewrite <-(pow2_nonneg_exp (Z.succ _)), <-pow2_nonneg_exp, <-pow2_add by lia.
    f_equal. lia. }
  to_Q. nra.
Qed.

(** *** Rounding to binary64 *)

Lemma pow2_opp_inv u : pow2 u * pow2 (- u) = 1.
Proof. rewrite <-pow2_add, Z.add_opp_diag_r. by apply Qc_is_canon. Qed.

Lemma binade_small q z :
  0 < q -> q ≤ Qc_of_Z z -> (z < 2 ^ 53)%Z -> (binade q ≤ 52)%Z.
Proof.
  intros Hq Hz Hz53. destruct (Z.le_gt_cases (binade q) 52) as [|Hbig]; [done|].
  pose proof (binade_le q Hq) as Hb.
  pose proof (pow2_le 53 (binade q) ltac:(lia)) as H53.
  rewrite (pow2_nonneg_exp 53) in H53 by lia.
  assert (Qc_of_Z (2 ^ 53) ≤ Qc_of_Z z) as Hc%Qc_of_Z_mono_inv; [|lia].
  eapply Qcle_trans; [exact H53|]. by eapply Qcle_trans.
Qed.

Lemma scaled_int u z :
  (u ≤ 0)%Z -> Qc_of_Z z / pow2 u = Qc_of_Z (z * 2 ^ (- u)).
Proof.
  intros Hu. pose proof (pow2_opp_inv u) as Hinv.
  pose proof (Qc_pos_neq_0 _ (pow2_pos u)) as Hne.
  rewrite Z2Qc_inj_mul, <-(pow2_nonneg_exp (- u)) by lia.
  unfold Qcdiv. f_equal.
  transitivity (pow2 u * pow2 (- u) * / pow2 u);
    [by rewrite Hinv, Qcmult_1_l | by field].
Qed.

Lemma round_binary64_pos_nonneg q : 0 < q -> 0 ≤ round_binary64_pos q.
Proof.
  intros Hq. unfold round_binary64_pos.
  set (u := Z.max _ _). pose proof (pow2_pos u) as Hp.
  assert (0 ≤ q / pow2 u) as Hs.
  { unfold Qcdiv. apply Qcmult_nonneg_nonneg; [by apply Qclt_le_weak|].
    by apply Qclt_le_weak, Qcinv_pos. }
  rewrite <-Z2Qc_inj_0 in Hs. apply round_half_even_ge_int, Qc_of_Z_mono in Hs.
  rewrite Z2Qc_inj_0 in Hs. apply Qcmult_nonneg_nonneg; [done | by apply Qclt_le_weak].
Qed.

Lemma round_binary64_pos_below q z :
  0 < q -> q ≤ Qc_of_Z z -> (z < 2 ^ 53)%Z -> round_binary64_pos q ≤ Qc_of_Z z.
Proof.
  intros Hq Hz Hz53. pose proof (binade_small q z Hq Hz Hz53) as He.
  unfold round_binary64_pos. set (u := Z.max _ _).
  assert (u ≤ 0)%Z as Hu by (unfold u; lia).
  pose proof (pow2_pos u) as Hp. pose proof (Qc_pos_neq_0 _ Hp) as Hne.
  assert (q / pow2 u ≤ Qc_of_Z (z * 2 ^ (- u))) as Hs.
  { rewrite <-scaled_int by done. unfold Qcdiv.
    apply Qcmult_le_compat_r; [done | by apply Qclt_le_weak, Qcinv_pos]. }
  apply round_half_even_le_int, Qc_of_Z_mono in Hs.
  rewrite <-scaled_int in Hs by done.
  apply (Qcmult_le_compat_r _ _ (pow2 u)) in Hs; [|by apply Qclt_le_weak].
  by rewrite Qcdiv_mul_cancel in Hs.
Qed.

Lemma round_binary64_pos_int z :
  (0 < z < 2 ^ 53)%Z -> round_binary64_pos (Qc_of_Z z) = Qc_of_Z z.
Proof.
  intros Hz.
  assert (0 < Qc_of_Z z) as Hq by (rewrite <-Z2Qc_inj_0; apply Qc_of_Z_smono; lia).
  pose proof (binade_small _ z Hq (Qcle_refl _) ltac:(lia)) as He.
  unfold round_binary64_pos. set (u := Z.max _ _).
  assert (u ≤ 0)%Z as Hu by (unfold u; lia).
  pose proof (Qc_pos_neq_0 _ (pow2_pos u)) as Hne.
  rewrite scaled_int, round_half_even_int, <-scaled_int by done.
  by rewrite Qcdiv_mul_cancel.
Qed.

Lemma float_eps_value : (this float_eps == 1 # 9007199254740992)%Q.
Proof. vm_compute. reflexivity. Qed.

Lemma round_binary64_pos_accurate q :
  pow2 (-1022) ≤ q ->
  q * (1 - float_eps) ≤ round_binary64_pos q
  ∧ round_binary64_pos q ≤ q * (1 + float_eps).
Proof.
  intros Hq.
  assert (0 < q) as Hpos by (eapply Qclt_le_trans; [apply (pow2_pos (-1022)) | done]).
  pose proof (binade_le q Hpos) as Hb.
  unfold round_binary64_pos. set (u := Z.max _ _).
  assert (pow2 (u + 52) ≤ q) as Hu.
  { unfold u. destruct (Z.max_spec (binade q - 52) (-1074)) as [[_ ->]|[_ ->]].
    - done.
    - by replace (binade q - 52 + 52)%Z with (binade q) by lia. }
  rewrite pow2_add_nonneg in Hu by lia.
  pose proof (pow2_pos u) as Hp. pose proof (Qc_pos_neq_0 _ Hp) as Hne.
  pose proof (round_half_even_near (q / pow2 u)) as [Hlo Hhi].
  assert (q / pow2 u * pow2 u = q) as Hs by (by rewrite Qcdiv_mul_cancel).
  revert Hlo Hhi Hs. generalize (round_half_even (q / pow2 u)) as m.
  generalize (q / pow2 u) as s. intros s m Hlo Hhi Hs.
  pose proof float_eps_value as Heps.
  to_Q. rewrite Heps.
  change (inject_Z (2 ^ 52)) with (4503599627370496 # 1)%Q in Hu.
  assert (0 <= (inject_Z m - s + (1 # 2)) * pow2 u)%Q as H1
    by (apply Qmult_le_0_compat; lra).
  assert (0 <= (s + (1 # 2) - inject_Z m) * pow2 u)%Q as H2
    by (apply Qmult_le_0_compat; lra).
  split; nra.
Qed.

Lemma round_binary64_of_pos q : 0 < q -> round_binary64 q = round_binary64_pos q.
Proof. intros Hq%Qc_ltb_lt. unfold round_binary64. by rewrite Hq. Qed.

Lemma round_binary64_nonpos q : q ≤ 0 -> round_binary64 q ≤ 0.
Proof.
  intros Hq. unfold round_binary64.
  destruct (Qc_ltb 0 q) eqn:E1; [apply Qc_ltb_lt in E1; by apply Qcle_not_lt in Hq|].
  destruct (Qc_ltb q 0) eqn:E2; [|apply Qcle_refl].
  apply Qc_ltb_lt in E2.
  assert (0 < - q) as Hn by (to_Q; lra).
  pose proof (round_binary64_pos_nonneg _ Hn). to_Q. lra.
Qed.

(** Binary64 rounding is correctly rounded, and so is no rounding at all. *)
Lemma binary64_correctly_rounded : correctly_rounded binary64.
Proof.
  split; simpl.
  - intros q Hq _.
    assert (0 < q) as Hpos by (eapply Qclt_le_trans; [apply (pow2_pos (-1022)) | done]).
    rewrite round_binary64_of_pos by done. by apply round_binary64_pos_accurate.
  - intros z Hz. destruct (decide (z = 0)%Z) as [->|Hz0]; [by apply Qc_is_canon|].
    rewrite round_binary64_of_pos
      by (rewrite <-Z2Qc_inj_0; apply Qc_of_Z_smono; lia).
    apply round_binary64_pos_int. lia.
  - intros q Hq. destruct (Qcle_lt_or_eq _ _ Hq) as [Hpos| <-].
    + rewrite round_binary64_of_pos by done. by apply round_binary64_pos_nonneg.
    + apply Qcle_refl.
  - intros q z Hz Hq. destruct (Qclt_le_dec 0 q) as [Hpos|Hneg].
    + rewrite round_binary64_of_pos by done. apply round_binary64_pos_below; [done..|lia].
    + eapply Qcle_trans; [by apply round_binary64_nonpos|].
      rewrite <-Z2Qc_inj_0. apply Qc_of_Z_mono. lia.
Qed.

Lemma exact_arithmetic_correctly_rounded : correctly_rounded exact_arithmetic.
Proof.
  split; simpl; try done.
  intros q Hq _. pose proof float_eps_value as Heps.
  assert (0 < q) as Hpos by (eapply Qclt_le_trans; [apply (pow2_pos (-1022)) | done]).
  split; to_Q; rewrite Heps; nra.
Qed.

#[local] Close Scope Qc_scope.

(** *** [resize_sample] *)

Lemma py_int_of_Z n : py_int (Qc_of_Z n) = n.
Proof. unfold py_int. simpl. apply Z.quot_1_r. Qed.

Lemma py_int_le (x : Qc) n : (0 ≤ x)%Qc -> (x ≤ Qc_of_Z n)%Qc -> py_int x ≤ n.
Proof.
  unfold Qcle, Qle, py_int. simpl. intros H0 Hn.
  rewrite Z.quot_div_nonneg by lia. apply Z.div_le_upper_bound; lia.
Qed.

Lemma py_int_lt (x : Qc) n : (0 ≤ x)%Qc -> (x < Qc_of_Z (n + 1))%Qc -> py_int x ≤ n.
Proof.
  unfold Qcle, Qclt, Qle, Qlt, py_int. simpl. intros H0 Hn.
  rewrite Z.quot_div_nonneg by lia.
  assert (Qnum x / Z.pos (Qden x) < n + 1); [|lia].
  apply Z.div_lt_upper_bound; lia.
Qed.

Lemma py_int_ge (x : Qc) n : (Qc_of_Z n ≤ x)%Qc -> n ≤ py_int x.
Proof.
  unfold Qcle, Qle, py_int. simpl. intros Hn.
  apply Z.quot_le_lower_bound; lia.
Qed.

Lemma py_min2_cases a b : py_min2 a b = a ∨ py_min2 a b = b.
Proof. unfold py_min2. destruct (Qc_ltb b a); auto. Qed.

Lemma py_min2_lb_l a b : (py_min2 a b ≤ a)%Qc.
Proof.
  unfold py_min2. destruct (Qc_ltb b a) eqn:E; [|done].
  apply Qc_ltb_lt in E. by apply Qclt_le_weak.
Qed.

Lemma py_min2_lb_r a b : (py_min2 a b ≤ b)%Qc.
Proof.
  unfold py_min2. destruct (Qc_ltb b a) eqn:E; [done|]. by apply Qc_ltb_ge.
Qed.

Lemma pow2_m64_value : (this (pow2 (-64)) == 1 # 18446744073709551616)%Q.
Proof. vm_compute. reflexivity. Qed.

Lemma pow2_64_value : (this (pow2 64) == 18446744073709551616 # 1)%Q.
Proof. vm_compute. reflexivity. Qed.

Lemma max_side_value : max_side = 2147483647.
Proof. reflexivity. Qed.

Section ScaledSize.
Context `{FloatArith}.
Hypothesis rounding : correctly_rounded _.

Lemma py_float_exact z : 0 ≤ z ≤ max_side -> py_float z = Qc_of_Z z.
Proof.
  intros Hz. unfold py_float. apply (fl_exact_int _ rounding).
  rewrite max_side_value in Hz. lia.
Qed.

Lemma fl_accurate_64 (q : Qc) :
  (pow2 (-64) ≤ q)%Qc -> (q ≤ pow2 64)%Qc ->
  (q * (1 - float_eps) ≤ fl q)%Qc ∧ (fl q ≤ q * (1 + float_eps))%Qc.
Proof.
  intros Hlo Hhi. apply (fl_accurate _ rounding).
  - eapply Qcle_trans; [apply (pow2_le (-1022) (-64)); lia | done].
  - eapply Qcle_trans; [done | apply (pow2_le 64 1023); lia].
Qed.

(** The ratio of a target side to an image side, as the code computes it. *)
Lemma ratio_accurate (W w : Z) :
  1 ≤ W ≤ max_side -> 1 ≤ w ≤ max_side ->
  (Qc_of_Z w * (1 - float_eps) ≤ Qc_of_Z W * fl (py_float w / py_float W)
   ∧ Qc_of_Z W * fl (py_float w / py_float W) ≤ Qc_of_Z w * (1 + float_eps)
   ∧ pow2 (-64) ≤ fl (py_float w / py_float W)
   ∧ fl (py_float w / py_float W) ≤ pow2 32)%Qc.
Proof.
  intros HW Hw. rewrite !py_float_exact by lia.
  rewrite max_side_value in HW, Hw.
  assert (Qc_of_Z 1 ≤ Qc_of_Z W ∧ Qc_of_Z W ≤ Qc_of_Z 2147483647)%Qc as [HW1 HW2]
    by (split; apply Qc_of_Z_mono; lia).
  assert (Qc_of_Z 1 ≤ Qc_of_Z w ∧ Qc_of_Z w ≤ Qc_of_Z 2147483647)%Qc as [Hw1 Hw2]
    by (split; apply Qc_of_Z_mono; lia).
  assert (Qc_of_Z W ≠ 0%Qc) as HW0.
  { rewrite <-Z2Qc_inj_0. intros E%Z2Qc_inj. lia. }
  pose proof (Qcdiv_mul_cancel (Qc_of_Z w) (Qc_of_Z W) HW0) as Ht.
  revert Ht. generalize (Qc_of_Z w / Qc_of_Z W)%Qc as t. intros t Ht.
  pose proof pow2_m64_value as H64. pose proof float_eps_value as Heps.
  pose proof pow2_64_value as H64'.
  assert (this (pow2 32) == 4294967296 # 1)%Q as H32 by (vm_compute; reflexivity).
  assert (pow2 (-64) ≤ t ∧ t ≤ pow2 64)%Qc as [Htlow Hthigh].
  { split; to_Q; rewrite ?H64, ?H64';
      change (inject_Z 1) with (1 # 1)%Q in *;
      change (inject_Z 2147483647) with (2147483647 # 1)%Q in *; nra. }
  destruct (fl_accurate_64 t Htlow Hthigh) as [Hlo Hhi].
  revert Hlo Hhi. generalize (fl t) as r. intros r Hlo Hhi.
  to_Q. rewrite ?H64, ?Heps, ?H32 in *.
  change (inject_Z 1) with (1 # 1)%Q in *.
  change (inject_Z 2147483647) with (2147483647 # 1)%Q in *.
  repeat split; nra.
Qed.

(** A side scaled by a ratio at least the side's own ratio is the target
    side or one pixel less, or more. *)
Lemma scaled_side_lower (W w : Z) (ratio : Qc) :
  1 ≤ W ≤ max_side -> 1 ≤ w ≤ max_side ->
  (fl (py_float w / py_float W) ≤ ratio)%Qc -> (ratio ≤ pow2 32)%Qc ->
  w - 1 ≤ py_int (py_int_mul_float W ratio).
Proof.
  intros HW Hw Hr Hr32. destruct (ratio_accurate W w HW Hw) as (Hlo & _ & _ & _).
  unfold py_int_mul_float. rewrite (py_float_exact W) by lia.
  rewrite max_side_value in HW, Hw.
  assert (Qc_of_Z 1 ≤ Qc_of_Z W ∧ Qc_of_Z W ≤ Qc_of_Z 2147483647)%Qc as [HW1 HW2]
    by (split; apply Qc_of_Z_mono; lia).
  assert (Qc_of_Z 1 ≤ Qc_of_Z w ∧ Qc_of_Z w ≤ Qc_of_Z 2147483647)%Qc as [Hw1 Hw2]
    by (split; apply Qc_of_Z_mono; lia).
  revert Hlo Hr. generalize (fl (py_float w / py_float W)) as r. intros r Hlo Hr.
  pose proof pow2_m64_value as H64. pose proof float_eps_value as Heps.
  pose proof pow2_64_value as H64'.
  assert (this (pow2 32) == 4294967296 # 1)%Q as H32 by (vm_compute; reflexivity).
  assert (Qc_of_Z w * (1 - float_eps) ≤ Qc_of_Z W * ratio)%Qc as Hp.
  { to_Q. rewrite ?Heps in *. change (inject_Z 1) with (1 # 1)%Q in *. nra. }
  assert (pow2 (-64) ≤ Qc_of_Z W * ratio)%Qc as Hp64.
  { to_Q. rewrite ?Heps, ?H64 in *. change (inject_Z 1) with (1 # 1)%Q in *. lra. }
  assert (Qc_of_Z W * ratio ≤ pow2 64)%Qc as Hp64'.
  { to_Q. rewrite ?H32, ?H64' in *. change (inject_Z 1) with (1 # 1)%Q in *.
    change (inject_Z 2147483647) with (2147483647 # 1)%Q in *. nra. }
  destruct (fl_accurate_64 _ Hp64 Hp64') as [Hacc _].
  apply py_int_ge. rewrite Z2Qc_inj_sub, Z2Qc_inj_1.
  revert Hacc Hp. generalize (Qc_of_Z W * ratio)%Qc as p.
  generalize fl as f. intros f p Hacc Hp.
  to_Q. rewrite ?Heps in *.
  change (inject_Z 1) with (1 # 1)%Q in *.
  change (inject_Z 2147483647) with (2147483647 # 1)%Q in *. lra.
Qed.

(** A side scaled by a ratio at most the side's own ratio is at most the
    target side. *)
Lemma scaled_side_upper (W w : Z) (ratio : Qc) :
  1 ≤ W ≤ max_side -> 1 ≤ w ≤ max_side ->
  (0 ≤ ratio)%Qc -> (ratio ≤ fl (py_float w / py_float W))%Qc ->
  py_int (py_int_mul_float W ratio) ≤ w.
Proof.
  intros HW Hw Hr0 Hr. destruct (ratio_accurate W w HW Hw) as (_ & Hhi & _ & _).
  unfold py_int_mul_float. rewrite (py_float_exact W) by lia.
  rewrite max_side_value in HW, Hw.
  assert (Qc_of_Z 1 ≤ Qc_of_Z W)%Qc as HW1 by (apply Qc_of_Z_mono; lia).
  assert (Qc_of_Z 1 ≤ Qc_of_Z w ∧ Qc_of_Z w ≤ Qc_of_Z 2147483647)%Qc as [Hw1 Hw2]
    by (split; apply Qc_of_Z_mono; lia).
  revert Hhi Hr. generalize (fl (py_float w / py_float W)) as r. intros r Hhi Hr.
  pose proof pow2_m64_value as H64. pose proof float_eps_value as Heps.
  assert (0 ≤ Qc_of_Z W * ratio)%Qc as Hp0.
  { to_Q. change (inject_Z 1) with (1 # 1)%Q in *. nra. }
  assert (Qc_of_Z W * ratio ≤ Qc_of_Z w * (1 + float_eps))%Qc as Hp.
  { to_Q. rewrite ?Heps in *. change (inject_Z 1) with (1 # 1)%Q in *. nra. }
  pose proof (fl_nonneg _ rounding _ Hp0) as Hfl0.
  destruct (Qclt_le_dec (Qc_of_Z W * ratio) (pow2 (-64)))%Qc as [Hsmall|Hbig].
  - apply Z.le_trans with 1; [|lia]. apply py_int_le; [done|].
    apply (fl_below_int _ rounding); [lia|].
    to_Q. rewrite ?H64 in *. change (inject_Z 1) with (1 # 1)%Q in *. lra.
  - assert (Qc_of_Z W * ratio ≤ pow2 64)%Qc as Hbig'.
    { pose proof pow2_64_value as H64'. to_Q. rewrite ?Heps, ?H64' in *.
      change (inject_Z 1) with (1 # 1)%Q in *.
      change (inject_Z 2147483647) with (2147483647 # 1)%Q in *. lra. }
    destruct (fl_accurate_64 _ Hbig Hbig') as [_ Hacc].
    apply py_int_lt; [done|]. rewrite Z2Qc_inj_add, Z2Qc_inj_1.
    revert Hacc Hp Hfl0. generalize (Qc_of_Z W * ratio)%Qc as p.
    generalize fl as f. intros f p Hacc Hp _.
    to_Q. rewrite ?Heps in *.
    change (inject_Z 1) with (1 # 1)%Q in *.
    change (inject_Z 2147483647) with (2147483647 # 1)%Q in *. lra.
Qed.

Lemma ratio_nonneg (W w : Z) :
  1 ≤ W ≤ max_side -> 1 ≤ w ≤ max_side ->
  (0 ≤ fl (py_float w / py_float W))%Qc.
Proof.
  intros HW Hw. destruct (ratio_accurate W w HW Hw) as (_ & _ & Hlow & _).
  pose proof pow2_m64_value as H64. to_Q. rewrite H64 in Hlow. lra.
Qed.

Lemma ratio_below (W w : Z) :
  1 ≤ W ≤ max_side -> 1 ≤ w ≤ max_side ->
  (fl (py_float w / py_float W) ≤ pow2 32)%Qc.
Proof. intros HW Hw. by destruct (ratio_accurate W w HW Hw) as (_ & _ & _ & ?). Qed.
End ScaledSize.

Section ResizeFacts.
Context `{Imaging, FloatArith}.

(** [new_size] is the size [resize_sample] resizes to. *)
Lemma resize_sample_new_size img label h w restore :
  fst (im_size img) ≠ 0 -> snd (im_size img) ≠ 0 ->
  resize_sample img label h w restore
  = (img' ← im_resize img (new_size img h w restore);
     label' ← im_resize label (new_size img h w restore);
     OK (center_crop h w img', center_crop h w label')).
Proof.
  intros HW HH. unfold resize_sample, py_float_div.
  by rewrite !decide_False by done.
Qed.

Lemma resize_sample_sides img label h w restore r :
  resize_sample img label h w restore = OK r ->
  fst (im_size img) ≠ 0 ∧ snd (im_size img) ≠ 0.
Proof.
  unfold resize_sample, py_float_div.
  destruct (decide (fst (im_size img) = 0)); [done|].
  destruct (decide (snd (im_size img) = 0)); done.
Qed.

(** What a returned call went through. *)
Lemma resize_sample_inv img label h w restore img' label' :
  resize_sample img label h w restore = OK (img', label') ->
  ∃ r_img r_label,
    im_resize img (new_size img h w restore) = OK r_img
    ∧ im_resize label (new_size img h w restore) = OK r_label
    ∧ img' = center_crop h w r_img ∧ label' = center_crop h w r_label.
Proof.
  intros Hrun. destruct (resize_sample_sides _ _ _ _ _ _ Hrun) as [HW HH].
  rewrite resize_sample_new_size in Hrun by done.
  apply bind_OK_inv in Hrun as (r_img & Hi & Hrun).
  apply bind_OK_inv in Hrun as (r_label & Hl & Hrun).
  injection Hrun as <- <-. by exists r_img, r_label.
Qed.

Hypothesis rounding : correctly_rounded _.

(** The scaled size under correctly rounded arithmetic.  Fitting: no side
    exceeds the target and one side is the target's or a pixel less.
    Restoring: each side is the target's, a pixel less, or more, and one
    side does not exceed the target. *)
Lemma new_size_bounds img h w restore :
  1 ≤ fst (im_size img) ≤ max_side -> 1 ≤ snd (im_size img) ≤ max_side ->
  1 ≤ h ≤ max_side -> 1 ≤ w ≤ max_side ->
  let '(nw, nh) := new_size img h w restore in
  if restore
  then w - 1 ≤ nw ∧ h - 1 ≤ nh ∧ (nw ≤ w ∨ nh ≤ h)
  else nw ≤ w ∧ nh ≤ h ∧ (w - 1 ≤ nw ∨ h - 1 ≤ nh).
Proof.
  intros HW HH Hh Hw. unfold new_size.
  set (W := fst (im_size img)) in *. set (Hi := snd (im_size img)) in *.
  set (rw := fl (py_float w / py_float W)%Qc).
  set (rh := fl (py_float h / py_float Hi)%Qc).
  pose proof (ratio_nonneg rounding W w HW Hw) as Hrw0. fold rw in Hrw0.
  pose proof (ratio_nonneg rounding Hi h HH Hh) as Hrh0. fold rh in Hrh0.
  pose proof (ratio_below rounding W w HW Hw) as Hrw32. fold rw in Hrw32.
  pose proof (ratio_below rounding Hi h HH Hh) as Hrh32. fold rh in Hrh32.
  destruct restore.
  - assert (py_max2 rw rh ≤ pow2 32)%Qc as Hmax32 by (by apply py_max2_lub).
    split; [|split].
    + apply (scaled_side_lower rounding); [done.. | apply py_max2_ub_l | done].
    + apply (scaled_side_lower rounding); [done.. | apply py_max2_ub_r | done].
    + destruct (py_max2_cases rw rh) as [-> | ->].
      * left. apply (scaled_side_upper rounding); [done..|]. apply Qcle_refl.
      * right. apply (scaled_side_upper rounding); [done..|]. apply Qcle_refl.
  - assert (0 ≤ py_min2 rw rh)%Qc as Hmin0
      by (by destruct (py_min2_cases rw rh) as [-> | ->]).
    split; [|split].
    + apply (scaled_side_upper rounding); [done..|]. apply py_min2_lb_l.
    + apply (scaled_side_upper rounding); [done..|]. apply py_min2_lb_r.
    + destruct (py_min2_cases rw rh) as [-> | ->].
      * left. apply (scaled_side_lower rounding); [done.. | apply Qcle_refl | done].
      * right. apply (scaled_side_lower rounding); [done.. | apply Qcle_refl | done].
Qed.

(** What the statements below rely on from PIL and torchvision: resizing to
    a size with positive sides succeeds, and a centre crop returns an image
    of the requested size. *)
Hypothesis resize_positive :
  ∀ im sz, 1 ≤ fst sz -> 1 ≤ snd sz -> ∃ im', im_resize im sz = OK im'.
Hypothesis crop_size :
  ∀ h w im, 0 ≤ h -> 0 ≤ w -> im_size (center_crop h w im) = (w, h).

Lemma resize_sample_size img label h w restore img' label' :
  0 ≤ h -> 0 ≤ w ->
  resize_sample img label h w restore = OK (img', label') ->
  im_size img' = (w, h) ∧ im_size label' = (w, h).
Proof.
  intros Hh Hw (r_img & r_label & _ & _ & -> & ->)%resize_sample_inv.
  by rewrite !crop_size.
Qed.

(** The restoring call returns when the size to restore has sides of at
    least two pixels. *)
Lemma resize_sample_restore_returns img label h w :
  1 ≤ fst (im_size img) ≤ max_side -> 1 ≤ snd (im_size img) ≤ max_side ->
  2 ≤ h ≤ max_side -> 2 ≤ w ≤ max_side ->
  ∃ r_img r_label,
    im_resize img (new_size img h w true) = OK r_img
    ∧ im_resize label (new_size img h w true) = OK r_label
    ∧ resize_sample img label h w true
      = OK (center_crop h w r_img, center_crop h w r_label).
Proof.
  intros HW HH Hh Hw.
  pose proof (new_size_bounds img h w true HW HH ltac:(lia) ltac:(lia)) as Hb.
  destruct (new_size img h w true) as [nw nh] eqn:Hn.
  destruct Hb as (Hnw & Hnh & _).
  destruct (resize_positive img (nw, nh)) as [r_img Hi]; [simpl; lia..|].
  destruct (resize_positive label (nw, nh)) as [r_label Hl]; [simpl; lia..|].
  exists r_img, r_label. split; [done|]. split; [done|].
  rewrite resize_sample_new_size by lia. by rewrite Hn, Hi, Hl.
Qed.
End ResizeFacts.

Lemma toy_imaging_resize (im : @Image toy_imaging) sz :
  1 ≤ fst sz -> 1 ≤ snd sz -> ∃ im', @im_resize toy_imaging im sz = OK im'.
Proof.
  intros H1 H2. exists sz. simpl.
  destruct (Z.leb_spec 1 (fst sz)); [|lia]. destruct (Z.leb_spec 1 (snd sz)); [|lia].
  done.
Qed.

(** C6 (as stated): a 1 x 1 image resized to 49 x 49 is not restored.  The
    restoring call computes the ratio 1.0/49 and the side [int(49 * ratio)],
    which is 0 in binary64, and asks [resize] for the size (0, 0). *)
Lemma resize_sample_round_trip_counterexample :
  ¬ (∀ (I : Imaging) (F : FloatArith),
       correctly_rounded F ->
       (∀ im sz, 1 ≤ fst sz -> 1 ≤ snd sz -> ∃ im', im_resize im sz = OK im') ->
       (∀ h w im, 0 ≤ h -> 0 ≤ w -> im_size (center_crop h w im) = (w, h)) ->
       ∀ (img label : Image) (h w : Z) (img1 label1 : Image),
         1 ≤ h -> 1 ≤ w -> 1 ≤ fst (im_size img) -> 1 ≤ snd (im_size img) ->
         resize_sample img label h w false = OK (img1, label1) ->
         ∃ img2 label2,
           resize_sample img1 label1 (snd (im_size img)) (fst (im_size img)) true
           = OK (img2, label2)
           ∧ Z.abs (fst (im_size img2) - fst (im_size img)) ≤ 1
           ∧ Z.abs (snd (im_size img2) - snd (im_size img)) ≤ 1).
Proof.
  intros Hall.
  destruct (Hall toy_imaging binary64 binary64_correctly_rounded toy_imaging_resize
              ltac:(reflexivity) (1, 1) (1, 1) 49 49 (49, 49) (49, 49))
    as (img2 & label2 & Hrun & _); try (simpl; lia).
  - vm_compute. reflexivity.
  - vm_compute in Hrun. discriminate.
Qed.

(** C6 (amended).  Let the image have sides of at least 2 pixels.  When
    [resize_sample] with [restore=False] has resized the sample to a target
    size, [resize_sample] with [restore=True] and the original size returns:
    it resizes image and label to a scaled size that is at least the original
    size less one pixel on each side and at most the original on one side, and
    the centre crop gives both exactly the original dimensions. *)
Theorem resize_sample_round_trip `{Imaging, FloatArith} (img label : Image) (h w : Z)
    (img1 label1 : Image) :
  correctly_rounded _ ->
  (∀ im sz, 1 ≤ fst sz -> 1 ≤ snd sz -> ∃ im', im_resize im sz = OK im') ->
  (∀ h w im, 0 ≤ h -> 0 ≤ w -> im_size (center_crop h w im) = (w, h)) ->
  1 ≤ h ≤ max_side -> 1 ≤ w ≤ max_side ->
  2 ≤ fst (im_size img) ≤ max_side -> 2 ≤ snd (im_size img) ≤ max_side ->
  resize_sample img label h w false = OK (img1, label1) ->
  ∃ nw nh r_img r_label,
    fst (im_size img) - 1 ≤ nw ∧ snd (im_size img) - 1 ≤ nh
    ∧ (nw ≤ fst (im_size img) ∨ nh ≤ snd (im_size img))
    ∧ im_resize img1 (nw, nh) = OK r_img
    ∧ im_resize label1 (nw, nh) = OK r_label
    ∧ resize_sample img1 label1 (snd (im_size img)) (fst (im_size img)) true
      = OK (center_crop (snd (im_size img)) (fst (im_size img)) r_img,
            center_crop (snd (im_size img)) (fst (im_size img)) r_label)
    ∧ im_size (center_crop (snd (im_size img)) (fst (im_size img)) r_img)
      = im_size img
    ∧ im_size (center_crop (snd (im_size img)) (fst (im_size img)) r_label)
      = im_size img.
Proof.
  intros Hround Hresize Hcrop Hh Hw HW HH Hfwd.
  destruct (resize_sample_size Hcrop img label h w false img1 label1) as [Hs1 _];
    [lia | lia | done |].
  assert (1 ≤ fst (im_size img1) ≤ max_side ∧ 1 ≤ snd (im_size img1) ≤ max_side)
    as [HW1 HH1] by (by rewrite Hs1).
  pose proof (new_size_bounds Hround img1 (snd (im_size img)) (fst (im_size img)) true
                HW1 HH1 ltac:(lia) ltac:(lia)) as Hb.
  destruct (resize_sample_restore_returns Hround Hresize img1 label1
              (snd (im_size img)) (fst (im_size img)) HW1 HH1 HH HW)
    as (r_img & r_label & Hi & Hl & Hback).
  destruct (new_size img1 _ _ true) as [nw nh].
  destruct Hb as (Hnw & Hnh & Hone).
  exists nw, nh, r_img, r_label. repeat split; try done.
  - rewrite Hcrop by lia. by destruct (im_size img).
  - rewrite Hcrop by lia. by destruct (im_size img).
Qed.

Lemma resize_sample_round_trip_witness :
  ∃ nw nh r_img r_label,
    500 - 1 ≤ nw ∧ 375 - 1 ≤ nh ∧ (nw ≤ 500 ∨ nh ≤ 375)
    ∧ @im_resize toy_imaging (224, 224) (nw, nh) = OK r_img
    ∧ @im_resize toy_imaging (224, 224) (nw, nh) = OK r_label
    ∧ @resize_sample toy_imaging binary64 (224, 224) (224, 224) 375 500 true
      = OK (@center_crop toy_imaging 375 500 r_img,
            @center_crop toy_imaging 375 500 r_label)
    ∧ @center_crop toy_imaging 375 500 r_img = (500, 375)
    ∧ @center_crop toy_imaging 375 500 r_label = (500, 375).
Proof.
  apply (@resize_sample_round_trip toy_imaging binary64 (500, 375) (500, 375) 224 224
           (224, 224) (224, 224)).
  - exact binary64_correctly_rounded.
  - exact toy_imaging_resize.
  - reflexivity.
  - vm_compute. split; discriminate.
  - vm_compute. split; discriminate.
  - vm_compute. split; discriminate.
  - vm_compute. split; discriminate.
  - vm_compute. reflexivity.
Defined.

(** Scaled sizes in binary64: restoring 224 x 224 to 500 x 375 scales to
    500 x 500 before the crop; fitting 49 x 49 to 32 x 32 scales to 31 x 31;
    restoring 49 x 49 to 1 x 1 scales to 0 x 0.  Without rounding the second
    size is 32 x 32. *)
Example resize_sample_sizes :
  @new_size toy_imaging binary64 (224, 224) 375 500 true = (500, 500)
  ∧ @new_size toy_imaging binary64 (49, 49) 32 32 false = (31, 31)
  ∧ @new_size toy_imaging binary64 (49, 49) 1 1 true = (0, 0)
  ∧ @new_size toy_imaging exact_arithmetic (49, 49) 32 32 false = (32, 32).
Proof. vm_compute. done. Qed.

(** ** [visualize] *)

Ltac unfold_io :=
  unfold mbind, mret, io_bind, io_ret, lift, deref, store, imsave, makedirs in *.

Lemma remap_255_id_int (a : ndarray Z) :
  255 ∉ data a -> remap_255 (IntArr a) = IntArr a.
Proof.
  intros Hno. destruct a as [s d]. unfold remap_255, np_map. simpl in *. do 2 f_equal.
  induction d as [|v d IH]; simpl; [done|].
  apply not_elem_of_cons in Hno as [Hv Hd]. rewrite IH by done.
  destruct (Z.eqb_spec v 255); [congruence | done].
Qed.

Lemma remap_255_no_255 (a : ndarray Z) :
  255 ∉ map (fun v => if v =? 255 then 0 else v) (data a).
Proof.
  change (255 ∉ (fun v => if v =? 255 then 0 else v) <$> data a).
  intros (v & Hv & _)%list_elem_of_fmap. destruct (Z.eqb_spec v 255); congruence.
Qed.

Lemma remap_255_changes (a : ndarray Z) :
  255 ∈ data a -> remap_255 (IntArr a) ≠ IntArr a.
Proof.
  intros Hin Heq. injection Heq as Heq.
  apply (f_equal data) in Heq. simpl in Heq.
  apply (remap_255_no_255 a). by rewrite Heq.
Qed.

Lemma seg_file_inj name id s1 s2 : seg_file name id s1 = seg_file name id s2 -> s1 = s2.
Proof.
  unfold seg_file. intros Heq. by repeat apply (inj (String.append _)) in Heq.
Qed.

(** The directories made for the experiment "exp". *)
Example path_dirs_seg_dir :
  path_dirs (seg_dir "exp")
  = ["visualizations"; "visualizations/exp"; "visualizations/exp/segmentations"].
Proof. vm_compute. reflexivity. Qed.

Section VisualizeFacts.
Context `{Postproc}.

(** The runs of [visualize]: where it stops and what it has written by
    then. *)
Lemma visualize_cases input label features name id σ :
  let d1 := dirs σ ∪ list_to_set (path_dirs (seg_dir name)) in
  match (match heap σ !! input with
         | Some a => normalized_image a
         | None => Error NameError
         end) with
  | Error e =>
      visualize input label features name id σ
      = (mk_world (heap σ) d1 (files σ), Error e)
  | OK img =>
      let f2 := <[seg_file name id "img.jpg" := SavedFloat img]> (files σ) in
      match heap σ !! label with
      | None =>
          visualize input label features name id σ
          = (mk_world (heap σ) d1 f2, Error NameError)
      | Some la =>
          let h3 := <[label := remap_255 la]> (heap σ) in
          let f3 := <[seg_file name id "gt.png" := SavedInt (ground_truth la)]> f2 in
          match (match h3 !! features with
                 | Some fa => predict_label (as_float fa) 1
                 | None => Error NameError
                 end) with
          | Error e =>
              visualize input label features name id σ = (mk_world h3 d1 f3, Error e)
          | OK seg =>
              visualize input label features name id σ
              = (mk_world h3 d1 (<[seg_file name id "seg.png" := SavedInt seg]> f3),
                 OK tt)
          end
      end
  end.
Proof.
  unfold visualize, normalized_image, ground_truth. unfold_io. simpl.
  destruct (heap σ !! input) as [input_arr|]; [|done]. simpl.
  destruct (np_transpose_120 (as_float input_arr)) as [img_data|]; [|done]. simpl.
  destruct (np_amax _) as [max_val|]; [|done]. simpl.
  destruct (heap σ !! label) as [la|]; [|done]. simpl.
  destruct (_ !! features) as [fa|]; [|done]. simpl.
  by destruct (predict_label _ 1) as [seg|].
Qed.
End VisualizeFacts.

(** C9.  [visualize] writes into the caller's label array.  Once the image of
    the input has been saved, the call, whether it then returns or raises in
    the libraries, has set to 0 every entry of the caller's label that was
    255, so a label holding 255 does not hold the same values after the call;
    the image and the ground truth are written, and so is the segmentation
    when the call returns. *)
Theorem visualize_overwrites_label `{Postproc} (input label features : nat)
    (name id : string) (σ : world) (input_arr label_arr : array)
    (img : ndarray npfloat) :
  heap σ !! input = Some input_arr ->
  normalized_image input_arr = OK img ->
  heap σ !! label = Some label_arr ->
  let σ' := fst (visualize input label features name id σ) in
  heap σ' = <[label := remap_255 label_arr]> (heap σ)
  ∧ (∀ a, label_arr = IntArr a -> 255 ∈ data a -> heap σ' !! label ≠ heap σ !! label)
  ∧ files σ' !! seg_file name id "img.jpg" = Some (SavedFloat img)
  ∧ files σ' !! seg_file name id "gt.png" = Some (SavedInt (ground_truth label_arr))
  ∧ (snd (visualize input label features name id σ) = OK tt ->
     ∃ seg, files σ' !! seg_file name id "seg.png" = Some (SavedInt seg)).
Proof.
  intros Hin Himg Hlabel. cbv zeta.
  pose proof (visualize_cases input label features name id σ) as Hrun.
  simpl in Hrun. rewrite Hin, Himg, Hlabel in Hrun.
  assert (seg_file name id "gt.png" ≠ seg_file name id "img.jpg") as Hne1
    by (intros E%seg_file_inj; discriminate).
  assert (seg_file name id "seg.png" ≠ seg_file name id "img.jpg") as Hne2
    by (intros E%seg_file_inj; discriminate).
  assert (seg_file name id "seg.png" ≠ seg_file name id "gt.png") as Hne3
    by (intros E%seg_file_inj; discriminate).
  assert (∀ a, label_arr = IntArr a -> 255 ∈ data a ->
               <[label := remap_255 label_arr]> (heap σ) !! label ≠ heap σ !! label)
    as Hchanged.
  { intros a -> Ha. rewrite lookup_insert_eq, Hlabel. intros E.
    apply (remap_255_changes a Ha). congruence. }
  destruct (match _ !! features with Some _ => _ | None => _ end) as [seg|e];
    rewrite Hrun; simpl.
  - split; [done|]. split; [done|]. split; [|split].
    + do 2 rewrite lookup_insert_ne by done. apply lookup_insert_eq.
    + rewrite lookup_insert_ne by done. apply lookup_insert_eq.
    + intros _. exists seg. apply lookup_insert_eq.
  - split; [done|]. split; [done|]. split; [|split].
    + rewrite lookup_insert_ne by done. apply lookup_insert_eq.
    + apply lookup_insert_eq.
    + discriminate.
Qed.

Lemma visualize_overwrites_label_witness :
  let σ' := fst (@visualize toy_postproc 0 1 2 "exp" "7" sample_world) in
  heap σ' = <[1%nat := remap_255 (IntArr label_4x4)]> (heap sample_world)
  ∧ (∀ a, IntArr label_4x4 = IntArr a -> 255 ∈ data a ->
          heap σ' !! 1%nat ≠ heap sample_world !! 1%nat)
  ∧ (∃ img, files σ' !! seg_file "exp" "7" "img.jpg" = Some (SavedFloat img))
  ∧ files σ' !! seg_file "exp" "7" "gt.png"
    = Some (SavedInt (ground_truth (IntArr label_4x4)))
  ∧ (snd (@visualize toy_postproc 0 1 2 "exp" "7" sample_world) = OK tt ->
     ∃ seg, files σ' !! seg_file "exp" "7" "seg.png" = Some (SavedInt seg)).
Proof.
  destruct (normalized_image
              (FloatArr (mk_ndarray [3; 4; 4]%nat (map Qc_of_Z (seqZ (-20) 48)))))
    as [img|e] eqn:Himg; [|vm_compute in Himg; discriminate].
  pose proof (@visualize_overwrites_label toy_postproc 0 1 2 "exp" "7" sample_world
                _ (IntArr label_4x4) img eq_refl Himg eq_refl) as (H1 & H2 & H3 & H4 & H5).
  split; [exact H1|]. split; [exact H2|]. split; [by exists img|]. split; [exact H4|].
  exact H5.
Defined.

(** The label of the example after the call, with libraries that return and
    with a PCA that raises: the four unlabeled pixels are 0 in both. *)
Example visualize_label_after_call :
  heap (fst (@visualize toy_postproc 0 1 2 "exp" "7" sample_world)) !! 1%nat
  = Some (IntArr (of_rows [[0; 0; 1; 1]; [0; 1; 1; 1]; [2; 2; 1; 1]; [2; 2; 0; 0]]))
  ∧ snd (@visualize toy_postproc 0 1 2 "exp" "7" sample_world) = OK tt
  ∧ heap (fst (@visualize failing_pca 0 1 2 "exp" "7" sample_world)) !! 1%nat
    = Some (IntArr (of_rows [[0; 0; 1; 1]; [0; 1; 1; 1]; [2; 2; 1; 1]; [2; 2; 0; 0]]))
  ∧ snd (@visualize failing_pca 0 1 2 "exp" "7" sample_world) = Error LibraryError.
Proof. repeat split; vm_compute; reflexivity. Qed.

(** ** The Dice scorer in floating point *)

Section RoundedScorer.
Context `{FloatArith}.

Lemma rounded_dice_pair_relabel (σ τ : Z -> Z) `{!Inj (=) (=) σ, !Inj (=) (=) τ}
    x y v w :
  Rounded.dice_pair (np_map σ x) (np_map τ y) (σ v) (τ w) = Rounded.dice_pair x y v w.
Proof. unfold Rounded.dice_pair. by rewrite !np_where_eq_relabel. Qed.

Lemma rounded_dice_pair_error_uniform x y :
  ∃ e0, ∀ v w e, Rounded.dice_pair x y v w = Error e -> e = e0.
Proof.
  destruct (broadcast_shapes (shape x) (shape y)) as [s|] eqn:Hs.
  - exists NonFinite. intros v w e.
    unfold Rounded.dice_pair, np_logical_and, np_add, np_binop.
    simpl. rewrite Hs. simpl. unfold finite.
    destruct (npfloat_map _ _); congruence.
  - exists ValueError. intros v w e.
    unfold Rounded.dice_pair, np_logical_and, np_binop.
    simpl. rewrite Hs. simpl. congruence.
Qed.

Lemma rounded_best_match_mapM x y ws v :
  Rounded.best_match x y ws v
  = (scores ← mapM (Rounded.dice_pair x y v) ws; OK (foldl py_max2 0%Qc scores)).
Proof. unfold Rounded.best_match. apply for_each_mapM. Qed.

Lemma rounded_best_match_error_uniform x y :
  ∃ e0, ∀ ws v e, Rounded.best_match x y ws v = Error e -> e = e0.
Proof.
  destruct (rounded_dice_pair_error_uniform x y) as [e0 He0]. exists e0.
  intros ws v e. rewrite rounded_best_match_mapM.
  destruct (mapM _ ws) as [bs|e'] eqn:Hm; simpl; [done|].
  intros [= ->]. apply mapM_Error_inv in Hm as (w & _ & Hw). eauto.
Qed.

Lemma rounded_best_match_perm x y ws ws' v :
  ws ≡ₚ ws' -> Rounded.best_match x y ws v = Rounded.best_match x y ws' v.
Proof.
  intros Hp. rewrite !rounded_best_match_mapM.
  destruct (rounded_dice_pair_error_uniform x y) as [e0 He0].
  pose proof (mapM_perm (Rounded.dice_pair x y v) e0 ws ws' (He0 v) Hp) as Hsame.
  unfold same_outcome in Hsame.
  destruct (mapM _ ws), (mapM _ ws'); simpl; try done; [|congruence].
  f_equal. by apply foldl_py_max2_perm.
Qed.

(** [dice_score] is the float average of the best scores. *)
Lemma rounded_dice_score_best_scores x y :
  Rounded.dice_score x y
  = (bests ← Rounded.best_scores x y;
     if decide (length (np_unique x) = 0%nat) then Error ZeroDivisionError
     else OK (fl (float_sum bests / py_float (Z.of_nat (length (np_unique x))))%Qc)).
Proof.
  unfold Rounded.dice_score, Rounded.best_scores, float_sum.
  rewrite (for_each_mapM (Rounded.best_match x y (np_unique y))
             (fun total m => fl (total + m)%Qc)).
  by destruct (mapM _ _).
Qed.

(** The best score of a relabelled instance. *)
Lemma rounded_best_match_relabel (σ τ : Z -> Z) `{!Inj (=) (=) σ, !Inj (=) (=) τ}
    x y v :
  Rounded.best_match (np_map σ x) (np_map τ y) (np_unique (np_map τ y)) (σ v)
  = Rounded.best_match x y (np_unique y) v.
Proof.
  rewrite (rounded_best_match_perm _ _ _ _ _ (np_unique_relabel τ y)).
  rewrite !rounded_best_match_mapM, mapM_map. f_equal.
  apply mapM_ext. intros w _. by apply rounded_dice_pair_relabel.
Qed.

Lemma rounded_best_scores_relabel (σ τ : Z -> Z) `{!Inj (=) (=) σ, !Inj (=) (=) τ}
    x y :
  same_outcome (Rounded.best_scores (np_map σ x) (np_map τ y))
               (Rounded.best_scores x y).
Proof.
  unfold Rounded.best_scores.
  destruct (rounded_best_match_error_uniform (np_map σ x) (np_map τ y)) as (e0 & He0).
  pose proof (mapM_perm
                (Rounded.best_match (np_map σ x) (np_map τ y) (np_unique (np_map τ y)))
                e0 _ _ (He0 _) (np_unique_relabel σ x)) as Hsame.
  rewrite mapM_map in Hsame.
  rewrite (mapM_ext
             (fun a => Rounded.best_match (np_map σ x) (np_map τ y)
                         (np_unique (np_map τ y)) (σ a))
             (Rounded.best_match x y (np_unique y))) in Hsame; [done|].
  intros v _. by apply rounded_best_match_relabel.
Qed.
End RoundedScorer.

(** Without rounding the floating point scorer is the exact one. *)
Lemma rounded_dice_pair_exact x y v w :
  @Rounded.dice_pair exact_arithmetic x y v w = dice_pair x y v w.
Proof.
  unfold Rounded.dice_pair, dice_pair, py_float. simpl.
  destruct (np_logical_and _ _) as [land|]; simpl; [|done].
  destruct (np_add _ _) as [s|]; simpl; [|done].
  by destruct (np_true_divide _ _).
Qed.

Lemma rounded_best_match_exact x y ws v :
  @Rounded.best_match exact_arithmetic x y ws v = best_match x y ws v.
Proof.
  rewrite rounded_best_match_mapM, best_match_mapM.
  by rewrite (mapM_ext _ (dice_pair x y v)) by (intros; apply rounded_dice_pair_exact).
Qed.

Lemma rounded_dice_score_exact x y :
  @Rounded.dice_score exact_arithmetic x y = dice_score x y.
Proof.
  rewrite rounded_dice_score_best_scores, dice_score_mapM. unfold Rounded.best_scores.
  rewrite (mapM_ext _ (best_match x y (np_unique y)))
    by (intros; apply rounded_best_match_exact).
  destruct (mapM _ _) as [bests|]; simpl; [|done].
  by case_decide.
Qed.

Lemma rounded_best_symmetric_dice_exact pred gt :
  @Rounded.best_symmetric_dice exact_arithmetic pred gt = best_symmetric_dice pred gt.
Proof.
  unfold Rounded.best_symmetric_dice, best_symmetric_dice.
  by rewrite !rounded_dice_score_exact.
Qed.

(** An increasing renaming keeps the order in which [np.unique] lists the
    instances. *)
Lemma np_unique_increasing (σ : Z -> Z) x :
  (∀ a b, a < b -> σ a < σ b) ->
  np_unique (np_map σ x) = map σ (np_unique x).
Proof.
  intros Hinc.
  assert (Inj (=) (=) σ) as Hinj.
  { intros a b Heq. destruct (Z.lt_trichotomy a b) as [Hlt|[?|Hlt]]; [|done|];
      apply Hinc in Hlt; lia. }
  apply (StronglySorted_unique_strong Z.lt).
  - intros a b _ _ Hab Hba. lia.
  - apply np_unique_sorted.
  - change (map σ (np_unique x)) with (σ <$> np_unique x).
    apply (StronglySorted_fmap σ Z.lt Z.lt); [done | apply np_unique_sorted].
  - by apply np_unique_relabel.
Qed.

(** C10 (as stated): renaming the instances of [x] by negation changes the
    score of the example from 0.7499999999999999 to 0.75: the best scores are
    1, 2/3, 2/3, 2/3, and they are added in the reverse order. *)
Lemma dice_score_relabel_counterexample :
  ¬ (∀ (σ τ : Z -> Z) (x y : ndarray Z),
       Inj (=) (=) σ -> Inj (=) (=) τ -> data x ≠ [] -> data y ≠ [] ->
       @Rounded.dice_score binary64 (np_map σ x) (np_map τ y)
       = @Rounded.dice_score binary64 x y).
Proof.
  intros Hall.
  specialize (Hall Z.opp (fun v => v) thirds_pred thirds_gt Zopp_inj
                ltac:(by intros a b) ltac:(discriminate) ltac:(discriminate)).
  vm_compute in Hall. discriminate.
Qed.

(** The two scores of the example. *)
Example dice_score_thirds :
  @Rounded.dice_score binary64 thirds_pred thirds_gt
  = OK (Q2Qc (6755399441055743 # 9007199254740992))
  ∧ @Rounded.dice_score binary64 (np_map Z.opp thirds_pred) thirds_gt
    = OK (Q2Qc (3 # 4))
  ∧ dice_score thirds_pred thirds_gt = OK (Q2Qc (3 # 4)).
Proof. repeat split; result_eval. Qed.

(** C10 (amended).  Renaming the instance ids of the two arrays by injective
    functions leaves the best score of every instance of [x] as it is: the
    best scores of the renamed pair are those of the original pair in a
    possibly different order (or both calls raise the same exception).
    [dice_score] is the float average of these scores taken in the increasing
    order of the ids of [x]; it is unchanged when the renaming of [x] is
    increasing, and unchanged without rounding. *)
Theorem dice_score_relabel_best_scores `{FloatArith} (σ τ : Z -> Z) (x y : ndarray Z) :
  Inj (=) (=) σ -> Inj (=) (=) τ ->
  same_outcome (Rounded.best_scores (np_map σ x) (np_map τ y))
               (Rounded.best_scores x y)
  ∧ Rounded.dice_score x y
    = (bests ← Rounded.best_scores x y;
       if decide (length (np_unique x) = 0%nat) then Error ZeroDivisionError
       else OK (fl (float_sum bests / py_float (Z.of_nat (length (np_unique x))))%Qc))
  ∧ ((∀ a b, a < b -> σ a < σ b) ->
     Rounded.dice_score (np_map σ x) (np_map τ y) = Rounded.dice_score x y)
  ∧ @Rounded.dice_score exact_arithmetic (np_map σ x) (np_map τ y)
    = @Rounded.dice_score exact_arithmetic x y.
Proof.
  intros Hσ Hτ. split; [by apply rounded_best_scores_relabel|].
  split; [apply rounded_dice_score_best_scores|]. split.
  - intros Hinc. rewrite !rounded_dice_score_best_scores. unfold Rounded.best_scores.
    rewrite (np_unique_increasing σ x Hinc), mapM_map, length_map.
    by rewrite (mapM_ext _ (Rounded.best_match x y (np_unique y)))
      by (intros v _; by apply rounded_best_match_relabel).
  - rewrite !rounded_dice_score_exact, !dice_score_mapM.
    pose proof (rounded_best_scores_relabel (H := exact_arithmetic) σ τ x y) as Hsame.
    unfold Rounded.best_scores in Hsame.
    rewrite (mapM_ext _ (best_match (np_map σ x) (np_map τ y) (np_unique (np_map τ y))))
      in Hsame by (intros; apply rounded_best_match_exact).
    rewrite (mapM_ext (Rounded.best_match x y (np_unique y))
               (best_match x y (np_unique y)))
      in Hsame by (intros; apply rounded_best_match_exact).
    assert (length (np_unique (np_map σ x)) = length (np_unique x)) as ->.
    { rewrite (np_unique_relabel σ x). apply length_map. }
    unfold same_outcome in Hsame.
    destruct (mapM _ (np_unique (np_map σ x))), (mapM _ (np_unique x));
      simpl; try done; [|congruence].
    case_decide; [done|]. do 2 f_equal. by apply foldl_Qcplus_perm.
Qed.

Lemma dice_score_relabel_best_scores_witness :
  same_outcome (@Rounded.best_scores binary64 (np_map Z.opp thirds_pred)
                  (np_map Z.succ thirds_gt))
               (@Rounded.best_scores binary64 thirds_pred thirds_gt).
Proof.
  apply (@dice_score_relabel_best_scores binary64 Z.opp Z.succ thirds_pred thirds_gt).
  - exact Zopp_inj.
  - exact Zsucc_inj.
Defined.

(** *** The value of [dice_score] on two arrays over the same pixels *)

Lemma instance_size_le x v : instance_size x v ≤ Z.of_nat (length (data x)).
Proof. unfold instance_size. pose proof (length_filter (fun e => e = v) (data x)). lia. Qed.

Lemma sorted_distinct_values vs x :
  StronglySorted Z.lt vs -> distinct_values vs x -> vs = np_unique x.
Proof.
  intros Hs Hd. apply (StronglySorted_unique_strong Z.lt).
  - intros a b _ _ Hab Hba. lia.
  - done.
  - apply np_unique_sorted.
  - eapply distinct_values_perm; [done | apply np_unique_distinct].
Qed.

Section RoundedValue.
Context `{FloatArith}.
Hypothesis rounding : correctly_rounded _.

#[local] Open Scope Qc_scope.

Lemma float_dice_coefficient_bounds x y v w :
  0 ≤ float_dice_coefficient x y v w ∧ float_dice_coefficient x y v w ≤ 1.
Proof.
  destruct (dice_coefficient_bounds x y v w) as [H0 H1].
  unfold float_dice_coefficient. split.
  - by apply (fl_nonneg _ rounding).
  - rewrite <-Z2Qc_inj_1. apply (fl_below_int _ rounding); [lia|].
    by rewrite Z2Qc_inj_1.
Qed.

Lemma float_sum_bounds (l : list Qc) (acc : Qc) (k : Z) :
  (0 ≤ k)%Z -> (k + Z.of_nat (length l) < 2 ^ 53)%Z ->
  0 ≤ acc -> acc ≤ Qc_of_Z k ->
  Forall (fun m => 0 ≤ m ∧ m ≤ 1) l ->
  0 ≤ foldl (fun total m => fl (total + m)) acc l
  ∧ foldl (fun total m => fl (total + m)) acc l ≤ Qc_of_Z (k + Z.of_nat (length l)).
Proof.
  intros Hk Hlen Hacc0 Hacck Hl. revert acc k Hk Hlen Hacc0 Hacck.
  induction Hl as [|m l [Hm0 Hm1] Hl IH]; intros acc k Hk Hlen Hacc0 Hacck.
  - simpl. by rewrite Z.add_0_r.
  - simpl foldl. simpl length in *.
    replace (k + Z.of_nat (S (length l)))%Z with ((k + 1) + Z.of_nat (length l))%Z
      by lia.
    apply IH; [lia | lia | |].
    + apply (fl_nonneg _ rounding). by apply Qcplus_nonneg_nonneg.
    + apply (fl_below_int _ rounding); [lia|].
      rewrite Z2Qc_inj_add, Z2Qc_inj_1. by apply Qcplus_le_compat.
Qed.

Lemma rounded_dice_pair_same_extent x y v w :
  wf_array x -> wf_array y -> same_extent x y -> v ∈ data x ->
  (2 * Z.of_nat (length (data x)) < 2 ^ 53)%Z ->
  Rounded.dice_pair x y v w = OK (float_dice_coefficient x y v w).
Proof.
  intros Hx Hy Hs Hv Hsmall.
  unfold Rounded.dice_pair, np_logical_and, np_add.
  destruct (np_binop_same_extent
              (fun p q => negb (p =? 0)%Z && negb (q =? 0)%Z)
              (np_where_eq x v) (np_where_eq y w)) as [s1 ->];
    [by apply wf_np_where_eq.. | done |].
  destruct (np_binop_same_extent Z.add (np_where_eq x v) (np_where_eq y w))
    as [s2 ->]; [by apply wf_np_where_eq.. | done |].
  simpl. unfold np_sum_bool, np_sum. simpl.
  rewrite mask_overlap_count, mask_sum_count by (by apply same_extent_length).
  fold (instance_overlap x y v w) (instance_size x v) (instance_size y w).
  destruct (instance_overlap_bounds x y v w) as [Ho0 Ho2].
  pose proof (instance_size_le x v). pose proof (instance_size_le y w).
  pose proof (instance_size_pos x v Hv). pose proof (instance_size_nonneg y w).
  pose proof (same_extent_length x y Hx Hy Hs) as Hlen.
  unfold py_float.
  rewrite !(fl_exact_int _ rounding) by lia.
  rewrite <-Z2Qc_inj_2, <-Z2Qc_inj_mul, (fl_exact_int _ rounding) by lia.
  unfold np_true_divide. rewrite decide_False.
  - simpl. unfold float_dice_coefficient, dice_coefficient.
    by rewrite Z2Qc_inj_mul.
  - rewrite <-Z2Qc_inj_0. intros Heq%Z2Qc_inj. lia.
Qed.

Lemma rounded_best_match_same_extent x y ws0 ws v :
  wf_array x -> wf_array y -> same_extent x y -> v ∈ data x ->
  (2 * Z.of_nat (length (data x)) < 2 ^ 53)%Z ->
  ws ≠ [] -> (∀ w, w ∈ ws0 ↔ w ∈ ws) ->
  Rounded.best_match x y ws0 v = OK (max_over ws (float_dice_coefficient x y v)).
Proof.
  intros Hx Hy Hs Hv Hsmall Hne Hel. rewrite rounded_best_match_mapM.
  rewrite (mapM_pure _ (float_dice_coefficient x y v))
    by (intros w _; by apply rounded_dice_pair_same_extent).
  simpl. f_equal. apply foldl_py_max2_max_over; [done..|].
  intros w. apply float_dice_coefficient_bounds.
Qed.

Lemma rounded_dice_score_same_extent x y vs ws :
  wf_array x -> wf_array y -> same_extent x y -> data x ≠ [] ->
  (2 * Z.of_nat (length (data x)) < 2 ^ 53)%Z ->
  distinct_values vs x -> StronglySorted Z.lt vs -> distinct_values ws y ->
  Rounded.dice_score x y = OK (dice_score_float_spec x y vs ws)
  ∧ 0 ≤ dice_score_float_spec x y vs ws ∧ dice_score_float_spec x y vs ws ≤ 1.
Proof.
  intros Hx Hy Hs Hne Hsmall Hvs Hsorted Hws.
  assert (data y ≠ []) as Hney.
  { intros Hnil. apply Hne. apply length_zero_iff_nil.
    by rewrite (same_extent_length x y), Hnil. }
  pose proof (distinct_values_nonempty _ _ Hws Hney) as Hwne.
  pose proof (distinct_values_nonempty _ _ Hvs Hne) as Hvne.
  pose proof (sorted_distinct_values vs x Hsorted Hvs) as Hvs'.
  assert (Z.of_nat (length vs) ≤ Z.of_nat (length (data x)))%Z as Hcount.
  { destruct Hvs as [Hnd Hel]. apply inj_le, submseteq_length, NoDup_submseteq; [done|].
    intros v. apply Hel. }
  assert (Forall (fun m => 0 ≤ m ∧ m ≤ 1)
            (map (fun v => max_over ws (float_dice_coefficient x y v)) vs)) as Hbests.
  { apply Forall_forall. intros m Hm.
    change (m ∈ (fun v => max_over ws (float_dice_coefficient x y v)) <$> vs) in Hm.
    apply list_elem_of_fmap in Hm as (v & -> & _).
    apply max_over_bounds. intros w. apply float_dice_coefficient_bounds. }
  destruct (float_sum_bounds
              (map (fun v => max_over ws (float_dice_coefficient x y v)) vs) 0 0)
    as [Hsum0 Hsum1]; [lia | rewrite length_map; lia | done | done | done |].
  rewrite length_map, Z.add_0_l in Hsum1.
  fold (float_sum (map (fun v => max_over ws (float_dice_coefficient x y v)) vs))
    in Hsum0, Hsum1.
  split.
  - rewrite rounded_dice_score_best_scores. unfold Rounded.best_scores.
    rewrite <-Hvs'.
    rewrite (mapM_pure _ (fun v => max_over ws (float_dice_coefficient x y v)));
      last first.
    { intros v Hv. apply rounded_best_match_same_extent; try done.
      - by apply Hvs.
      - intros w. rewrite elem_of_np_unique. symmetry. apply Hws. }
    simpl. rewrite decide_False by (by intros ?%length_zero_iff_nil).
    unfold dice_score_float_spec, py_float.
    by rewrite (fl_exact_int _ rounding) by lia.
  - unfold dice_score_float_spec.
    destruct (Qcdiv_bounds _ _ Hsum0 Hsum1) as [Hq0 Hq1]. split.
    + by apply (fl_nonneg _ rounding).
    + rewrite <-Z2Qc_inj_1. apply (fl_below_int _ rounding); [lia|].
      by rewrite Z2Qc_inj_1.
Qed.
End RoundedValue.

Lemma stripes_distinct_values :
  distinct_values [1; 2]%Z stripes_pred ∧ distinct_values [2; 1]%Z stripes_gt.
Proof.
  split; (split; [repeat constructor; rewrite ?elem_of_cons, ?elem_of_nil; intuition lia|]);
    intros v; simpl; rewrite !elem_of_cons, !elem_of_nil; intuition lia.
Qed.

(** C2 (as stated): on a column and a row, which numpy broadcasts to a 2 x 2
    table, [dice_score] is 1/2, although the two arrays hold the same values
    in the same order and the average of the best Dice coefficients is 1; two
    arrays whose shapes do not broadcast have no score; and on two rows of
    five pixels the float average 0.7499999999999999 is not the average
    3/4. *)
Lemma dice_score_average_counterexample :
  ¬ (∀ (x y : ndarray Z) (vs ws : list Z),
       wf_array x -> wf_array y -> data x ≠ [] -> data y ≠ [] ->
       distinct_values vs x -> distinct_values ws y ->
       @Rounded.dice_score binary64 x y = OK (dice_score_spec x y vs ws))
  ∧ @Rounded.dice_score binary64 (mk_ndarray [3]%nat [1; 1; 2]%Z) stripes_gt
    = Error ValueError
  ∧ ¬ (∀ (x y : ndarray Z) (vs ws : list Z),
         wf_array x -> wf_array y -> same_extent x y -> data x ≠ [] ->
         distinct_values vs x -> distinct_values ws y ->
         @Rounded.dice_score binary64 x y = OK (dice_score_spec x y vs ws)).
Proof.
  assert (∀ (s : list nat) (l : list Z), NoDup l -> distinct_values l (mk_ndarray s l))
    as Hlist by (by intros s l Hl; split).
  assert (NoDup [1; 2]%Z ∧ NoDup [0; 1; 2; 3]%Z) as [Hnd2 Hnd4]
    by (split; repeat constructor; rewrite ?elem_of_cons, ?elem_of_nil; intuition lia).
  split; [|split; [vm_compute; reflexivity|]]; intros Hall.
  - specialize (Hall (mk_ndarray [2; 1]%nat [1; 2]%Z) (mk_ndarray [1; 2]%nat [1; 2]%Z)
                  [1; 2]%Z [1; 2]%Z eq_refl eq_refl ltac:(discriminate)
                  ltac:(discriminate) (Hlist _ _ Hnd2) (Hlist _ _ Hnd2)).
    vm_compute in Hall. discriminate.
  - assert (distinct_values [0; 1; 2; 3]%Z thirds_pred
            ∧ distinct_values [0; 1; 2; 3]%Z thirds_gt) as [Hd1 Hd2].
    { split; (split; [done|]); intros v; simpl;
        rewrite !elem_of_cons, !elem_of_nil; intuition lia. }
    specialize (Hall thirds_pred thirds_gt [0; 1; 2; 3]%Z [0; 1; 2; 3]%Z
                  eq_refl eq_refl eq_refl ltac:(discriminate) Hd1 Hd2).
    vm_compute in Hall. discriminate.
Qed.

(** C2 (amended).  For two non-empty integer arrays over the same pixels (one
    shape up to leading axes of length one, fewer than 2^52 entries),
    [dice_score x y] is the floating point average, over the distinct values
    [v] of [x] in increasing order, of the maximum over the distinct values
    [w] of [y] of the rounded Dice coefficient
    2|{x=v} ∩ {y=w}| / (|{x=v}| + |{y=w}|): the coefficients are rounded
    quotients, the maxima are added from the left with a rounding after each
    addition, and the sum is divided by the number of values of [x] with a
    last rounding.  The score lies between 0 and 1, and without rounding it
    is the average itself, whatever the order of the values. *)
Theorem dice_score_float_average `{FloatArith} (x y : ndarray Z) (vs ws : list Z) :
  correctly_rounded _ ->
  wf_array x -> wf_array y -> same_extent x y -> data x ≠ [] ->
  2 * Z.of_nat (length (data x)) < 2 ^ 53 ->
  distinct_values vs x -> distinct_values ws y ->
  (StronglySorted Z.lt vs ->
   Rounded.dice_score x y = OK (dice_score_float_spec x y vs ws)
   ∧ (0 ≤ dice_score_float_spec x y vs ws)%Qc
   ∧ (dice_score_float_spec x y vs ws ≤ 1)%Qc)
  ∧ @Rounded.dice_score exact_arithmetic x y = OK (dice_score_spec x y vs ws)
  ∧ (0 ≤ dice_score_spec x y vs ws)%Qc ∧ (dice_score_spec x y vs ws ≤ 1)%Qc.
Proof.
  intros Hround Hx Hy Hs Hne Hsmall Hvs Hws. split; [|split].
  - intros Hsorted. by apply rounded_dice_score_same_extent.
  - rewrite rounded_dice_score_exact. by apply dice_score_enumerated.
  - apply dice_score_spec_bounds.
Qed.

Lemma dice_score_float_average_witness :
  (@Rounded.dice_score binary64 stripes_pred stripes_gt
   = OK (@dice_score_float_spec binary64 stripes_pred stripes_gt [1; 2]%Z [2; 1]%Z)
   ∧ (0 ≤ @dice_score_float_spec binary64 stripes_pred stripes_gt [1; 2]%Z [2; 1]%Z)%Qc
   ∧ (@dice_score_float_spec binary64 stripes_pred stripes_gt [1; 2]%Z [2; 1]%Z ≤ 1)%Qc)
  ∧ @Rounded.dice_score exact_arithmetic stripes_pred stripes_gt
    = OK (dice_score_spec stripes_pred stripes_gt [1; 2]%Z [2; 1]%Z)
  ∧ (0 ≤ dice_score_spec stripes_pred stripes_gt [1; 2]%Z [2; 1]%Z)%Qc
  ∧ (dice_score_spec stripes_pred stripes_gt [1; 2]%Z [2; 1]%Z ≤ 1)%Qc.
Proof.
  destruct (@dice_score_float_average binary64 stripes_pred stripes_gt
              [1; 2]%Z [2; 1]%Z binary64_correctly_rounded eq_refl eq_refl eq_refl
              ltac:(discriminate) eq_refl
              (proj1 stripes_distinct_values) (proj2 stripes_distinct_values))
    as [Hfloat Hexact].
  split; [|exact Hexact]. apply Hfloat.
  repeat constructor; lia.
Defined.

(** The formula on the five-pixel example, where the rounding shows:
    (1 + 2/3 + 2/3 + 2/3) / 4 in floats. *)
Example dice_score_float_spec_thirds :
  @dice_score_float_spec binary64 thirds_pred thirds_gt [0; 1; 2; 3]%Z [0; 1; 2; 3]%Z
  = Q2Qc (6755399441055743 # 9007199254740992)
  ∧ dice_score_spec thirds_pred thirds_gt [0; 1; 2; 3]%Z [0; 1; 2; 3]%Z = Q2Qc (3 # 4).
Proof. split; qc_eval. Qed.

#[local] Close Scope Qc_scope.

#[local] Open Scope Qc_scope.

(** * Further properties *)

(** ** The Dice scorer on a labeling and its renaming *)

Lemma size_relabel (τ : Z -> Z) `{!Inj (=) (=) τ} (l : list Z) v :
  length (filter (fun e => e = τ v) (map τ l)) = length (filter (fun e => e = v) l).
Proof.
  induction l as [|a l IH]; simpl; [done|].
  rewrite !filter_cons. destruct (decide (a = v)) as [->|Hne].
  - rewrite decide_True by done. simpl. by rewrite IH.
  - rewrite decide_False; [done|]. intros Heq. by apply (inj τ) in Heq.
Qed.

Lemma overlap_relabel_self (τ : Z -> Z) `{!Inj (=) (=) τ} (l : list Z) v :
  length (filter (fun p => fst p = v ∧ snd p = τ v) (zip l (map τ l)))
  = length (filter (fun e => e = v) l).
Proof.
  induction l as [|a l IH]; simpl; [done|].
  rewrite !filter_cons. simpl. destruct (decide (a = v)) as [->|Hne].
  - rewrite decide_True by done. simpl. by rewrite IH.
  - rewrite decide_False; [done|]. intros [? _]. done.
Qed.

Lemma Qcdiv_double (s : Qc) : s ≠ 0 -> 2 * s / (s + s) = 1.
Proof.
  intros Hs. replace (s + s) with (2 * s) by ring.
  apply Qcmult_inv_r. intros [H2|Hs']%Qcmult_integral; [|done].
  exact (Qclt_not_eq 0 2 eq_refl (eq_sym H2)).
Qed.

Lemma dice_coefficient_relabel_self (τ : Z -> Z) `{!Inj (=) (=) τ} x v :
  v ∈ data x -> dice_coefficient x (np_map τ x) v (τ v) = 1.
Proof.
  intros Hv. unfold dice_coefficient, instance_overlap, instance_size. simpl.
  rewrite overlap_relabel_self, size_relabel by done.
  fold (instance_size x v). rewrite Z2Qc_inj_add. apply Qcdiv_double.
  rewrite <-Z2Qc_inj_0. intros Heq%Z2Qc_inj.
  pose proof (instance_size_pos x v Hv). lia.
Qed.

Lemma sum_over_ext vs (f g : Z -> Qc) :
  (∀ v, v ∈ vs -> f v = g v) -> sum_over vs f = sum_over vs g.
Proof.
  unfold sum_over. induction vs as [|v vs IH]; intros Hfg; simpl; [done|].
  rewrite (Hfg v) by left. rewrite IH; [done|]. intros u Hu. apply Hfg. by right.
Qed.

Lemma sum_over_ones vs : sum_over vs (fun _ => 1) = Qc_of_Z (Z.of_nat (length vs)).
Proof.
  unfold sum_over. induction vs as [|v vs IH]; simpl foldr; simpl length.
  - exact (eq_sym Z2Qc_inj_0).
  - rewrite IH, Nat2Z.inj_succ, <-Z.add_1_l, Z2Qc_inj_add, Z2Qc_inj_1. done.
Qed.

Lemma max_over_reaches_one ws (f : Z -> Qc) w :
  w ∈ ws -> f w = 1 -> (∀ u, f u ≤ 1) -> max_over ws f = 1.
Proof.
  intros Hw Hfw Hle.
  assert (ws ≠ []) as Hne by (intros ->; by apply elem_of_nil in Hw).
  destruct (max_over_is_max ws f Hne) as [Hin Hub].
  apply Qcle_antisym.
  - change (max_over ws f ∈ f <$> ws) in Hin.
    apply list_elem_of_fmap in Hin as (u & -> & _). apply Hle.
  - rewrite <-Hfw. apply Hub. change (f w ∈ f <$> ws). by apply list_elem_of_fmap_2.
Qed.

Lemma dice_score_spec_relabel_self (τ : Z -> Z) `{!Inj (=) (=) τ} x vs :
  data x ≠ [] -> distinct_values vs x ->
  dice_score_spec x (np_map τ x) vs (map τ vs) = 1.
Proof.
  intros Hne Hvs. unfold dice_score_spec.
  rewrite (sum_over_ext _ _ (fun _ => 1)); last first.
  { intros v Hv. apply (max_over_reaches_one _ _ (τ v)).
    - change (τ v ∈ τ <$> vs). by apply list_elem_of_fmap_2.
    - apply dice_coefficient_relabel_self; [done|]. by apply Hvs.
    - intros u. apply dice_coefficient_bounds. }
  rewrite sum_over_ones. apply Qcmult_inv_r.
  rewrite <-Z2Qc_inj_0. intros Heq%Z2Qc_inj.
  pose proof (distinct_values_nonempty _ _ Hvs Hne). destruct vs; simpl in *; [done | lia].
Qed.

Lemma overlap_relabel_self_rev (τ : Z -> Z) `{!Inj (=) (=) τ} (l : list Z) v :
  length (filter (fun p => fst p = τ v ∧ snd p = v) (zip (map τ l) l))
  = length (filter (fun e => e = v) l).
Proof.
  induction l as [|a l IH]; simpl; [done|].
  rewrite !filter_cons. simpl. destruct (decide (a = v)) as [->|Hne].
  - rewrite decide_True by done. simpl. by rewrite IH.
  - rewrite decide_False; [done|]. intros [_ ?]. done.
Qed.

Lemma dice_coefficient_relabel_self_rev (τ : Z -> Z) `{!Inj (=) (=) τ} x v :
  v ∈ data x -> dice_coefficient (np_map τ x) x (τ v) v = 1.
Proof.
  intros Hv. unfold dice_coefficient, instance_overlap, instance_size. simpl.
  rewrite overlap_relabel_self_rev, size_relabel by done.
  fold (instance_size x v). rewrite Z2Qc_inj_add. apply Qcdiv_double.
  rewrite <-Z2Qc_inj_0. intros Heq%Z2Qc_inj.
  pose proof (instance_size_pos x v Hv). lia.
Qed.

Lemma dice_score_spec_relabel_self_rev (τ : Z -> Z) `{!Inj (=) (=) τ} x vs :
  data x ≠ [] -> distinct_values vs x ->
  dice_score_spec (np_map τ x) x (map τ vs) vs = 1.
Proof.
  intros Hne Hvs. unfold dice_score_spec.
  rewrite (sum_over_ext _ _ (fun _ => 1)); last first.
  { intros u Hu. change (u ∈ τ <$> vs) in Hu.
    apply list_elem_of_fmap in Hu as (v & -> & Hv).
    apply (max_over_reaches_one _ _ v); [done | |].
    - apply dice_coefficient_relabel_self_rev; [done|]. by apply Hvs.
    - intros w. apply dice_coefficient_bounds. }
  rewrite sum_over_ones, length_map. apply Qcmult_inv_r.
  rewrite <-Z2Qc_inj_0. intros Heq%Z2Qc_inj.
  pose proof (distinct_values_nonempty _ _ Hvs Hne). destruct vs; simpl in *; [done | lia].
Qed.

Lemma np_map_id {A} (x : ndarray A) : np_map (fun v => v) x = x.
Proof. destruct x as [s d]. unfold np_map. simpl. by rewrite map_id. Qed.

(** X1.  A non-empty well-formed labeling scored against itself gets Dice 1. *)
Theorem dice_score_self (x : ndarray Z) :
  wf_array x -> data x ≠ [] -> dice_score x x = OK 1.
Proof.
  intros Hwf Hne.
  pose proof (np_unique_distinct x) as Hvs.
  assert (Inj (=) (=) (fun v : Z => v)) as Hid by (intros a b Hab; exact Hab).
  rewrite (dice_score_enumerated x x (np_unique x) (map (fun v => v) (np_unique x)));
    try done.
  - f_equal. rewrite <-(np_map_id x) at 2.
    by apply (dice_score_spec_relabel_self (fun v => v)).
  - rewrite map_id. done.
Qed.

Lemma dice_score_self_witness : dice_score stripes_pred stripes_pred = OK 1.
Proof. apply (dice_score_self stripes_pred); [reflexivity | discriminate]. Defined.

(** X2.  Scoring a non-empty labeling against a copy whose instance ids were
    renamed by an injective function gives Dice 1, in both directions and for
    [best_symmetric_dice]: only the partition into instances counts. *)
Theorem dice_score_renamed_copy (τ : Z -> Z) (x : ndarray Z) :
  Inj (=) (=) τ -> wf_array x -> data x ≠ [] ->
  dice_score x (np_map τ x) = OK 1
  ∧ dice_score (np_map τ x) x = OK 1
  ∧ best_symmetric_dice x (np_map τ x) = OK 1.
Proof.
  intros Hτ Hwf Hne.
  pose proof (np_unique_distinct x) as Hvs.
  assert (dice_score x (np_map τ x) = OK 1) as H1.
  { rewrite (dice_score_enumerated x (np_map τ x) (np_unique x) (map τ (np_unique x)));
      try done.
    - f_equal. by apply dice_score_spec_relabel_self.
    - unfold wf_array in *. simpl. by rewrite length_map.
    - by apply distinct_values_relabel. }
  assert (dice_score (np_map τ x) x = OK 1) as H2.
  { rewrite (dice_score_enumerated (np_map τ x) x (map τ (np_unique x)) (np_unique x));
      try done.
    - f_equal. by apply dice_score_spec_relabel_self_rev.
    - unfold wf_array in *. simpl. by rewrite length_map.
    - simpl. intros Hnil. apply Hne. by destruct (data x).
    - by apply distinct_values_relabel. }
  split; [done|]. split; [done|].
  unfold best_symmetric_dice. by rewrite H1, H2.
Qed.

Lemma dice_score_renamed_copy_witness :
  dice_score inverse_pred (np_map Z.succ inverse_pred) = OK 1
  ∧ dice_score (np_map Z.succ inverse_pred) inverse_pred = OK 1
  ∧ best_symmetric_dice inverse_pred (np_map Z.succ inverse_pred) = OK 1.
Proof.
  apply (dice_score_renamed_copy Z.succ inverse_pred).
  - exact Zsucc_inj.
  - reflexivity.
  - discriminate.
Defined.

(** ** Empty arrays and arrays of different shapes *)

Lemma np_unique_nil x : data x = [] -> np_unique x = [].
Proof. unfold np_unique. by intros ->. Qed.

Lemma np_unique_nonempty x : data x ≠ [] -> ∃ v vs, np_unique x = v :: vs.
Proof.
  intros Hne. destruct (np_unique x) as [|v vs] eqn:Hu; [|eauto].
  destruct (data x) as [|a l] eqn:Hd; [done|].
  assert (a ∈ np_unique x) as Hin by (apply elem_of_np_unique; rewrite Hd; left).
  rewrite Hu in Hin. by apply elem_of_nil in Hin.
Qed.

Lemma foldl_Qcplus_zeros {A} (l : list A) :
  foldl Qcplus 0 (map (fun _ => 0) l) = 0.
Proof.
  rewrite foldl_Qcplus_sum, Qcplus_0_l.
  induction l as [|a l IH]; simpl; [done|]. by rewrite IH, Qcplus_0_l.
Qed.

(** X3.  With an empty first array [dice_score] raises ZeroDivisionError
    (there is no instance to average over); with a non-empty first array and
    an empty second one it returns 0, whatever the shapes. *)
Theorem dice_score_empty_arrays (x y : ndarray Z) :
  (data x = [] -> dice_score x y = Error ZeroDivisionError)
  ∧ (data x ≠ [] -> data y = [] -> dice_score x y = OK 0).
Proof.
  split.
  - intros Hx. unfold dice_score. by rewrite (np_unique_nil x Hx).
  - intros Hx Hy. rewrite dice_score_mapM, (np_unique_nil y Hy).
    rewrite (mapM_pure _ (fun _ => 0)) by done. simpl.
    destruct (np_unique_nonempty x Hx) as (v & vs & ->).
    rewrite decide_False by done. f_equal.
    rewrite foldl_Qcplus_zeros. unfold Qcdiv. apply Qcmult_0_l.
Qed.

Lemma dice_score_empty_arrays_witness :
  dice_score (mk_ndarray [0]%nat []) stripes_gt = Error ZeroDivisionError.
Proof.
  apply (proj1 (dice_score_empty_arrays (mk_ndarray [0]%nat []) stripes_gt)).
  reflexivity.
Defined.

Lemma dice_pair_incompatible x y v w :
  broadcast_shapes (shape x) (shape y) = None ->
  dice_pair x y v w = Error ValueError.
Proof.
  intros Hs. unfold dice_pair, np_logical_and, np_binop. simpl. by rewrite Hs.
Qed.

(** X4.  For two non-empty arrays whose shapes do not broadcast,
    [dice_score] and [best_symmetric_dice] raise ValueError. *)
Theorem dice_score_incompatible_shapes (x y : ndarray Z) :
  broadcast_shapes (shape x) (shape y) = None ->
  data x ≠ [] -> data y ≠ [] ->
  dice_score x y = Error ValueError
  ∧ best_symmetric_dice x y = Error ValueError.
Proof.
  intros Hs Hx Hy.
  assert (dice_score x y = Error ValueError) as Hd.
  { rewrite dice_score_mapM.
    destruct (np_unique_nonempty x Hx) as (v & vs & ->).
    destruct (np_unique_nonempty y Hy) as (w & ws & ->).
    simpl. rewrite best_match_mapM. simpl.
    by rewrite (dice_pair_incompatible x y v w Hs). }
  split; [done|]. unfold best_symmetric_dice. by rewrite Hd.
Qed.

Lemma dice_score_incompatible_shapes_witness :
  dice_score (mk_ndarray [3]%nat [1; 1; 2]%Z) stripes_gt = Error ValueError
  ∧ best_symmetric_dice (mk_ndarray [3]%nat [1; 1; 2]%Z) stripes_gt = Error ValueError.
Proof.
  apply (dice_score_incompatible_shapes (mk_ndarray [3]%nat [1; 1; 2]%Z) stripes_gt).
  - reflexivity.
  - discriminate.
  - discriminate.
Defined.

(** X5.  On two non-empty well-formed arrays over the same pixels
    [best_symmetric_dice] returns a score between 0 and 1 that is at least the
    [dice_score] of either direction. *)
Theorem best_symmetric_dice_bounds (pred gt : ndarray Z) :
  wf_array pred -> wf_array gt -> same_extent pred gt -> data pred ≠ [] ->
  ∃ m s1 s2,
    best_symmetric_dice pred gt = OK m
    ∧ dice_score pred gt = OK s1 ∧ dice_score gt pred = OK s2
    ∧ 0 ≤ m ∧ m ≤ 1 ∧ s1 ≤ m ∧ s2 ≤ m.
Proof.
  intros Hp Hg Hs Hne.
  assert (data gt ≠ []) as Hneg.
  { intros Hnil. apply Hne, length_zero_iff_nil.
    by rewrite (same_extent_length pred gt), Hnil. }
  pose proof (dice_score_enumerated pred gt _ _ Hp Hg Hs Hne
                (np_unique_distinct pred) (np_unique_distinct gt)) as H1.
  pose proof (dice_score_enumerated gt pred _ _ Hg Hp (same_extent_sym _ _ Hs) Hneg
                (np_unique_distinct gt) (np_unique_distinct pred)) as H2.
  destruct (dice_score_spec_bounds pred gt (np_unique pred) (np_unique gt)) as [Ha0 Ha1].
  destruct (dice_score_spec_bounds gt pred (np_unique gt) (np_unique pred)) as [Hb0 Hb1].
  eexists _, _, _. split; [|split; [exact H1|split; [exact H2|]]].
  - unfold best_symmetric_dice. rewrite H1, H2. reflexivity.
  - split; [|split; [|split]].
    + apply Qcle_trans with (dice_score_spec pred gt (np_unique pred) (np_unique gt));
        [done | apply py_max2_ub_l].
    + by apply py_max2_lub.
    + apply py_max2_ub_l.
    + apply py_max2_ub_r.
Qed.

Lemma best_symmetric_dice_bounds_witness :
  ∃ m s1 s2,
    best_symmetric_dice stripes_pred stripes_gt = OK m
    ∧ dice_score stripes_pred stripes_gt = OK s1
    ∧ dice_score stripes_gt stripes_pred = OK s2
    ∧ 0 ≤ m ∧ m ≤ 1 ∧ s1 ≤ m ∧ s2 ≤ m.
Proof.
  apply (best_symmetric_dice_bounds stripes_pred stripes_gt).
  - reflexivity.
  - reflexivity.
  - reflexivity.
  - discriminate.
Defined.

#[local] Close Scope Qc_scope.

(** ** The Label Predictor: shape, blocks, points, failures *)

Lemma ceil_div_lt (n f : nat) : f ≠ 0%nat -> (ceil_div n f * f < n + f)%nat.
Proof.
  intros Hf. unfold ceil_div.
  pose proof (Nat.div_mod_eq (n + f - 1) f). nia.
Qed.

(** X6.  Whenever [predict_label] returns on a (c,h,w) feature map, the mask
    is a well-formed two-dimensional array whose sides are h and w rounded up
    to the next multiple of the downsample factor; when the factor divides h
    and w (in particular for factor 1) the mask is h by w. *)
Theorem predict_label_mask_shape `{Postproc} (features : ndarray Qc) (f : nat)
    (mask : ndarray Z) (c h w : nat) :
  shape features = [c; h; w] ->
  predict_label features f = OK mask ->
  ∃ H W : nat,
    shape mask = [H; W] ∧ wf_array mask
    ∧ (f | H)%nat ∧ (f | W)%nat
    ∧ (h ≤ H < h + f)%nat ∧ (w ≤ W < w + f)%nat
    ∧ ((f | h)%nat -> (f | w)%nat -> shape mask = [h; w]).
Proof.
  intros Hs Hrun.
  pose proof (predict_label_inv _ _ _ Hrun)
    as (c' & h' & w' & pts & red & raw & Hs' & Hf & _ & _ & _ & _ & _ & _ & ->).
  rewrite Hs in Hs'. injection Hs' as <- <- <-.
  exists (ceil_div h f * f)%nat, (ceil_div w f * f)%nat.
  split; [done|]. split.
  { unfold wf_array. simpl. rewrite length_map, tabulate2_length.
    unfold prod_shape. simpl. lia. }
  split; [by exists (ceil_div h f)|]. split; [by exists (ceil_div w f)|].
  split; [split; [by apply ceil_div_ge | by apply ceil_div_lt]|].
  split; [split; [by apply ceil_div_ge | by apply ceil_div_lt]|].
  intros Hh Hw. simpl. by rewrite !ceil_div_exact.
Qed.

Lemma predict_label_mask_shape_witness :
  ∃ H W : nat,
    shape (mk_ndarray [4; 4]%nat (replicate 16 1)) = [H; W]
    ∧ wf_array (mk_ndarray [4; 4]%nat (replicate 16 1))
    ∧ (2 | H)%nat ∧ (2 | W)%nat
    ∧ (3 ≤ H < 3 + 2)%nat ∧ (3 ≤ W < 3 + 2)%nat
    ∧ ((2 | 3)%nat -> (2 | 3)%nat ->
       shape (mk_ndarray [4; 4]%nat (replicate 16 1)) = [3; 3]%nat).
Proof.
  apply (@predict_label_mask_shape toy_postproc features_1x3x3 2 _ 1%nat 3%nat 3%nat).
  - reflexivity.
  - vm_compute. reflexivity.
Defined.

(** X7.  The mask returned by [predict_label] is constant on every block of
    factor x factor pixels: the pixel (r, c) carries the value of the
    top-left pixel of its block. *)
Theorem predict_label_mask_blocks `{Postproc} (features : ndarray Qc) (f : nat)
    (mask : ndarray Z) :
  predict_label features f = OK mask ->
  ∃ H W : nat,
    shape mask = [H; W]
    ∧ ∀ r c, (r < H)%nat -> (c < W)%nat ->
        is_Some (data mask !! (r * W + c)%nat)
        ∧ data mask !! (r * W + c)%nat
          = data mask !! (r / f * f * W + c / f * f)%nat.
Proof.
  intros Hrun.
  pose proof (predict_label_inv _ _ _ Hrun)
    as (c0 & h & w & pts & red & raw & _ & Hf & _ & _ & _ & _ & _ & _ & ->).
  exists (ceil_div h f * f)%nat, (ceil_div w f * f)%nat.
  split; [done|]. intros r c Hr Hc. simpl.
  change (map float_to_int32 ?l) with (float_to_int32 <$> l).
  assert (r / f * f ≤ r)%nat by (pose proof (Nat.div_mod_eq r f); lia).
  assert (c / f * f ≤ c)%nat by (pose proof (Nat.div_mod_eq c f); lia).
  rewrite !list_lookup_fmap, !tabulate2_lookup by lia. simpl.
  split; [eauto|]. by rewrite !Nat.div_mul.
Qed.

Lemma predict_label_mask_blocks_witness :
  ∃ H W : nat,
    shape (mk_ndarray [4; 4]%nat (replicate 16 1)) = [H; W]
    ∧ ∀ r c, (r < H)%nat -> (c < W)%nat ->
        is_Some (data (mk_ndarray [4; 4]%nat (replicate 16 1)) !! (r * W + c)%nat)
        ∧ data (mk_ndarray [4; 4]%nat (replicate 16 1)) !! (r * W + c)%nat
          = data (mk_ndarray [4; 4]%nat (replicate 16 1))
              !! (r / 2 * 2 * W + c / 2 * 2)%nat.
Proof.
  apply (@predict_label_mask_blocks toy_postproc features_1x3x3 2).
  vm_compute. reflexivity.
Defined.

(** [predict_label] is [pixel_points] followed by the library calls. *)
Lemma predict_label_pixel_points `{Postproc} features f :
  predict_label features f
  = (pts ← pixel_points features f;
     reduced_features ← reduce pts 10;
     cluster_mask ← cluster_features reduced_features;
     '(h, w, c) ← (t ← np_transpose_120 features;
                   r ← block_reduce_max f t; shape3 r);
     predicted_label ← np_reshape2 cluster_mask h w;
     predicted_label ← rescale_order0 f predicted_label;
     OK (np_map float_to_int32 predicted_label)).
Proof.
  unfold predict_label, pixel_points.
  destruct (np_transpose_120 features) as [t|]; simpl; [|done].
  destruct (block_reduce_max f t) as [r|]; simpl; [|done].
  destruct (shape3 r) as [[[h w] c]|]; simpl; done.
Qed.

(** X8.  [predict_label] does not catch the failures of the libraries: when
    PCA raises on the pixel points, or HDBSCAN raises on the reduced points,
    [predict_label] raises the same exception. *)
Theorem predict_label_library_failure `{Postproc} (features : ndarray Qc) (f : nat)
    (pts : list (list Qc)) (e : exn) :
  pixel_points features f = OK pts ->
  (pca_fit_transform 10 pts = Error e -> predict_label features f = Error e)
  ∧ (∀ reduced, pca_fit_transform 10 pts = OK reduced ->
                hdbscan_fit_predict reduced = Error e ->
                predict_label features f = Error e).
Proof.
  intros Hpts. rewrite predict_label_pixel_points, Hpts. simpl.
  unfold reduce, cluster_features. split.
  - by intros ->.
  - intros reduced -> Hcl. simpl. by rewrite Hcl.
Qed.

Lemma predict_label_library_failure_witness :
  @predict_label failing_pca features_1x2x2 1 = Error LibraryError.
Proof.
  apply (proj1 (@predict_label_library_failure failing_pca features_1x2x2 1
                  [[Qc_of_Z 6]; [Qc_of_Z 7]; [Qc_of_Z 8]; [Qc_of_Z 9]] LibraryError
                  ltac:(vm_compute; reflexivity))).
  reflexivity.
Defined.

Lemma tabulate3_lookup {A} (n0 n1 n2 : nat) (g : nat -> nat -> nat -> A) i j k :
  (i < n0)%nat -> (j < n1)%nat -> (k < n2)%nat ->
  tabulate3 n0 n1 n2 g !! ((i * n1 + j) * n2 + k)%nat = Some (g i j k).
Proof.
  intros Hi Hj Hk. unfold tabulate3.
  replace ((i * n1 + j) * n2 + k)%nat with (i * (n1 * n2) + (j * n2 + k))%nat by lia.
  rewrite (bind_rows_lookup _ (n1 * n2)); [| |nia].
  - rewrite lookup_seq_lt by done. simpl. apply (tabulate2_lookup n1 n2 (g i)); done.
  - intros a. apply (tabulate2_length n1 n2 (g a)).
Qed.

Lemma tabulate3_length {A} (n0 n1 n2 : nat) (g : nat -> nat -> nat -> A) :
  length (tabulate3 n0 n1 n2 g) = (n0 * n1 * n2)%nat.
Proof.
  unfold tabulate3. rewrite (bind_rows_length _ (n1 * n2)), length_seq; [lia|].
  intros a. apply (tabulate2_length n1 n2 (g a)).
Qed.

Lemma reshape_rows_tabulate3 {A} (n0 n1 n2 : nat) (g : nat -> nat -> nat -> A) i j :
  (i < n0)%nat -> (j < n1)%nat ->
  reshape_rows (n0 * n1) n2 (tabulate3 n0 n1 n2 g) !! (i * n1 + j)%nat
  = Some (map (g i j) (seq 0 n2)).
Proof.
  intros Hi Hj. unfold reshape_rows.
  change (map ?F (seq 0 (n0 * n1))) with (F <$> seq 0 (n0 * n1)).
  rewrite list_lookup_fmap, lookup_seq_lt by nia. simpl. f_equal.
  apply list_eq. intros k.
  change (map (g i j) (seq 0 n2)) with (g i j <$> seq 0 n2).
  rewrite list_lookup_fmap.
  destruct (decide (k < n2)%nat) as [Hk|Hk].
  - rewrite lookup_take_lt, lookup_drop, lookup_seq_lt by done. simpl.
    by apply tabulate3_lookup.
  - rewrite lookup_take_ge, lookup_seq_ge by lia. done.
Qed.

(** X9.  With downsample factor 1 the points handed to PCA are the pixels of
    the feature map in row-major order, each with its c features: point
    [i * w + j] is [features[:, i, j]]. *)
Theorem pixel_points_factor_one (features : ndarray Qc) (c h w : nat) :
  shape features = [c; h; w] ->
  ∃ pts,
    pixel_points features 1 = OK pts
    ∧ length pts = (h * w)%nat
    ∧ ∀ i j, (i < h)%nat -> (j < w)%nat ->
        pts !! (i * w + j)%nat
        = Some (map (fun k => data features !!! ((k * h + i) * w + j)%nat) (seq 0 c)).
Proof.
  intros Hs. unfold pixel_points, np_transpose_120, shape3. rewrite Hs. simpl.
  unfold block_reduce_max, shape3. simpl.
  change (Nat.divmod (h + 1 - 1) 0 0 0).1 with ((h + 1 - 1) / 1)%nat.
  change (Nat.divmod (w + 1 - 1) 0 0 0).1 with ((w + 1 - 1) / 1)%nat.
  rewrite !Nat.div_1_r, !Nat.add_sub.
  eexists. split; [reflexivity|]. split.
  { unfold reshape_rows. by rewrite length_map, length_seq. }
  intros i j Hi Hj. rewrite reshape_rows_tabulate3 by done. f_equal.
  apply map_ext_in. intros k Hk%in_seq.
  rewrite !Nat.mul_1_r, !Nat.add_0_r.
  rewrite decide_True by done.
  pose proof (tabulate3_lookup h w c
                (fun i0 j0 k0 => data features !!! ((k0 * h + i0) * w + j0)%nat)
                i j k Hi Hj ltac:(lia)) as Hl.
  by apply list_lookup_total_correct in Hl.
Qed.

Lemma pixel_points_factor_one_witness :
  ∃ pts,
    pixel_points features_2x2x3 1 = OK pts
    ∧ length pts = (2 * 3)%nat
    ∧ ∀ i j, (i < 2)%nat -> (j < 3)%nat ->
        pts !! (i * 3 + j)%nat
        = Some (map (fun k => data features_2x2x3 !!! ((k * 2 + i) * 3 + j)%nat)
                    (seq 0 2)).
Proof. apply (pixel_points_factor_one features_2x2x3 2 2 3). reflexivity. Defined.

(** ** The Sample Provider: identifiers, files, sizes *)

Lemma split_newline_length s : length (split_newline s) = S (count_newlines s).
Proof.
  induction s as [|c s IH]; simpl; [done|].
  case_decide; simpl; [by rewrite IH|].
  destruct (split_newline s); simpl in *; [done | lia].
Qed.

Lemma split_newline_no_newline s :
  Forall (fun piece => has_newline piece = false) (split_newline s).
Proof.
  induction s as [|c s IH]; simpl; [by constructor|].
  case_decide as Hc; [by constructor|].
  destruct (split_newline s) as [|piece pieces].
  { constructor; [|constructor]. simpl. by rewrite bool_decide_eq_false_2. }
  inversion IH as [|? ? Hp Hps]; subst. constructor; [|done].
  simpl. rewrite Hp. by rewrite bool_decide_eq_false_2.
Qed.

Lemma Forall_removelast {A} (P : A -> Prop) (l : list A) :
  Forall P l -> Forall P (removelast l).
Proof.
  intros Hl. destruct (decide (l = [])) as [->|Hne]; [done|].
  destruct (exists_last Hne) as (l' & a & ->).
  rewrite removelast_last. by apply Forall_app in Hl as [? _].
Qed.

Section ProviderMore.
Context `{Imaging}.

Lemma read_ids_inv (fs : filesystem) path ids :
  read_ids fs path = OK ids ->
  ∃ content, fs path = Some (TextFile content)
             ∧ ids = removelast (split_newline content).
Proof.
  unfold read_ids, read_text. destruct (fs path) as [[content| |]|]; try discriminate.
  simpl. intros [= <-]. eauto.
Qed.

Lemma read_ids_count (fs : filesystem) path content :
  fs path = Some (TextFile content) ->
  ∃ ids, read_ids fs path = OK ids ∧ length ids = count_newlines content.
Proof.
  intros Hfile. assert (∃ ids, read_ids fs path = OK ids) as [ids Hids].
  { unfold read_ids, read_text. rewrite Hfile. simpl. eauto. }
  exists ids. split; [done|].
  pose proof (read_ids_length fs path content ids Hfile Hids) as Hlen.
  rewrite split_newline_length in Hlen. lia.
Qed.
End ProviderMore.

(** X10.  When the identifier file reads as the text [content], the string
    that [read()] returns, both providers are constructed and their length is
    the number of newline characters of that text. *)
Theorem dataset_length_counts_newlines `{Imaging} (fs : filesystem)
    (data_path labels_path ids_file_path content : string) :
  fs ids_file_path = Some (TextFile content) ->
  (∃ ds, coco224_init fs data_path labels_path ids_file_path = OK ds
         ∧ coco224_len ds = count_newlines content)
  ∧ (∀ h w ev, ∃ ds, VOC_init fs data_path labels_path ids_file_path h w ev = OK ds
                     ∧ VOC_len ds = count_newlines content).
Proof.
  intros Hfile. destruct (read_ids_count fs _ _ Hfile) as (ids & Hids & Hlen).
  split.
  - unfold coco224_init. rewrite Hids. simpl. eauto.
  - intros h w ev. unfold VOC_init. rewrite Hids. simpl. eauto.
Qed.

Lemma dataset_length_counts_newlines_witness :
  (∃ ds, @coco224_init toy_imaging toy_fs "img/" "lab/" "ids.txt" = OK ds
         ∧ coco224_len ds = 1%nat)
  ∧ (∀ h w ev, ∃ ds, @VOC_init toy_imaging toy_fs "img/" "lab/" "ids.txt" h w ev = OK ds
                     ∧ VOC_len ds = 1%nat).
Proof.
  apply (@dataset_length_counts_newlines toy_imaging toy_fs "img/" "lab/" "ids.txt"
           ("a" +:+ String newline EmptyString)).
  reflexivity.
Defined.

(** X11.  No identifier held by a provider contains a newline character. *)
Theorem dataset_ids_without_newline `{Imaging} (fs : filesystem)
    (data_path labels_path ids_file_path : string) :
  (∀ ds, coco224_init fs data_path labels_path ids_file_path = OK ds ->
         Forall (fun id => has_newline id = false) (coco_ids ds))
  ∧ (∀ h w ev ds, VOC_init fs data_path labels_path ids_file_path h w ev = OK ds ->
         Forall (fun id => has_newline id = false) (voc_ids ds)).
Proof.
  split.
  - intros ds. unfold coco224_init.
    intros (ids & (content & _ & ->)%read_ids_inv & [= <-])%bind_OK_inv. simpl.
    apply Forall_removelast, split_newline_no_newline.
  - intros h w ev ds. unfold VOC_init.
    intros (ids & (content & _ & ->)%read_ids_inv & [= <-])%bind_OK_inv. simpl.
    apply Forall_removelast, split_newline_no_newline.
Qed.

Lemma dataset_ids_without_newline_witness :
  Forall (fun id => has_newline id = false) ["a"; EmptyString; "b"].
Proof.
  apply (proj1 (@dataset_ids_without_newline toy_imaging toy_fs "img/" "lab/" "blank.txt")
           (mk_coco224Dataset ["a"; EmptyString; "b"] "img/" "lab/")).
  reflexivity.
Defined.

(** X12.  A missing identifier file makes both constructors raise
    FileNotFoundError; for an index that selects an identifier, a missing
    image file, or a missing label file beside an image that opens, makes
    [get] of both providers raise FileNotFoundError. *)
Theorem provider_missing_file `{Imaging, FloatArith} (fs : filesystem)
    (coco : coco224Dataset) (voc : VOCDataset) (item : Z) (id : string) :
  (∀ data_path labels_path ids_file_path h w ev,
     fs ids_file_path = None ->
     coco224_init fs data_path labels_path ids_file_path = Error FileNotFoundError
     ∧ VOC_init fs data_path labels_path ids_file_path h w ev = Error FileNotFoundError)
  ∧ (py_index (coco_ids coco) item = OK id ->
     (fs (coco_data_path coco +:+ id +:+ ".jpg") = None ->
      coco224_getitem fs coco item = Error FileNotFoundError)
     ∧ (∀ img, fs (coco_data_path coco +:+ id +:+ ".jpg") = Some (ImageFile img) ->
               fs (coco_labels_path coco +:+ id +:+ ".npz") = None ->
               coco224_getitem fs coco item = Error FileNotFoundError))
  ∧ (py_index (voc_ids voc) item = OK id ->
     (fs (voc_data_path voc +:+ id +:+ ".jpg") = None ->
      VOC_getitem fs voc item = Error FileNotFoundError)
     ∧ (∀ img, fs (voc_data_path voc +:+ id +:+ ".jpg") = Some (ImageFile img) ->
               fs (voc_labels_path voc +:+ id +:+ ".png") = None ->
               VOC_getitem fs voc item = Error FileNotFoundError)).
Proof.
  split; [|split].
  - intros dp lp path h w ev Hnone.
    unfold coco224_init, VOC_init, read_ids, read_text. by rewrite Hnone.
  - intros Hid. unfold coco224_getitem, im_open, np_load_arr_0. rewrite Hid. simpl.
    split; [by intros ->|]. intros img -> Hlab. simpl. by rewrite Hlab.
  - intros Hid. unfold VOC_getitem, im_open. rewrite Hid. simpl.
    split; [by intros ->|]. intros img -> Hlab. simpl. by rewrite Hlab.
Qed.

Lemma provider_missing_file_witness :
  @coco224_getitem toy_imaging toy_fs (mk_coco224Dataset ["zz"] "img/" "lab/") 0
  = Error FileNotFoundError.
Proof.
  apply (proj1 (proj1 (proj2 (@provider_missing_file toy_imaging binary64 toy_fs
                  (mk_coco224Dataset ["zz"] "img/" "lab/")
                  (mk_VOCDataset ["zz"] "img/" "lab/" 2 2 false) 0 "zz"))
                 eq_refl)).
  reflexivity.
Defined.

(** *** [resize_sample]: the scaled size and the degenerate image *)

(** X13.  [resize_sample] resizes image and label to one scaled size and
    centre-crops both to (h, w).  For sides between 1 and 2^31 - 1 and
    correctly rounded floats: without [restore] no side of the scaled size
    exceeds the target and one side is the target's or a pixel less; with
    [restore] each side is at least the target's less a pixel and one side
    does not exceed the target. *)
Theorem resize_sample_scaled_size `{Imaging, FloatArith} (img label : Image) (h w : Z)
    (restore : bool) (img' label' : Image) :
  correctly_rounded _ ->
  1 ≤ h ≤ max_side -> 1 ≤ w ≤ max_side ->
  1 ≤ fst (im_size img) ≤ max_side -> 1 ≤ snd (im_size img) ≤ max_side ->
  resize_sample img label h w restore = OK (img', label') ->
  ∃ nw nh img0 label0,
    im_resize img (nw, nh) = OK img0 ∧ im_resize label (nw, nh) = OK label0
    ∧ img' = center_crop h w img0 ∧ label' = center_crop h w label0
    ∧ (if restore
       then w - 1 ≤ nw ∧ h - 1 ≤ nh ∧ (nw ≤ w ∨ nh ≤ h)
       else nw ≤ w ∧ nh ≤ h ∧ (w - 1 ≤ nw ∨ h - 1 ≤ nh)).
Proof.
  intros Hround Hh Hw HW HH Hrun.
  apply resize_sample_inv in Hrun as (img0 & label0 & Hi & Hl & -> & ->).
  pose proof (new_size_bounds Hround img h w restore HW HH Hh Hw) as Hb.
  destruct (new_size img h w restore) as [nw nh].
  by exists nw, nh, img0, label0.
Qed.

Lemma resize_sample_scaled_size_witness :
  ∃ nw nh img0 label0,
    @im_resize toy_imaging (49, 49) (nw, nh) = OK img0
    ∧ @im_resize toy_imaging (49, 49) (nw, nh) = OK label0
    ∧ (32, 32) = @center_crop toy_imaging 32 32 img0
    ∧ (32, 32) = @center_crop toy_imaging 32 32 label0
    ∧ (nw ≤ 32 ∧ nh ≤ 32 ∧ (32 - 1 ≤ nw ∨ 32 - 1 ≤ nh)).
Proof.
  apply (@resize_sample_scaled_size toy_imaging binary64 (49, 49) (49, 49) 32 32 false
           (32, 32) (32, 32)).
  - exact binary64_correctly_rounded.
  - vm_compute. split; discriminate.
  - vm_compute. split; discriminate.
  - vm_compute. split; discriminate.
  - vm_compute. split; discriminate.
  - vm_compute. reflexivity.
Defined.

Lemma Qc_of_Z_zero n : Qc_of_Z n = 0%Qc ↔ n = 0.
Proof. rewrite <-Z2Qc_inj_0. apply Z2Qc_inj_iff. Qed.

(** X14.  On an image of width 0 or height 0 [resize_sample] raises
    ZeroDivisionError, in both modes and before any resizing. *)
Theorem resize_sample_degenerate_image `{Imaging, FloatArith} (img label : Image)
    (h w : Z)
    (restore : bool) :
  fst (im_size img) = 0 ∨ snd (im_size img) = 0 ->
  resize_sample img label h w restore = Error ZeroDivisionError.
Proof.
  intros Hzero. unfold resize_sample, py_float_div.
  destruct (decide (fst (im_size img) = 0)) as [|Hw0]; [done|]. simpl.
  destruct (decide (snd (im_size img) = 0)) as [|Hh0]; [done|].
  tauto.
Qed.

Lemma resize_sample_degenerate_image_witness :
  @resize_sample toy_imaging binary64 (0, 375) (0, 375) 224 224 false
  = Error ZeroDivisionError.
Proof.
  apply (@resize_sample_degenerate_image toy_imaging binary64 (0, 375) (0, 375)
           224 224 false).
  left. reflexivity.
Defined.

(** X15.  A sample returned by the resizable provider is built from the image
    and the label files of the selected identifier; its [size] is the size of
    the label file as opened.  With [evaluate] set, the image and the label
    that are converted are the pair that [resize_sample] returns for the two
    opened files and the size of the provider, and both have exactly that
    size (w, h); without it they are the files as opened. *)
Theorem VOC_getitem_sample `{Imaging, FloatArith} (fs : filesystem) (voc : VOCDataset)
    (item : Z) (s : Sample) :
  (∀ h w im, 0 ≤ h -> 0 ≤ w -> im_size (center_crop h w im) = (w, h)) ->
  0 ≤ voc_h voc -> 0 ≤ voc_w voc ->
  VOC_getitem fs voc item = OK s ->
  ∃ id img lab img' lab',
    py_index (voc_ids voc) item = OK id
    ∧ fs (voc_data_path voc +:+ id +:+ ".jpg") = Some (ImageFile img)
    ∧ fs (voc_labels_path voc +:+ id +:+ ".png") = Some (ImageFile lab)
    ∧ s = mk_Sample (normalize imagenet_mean imagenet_std (to_tensor img'))
                    (IntArr (np_asarray lab')) (Some (im_size lab))
    ∧ (if voc_evaluate voc
       then resize_sample img lab (voc_h voc) (voc_w voc) false = OK (img', lab')
            ∧ im_size img' = (voc_w voc, voc_h voc)
            ∧ im_size lab' = (voc_w voc, voc_h voc)
       else img' = img ∧ lab' = lab).
Proof.
  intros Hcrop Hh Hw. unfold VOC_getitem, im_open.
  destruct (py_index (voc_ids voc) item) as [id|]; [|discriminate]. simpl.
  destruct (fs (voc_data_path voc +:+ id +:+ ".jpg")) as [[?|img|?]|] eqn:Himg;
    try discriminate. simpl.
  destruct (fs (voc_labels_path voc +:+ id +:+ ".png")) as [[?|lab|?]|] eqn:Hlab;
    try discriminate. simpl.
  destruct (voc_evaluate voc) eqn:Hev.
  - destruct (resize_sample img lab (voc_h voc) (voc_w voc) false)
      as [[img' lab']|] eqn:Hrs; [|discriminate]. simpl. intros [= <-].
    exists id, img, lab, img', lab'. repeat split; try done.
    + by apply (resize_sample_size Hcrop img lab (voc_h voc) (voc_w voc) false img' lab').
    + by apply (resize_sample_size Hcrop img lab (voc_h voc) (voc_w voc) false img' lab').
  - simpl. intros [= <-]. exists id, img, lab, img, lab. repeat split; done.
Qed.

Lemma VOC_getitem_sample_witness :
  ∃ id img lab img' lab',
    py_index ["a"] 0 = OK id
    ∧ toy_fs ("img/" +:+ id +:+ ".jpg") = Some (@ImageFile toy_imaging img)
    ∧ toy_fs ("lab/" +:+ id +:+ ".png") = Some (@ImageFile toy_imaging lab)
    ∧ @mk_Sample toy_imaging tt
        (IntArr (mk_ndarray [2; 2]%nat [0; 0; 0; 0])) (Some (4, 3))
      = @mk_Sample toy_imaging
          (@normalize toy_imaging imagenet_mean imagenet_std
             (@to_tensor toy_imaging img'))
          (IntArr (@np_asarray toy_imaging lab')) (Some (@im_size toy_imaging lab))
    ∧ (@resize_sample toy_imaging binary64 img lab 2 2 false = OK (img', lab')
       ∧ @im_size toy_imaging img' = (2, 2) ∧ @im_size toy_imaging lab' = (2, 2)).
Proof.
  apply (@VOC_getitem_sample toy_imaging binary64 toy_fs
           (mk_VOCDataset ["a"] "img/" "lab/" 2 2 true) 0).
  - reflexivity.
  - simpl. lia.
  - simpl. lia.
  - vm_compute. reflexivity.
Defined.

(** ** The Evaluator: sums, single batch, failures *)

Lemma for_each_app {A S} (body : S -> A -> result S) s l1 l2 :
  for_each body s (l1 ++ l2) = (s' ← for_each body s l1; for_each body s' l2).
Proof.
  revert s. induction l1 as [|a l1 IH]; intros s; simpl; [done|].
  destruct (body s a) as [s'|]; simpl; [apply IH | done].
Qed.

Lemma for_each_cons {A S} (body : S -> A -> result S) s a l :
  for_each body s (a :: l) = (s' ← body s a; for_each body s' l).
Proof. reflexivity. Qed.


Section EvaluatorMore.
Context `{Postproc, Network}.


End EvaluatorMore.



(** X17.  Over a single batch that is evaluated, [evaluate_model] returns, and
    neither of the two numbers it returns is finite: both sums are divided by
    zero. *)
Theorem evaluate_model_single_batch `{Postproc, Network} (batch : Batch)
    (loss dice : Qc) :
  evaluate_step (0%Qc, 0%Qc) batch = OK (loss, dice) ->
  ∃ val_loss average_dice,
    evaluate_model [batch] = OK (val_loss, average_dice)
    ∧ (∀ q, val_loss ≠ Finite q) ∧ (∀ q, average_dice ≠ Finite q).
Proof.
  intros Hstep. unfold evaluate_model. rewrite for_each_cons, Hstep. simpl.
  eexists _, _. split; [reflexivity|].
  unfold np_true_divide. rewrite !decide_True by (by apply Qc_of_Z_zero).
  split; intros q; by repeat case_match.
Qed.

Lemma evaluate_model_single_batch_witness :
  ∃ val_loss average_dice,
    @evaluate_model toy_postproc toy_network [toy_batch] = OK (val_loss, average_dice)
    ∧ (∀ q, val_loss ≠ Finite q) ∧ (∀ q, average_dice ≠ Finite q).
Proof.
  apply (@evaluate_model_single_batch toy_postproc toy_network toy_batch
           (0 + Q2Qc (1 # 2))%Qc (0 + 1)%Qc).
  apply toy_batch_step.
Defined.

(** X18.  With no batch at all [evaluate_model] raises NameError (the loop
    index is unbound).  When the evaluation of a batch raises, after any
    number of batches that were evaluated, [evaluate_model] raises the same
    exception and returns no partial result. *)
Theorem evaluate_model_aborts `{Postproc, Network} :
  evaluate_model [] = Error NameError
  ∧ ∀ (before after : list Batch) (batch : Batch) (running : Qc * Qc) (e : exn),
      for_each evaluate_step (0%Qc, 0%Qc) before = OK running ->
      evaluate_step running batch = Error e ->
      evaluate_model (before ++ batch :: after) = Error e.
Proof.
  split; [done|]. intros before after batch running e Hbefore Hstep.
  unfold evaluate_model. rewrite for_each_app, Hbefore. simpl. by rewrite Hstep.
Qed.

Lemma evaluate_model_aborts_witness :
  @evaluate_model toy_postproc toy_network ([toy_batch] ++ unlabeled_batch :: [toy_batch])
  = Error IndexError.
Proof.
  apply (proj2 (@evaluate_model_aborts toy_postproc toy_network)
           [toy_batch] [toy_batch] unlabeled_batch (0 + Q2Qc (1 # 2), 0 + 1)%Qc IndexError).
  - rewrite for_each_cons, toy_batch_step. reflexivity.
  - unfold evaluate_step. simpl.
    replace (@predict_label toy_postproc features_1x2x2 2)
      with (OK (of_rows [[1; 1]; [1; 1]])) by (vm_compute; reflexivity).
    reflexivity.
Defined.

(** ** [visualize]: a second call, and the image it saves *)

Lemma remap_255_idemp a : remap_255 (remap_255 a) = remap_255 a.
Proof.
  destruct a as [[s d]|[s d]]; unfold remap_255, np_map; simpl; do 2 f_equal;
    rewrite map_map; apply map_ext; intros v.
  - destruct (Z.eqb_spec v 255) as [->|Hv]; [done|].
    by destruct (Z.eqb_spec v 255).
  - destruct (decide (v = Qc_of_Z 255)) as [->|Hv].
    + by rewrite decide_False.
    + by rewrite decide_False.
Qed.

Lemma array_shape_remap_255 a : array_shape (remap_255 a) = array_shape a.
Proof. by destruct a. Qed.

Lemma ground_truth_remap_255 a : ground_truth (remap_255 a) = ground_truth a.
Proof. unfold ground_truth. by rewrite remap_255_idemp, array_shape_remap_255. Qed.

(** X19.  When the input and the label are different arrays, a second call of
    [visualize] with the same arguments leaves the caller's arrays and the
    directories as the first call left them and writes the same image and the
    same ground truth again, whether the first call returned or raised and
    whatever PCA and HDBSCAN do in the second call: only the segmentation
    file can differ. *)
Theorem visualize_second_call (first second : Postproc) (input label features : nat)
    (name id : string) (σ : world) :
  input ≠ label ->
  let σ1 := fst (@visualize first input label features name id σ) in
  let σ2 := fst (@visualize second input label features name id σ1) in
  heap σ2 = heap σ1 ∧ dirs σ2 = dirs σ1
  ∧ ∀ path, path ≠ seg_file name id "seg.png" -> files σ2 !! path = files σ1 !! path.
Proof.
  intros Hne. cbv zeta.
  assert (∀ (D E : gset string), D ∪ E ∪ E = D ∪ E) as Hidem
    by (intros D E; by rewrite <-(assoc_L (∪)), (idemp_L (∪))).
  assert (seg_file name id "gt.png" ≠ seg_file name id "img.jpg") as Hne1
    by (intros E%seg_file_inj; discriminate).
  pose proof (visualize_cases (H := first) input label features name id σ) as H1.
  cbv zeta in H1.
  destruct (heap σ !! input) as [input_arr|] eqn:Hin.
  2: { rewrite H1. cbn [fst snd heap dirs files].
       pose proof (visualize_cases (H := second) input label features name id
                     (mk_world (heap σ) (dirs σ ∪ list_to_set (path_dirs (seg_dir name)))
                        (files σ))) as H2.
       cbv zeta in H2. cbn [heap dirs files] in H2. rewrite Hin in H2. rewrite H2. cbn [fst snd heap dirs files]. by rewrite Hidem. }
  destruct (normalized_image input_arr) as [img|e1] eqn:Himg.
  2: { rewrite H1. cbn [fst snd heap dirs files].
       pose proof (visualize_cases (H := second) input label features name id
                     (mk_world (heap σ) (dirs σ ∪ list_to_set (path_dirs (seg_dir name)))
                        (files σ))) as H2.
       cbv zeta in H2. cbn [heap dirs files] in H2. rewrite Hin, Himg in H2. rewrite H2. cbn [fst snd heap dirs files]. by rewrite Hidem. }
  destruct (heap σ !! label) as [la|] eqn:Hlabel.
  2: { rewrite H1. cbn [fst snd heap dirs files].
       pose proof (visualize_cases (H := second) input label features name id
                     (mk_world (heap σ) (dirs σ ∪ list_to_set (path_dirs (seg_dir name)))
                        (<[seg_file name id "img.jpg" := SavedFloat img]> (files σ))))
         as H2.
       cbv zeta in H2. cbn [heap dirs files] in H2. rewrite Hin, Himg, Hlabel in H2. rewrite H2. cbn [fst snd heap dirs files].
       rewrite Hidem, insert_insert_eq. done. }
  set (h3 := <[label := remap_255 la]> (heap σ)) in *.
  set (d1 := dirs σ ∪ list_to_set (path_dirs (seg_dir name))) in *.
  set (f3 := <[seg_file name id "gt.png" := SavedInt (ground_truth la)]>
               (<[seg_file name id "img.jpg" := SavedFloat img]> (files σ))) in *.
  assert (h3 !! input = Some input_arr) as Hin3
    by (unfold h3; by rewrite lookup_insert_ne by (by apply not_eq_sym)).
  assert (h3 !! label = Some (remap_255 la)) as Hlabel3
    by (unfold h3; by rewrite lookup_insert_eq).
  assert (<[label := remap_255 (remap_255 la)]> h3 = h3) as Hh3
    by (unfold h3; by rewrite remap_255_idemp, insert_insert_eq).
  assert (∀ f : gmap string saved,
            (∀ path, path ≠ seg_file name id "seg.png" -> f !! path = f3 !! path) ->
            ∀ path, path ≠ seg_file name id "seg.png" ->
              <[seg_file name id "gt.png" := SavedInt (ground_truth (remap_255 la))]>
                (<[seg_file name id "img.jpg" := SavedFloat img]> f) !! path
              = f !! path) as Hfiles.
  { intros f Hf path Hpath. rewrite ground_truth_remap_255.
    destruct (decide (path = seg_file name id "gt.png")) as [->|Hgt].
    - rewrite lookup_insert_eq, Hf by done. unfold f3. by rewrite lookup_insert_eq.
    - rewrite lookup_insert_ne by done.
      destruct (decide (path = seg_file name id "img.jpg")) as [->|Himgp].
      + rewrite lookup_insert_eq, Hf by done. unfold f3.
        rewrite lookup_insert_ne by done. by rewrite lookup_insert_eq.
      + by rewrite lookup_insert_ne. }
  assert (∀ f : gmap string saved,
            (∀ path, path ≠ seg_file name id "seg.png" -> f !! path = f3 !! path) ->
            let σ2 := fst (@visualize second input label features name id
                             (mk_world h3 d1 f)) in
            heap σ2 = h3 ∧ dirs σ2 = d1
            ∧ ∀ path, path ≠ seg_file name id "seg.png" -> files σ2 !! path = f !! path)
    as Hsecond.
  { intros f Hf. cbv zeta.
    pose proof (visualize_cases (H := second) input label features name id
                  (mk_world h3 d1 f)) as H2.
    cbv zeta in H2. cbn [heap dirs files] in H2. rewrite Hin3, Himg, Hlabel3, Hh3 in H2.
    destruct (match h3 !! features with
              | Some fa => @predict_label second (as_float fa) 1
              | None => Error NameError
              end) as [seg|e2];
      rewrite H2; cbn [fst snd heap dirs files]; (split; [done|]); (split; [apply Hidem|]).
    - intros path Hpath. rewrite lookup_insert_ne by done. by apply Hfiles.
    - by apply Hfiles. }
  destruct (match h3 !! features with
            | Some fa => @predict_label first (as_float fa) 1
            | None => Error NameError
            end) as [seg|e1];
    rewrite H1; cbn [fst snd heap dirs files].
  - apply (Hsecond (<[seg_file name id "seg.png" := SavedInt seg]> f3)).
    intros path Hpath. by rewrite lookup_insert_ne.
  - by apply (Hsecond f3).
Qed.

Lemma visualize_second_call_witness :
  let σ1 := fst (@visualize toy_postproc 0 1 2 "exp" "7" sample_world) in
  let σ2 := fst (@visualize failing_hdbscan 0 1 2 "exp" "7" σ1) in
  heap σ2 = heap σ1 ∧ dirs σ2 = dirs σ1
  ∧ ∀ path, path ≠ seg_file "exp" "7" "seg.png" -> files σ2 !! path = files σ1 !! path.
Proof.
  apply (visualize_second_call toy_postproc failing_hdbscan 0 1 2 "exp" "7" sample_world).
  discriminate.
Defined.

#[local] Open Scope Qc_scope.

Lemma Qc_abs_bounds v m : Qc_abs v ≤ m -> - m ≤ v ∧ v ≤ m.
Proof.
  unfold Qc_abs. destruct (Qc_ltb v 0) eqn:E; intros Hm.
  - apply Qc_ltb_lt in E. split.
    + apply Qcopp_le_compat in Hm. by rewrite Qcopp_involutive in Hm.
    + apply Qcle_trans with 0; [by apply Qclt_le_weak|].
      apply Qcle_trans with (- v); [|done].
      apply Qclt_le_weak in E. apply Qcopp_le_compat in E. exact E.
  - apply Qc_ltb_ge in E. split; [|done].
    apply Qcle_trans with 0; [|done].
    assert (0 ≤ m) as Hm0 by (by apply Qcle_trans with v).
    apply Qcopp_le_compat in Hm0. exact Hm0.
Qed.

Lemma Qc_abs_nonneg v : 0 ≤ Qc_abs v.
Proof.
  unfold Qc_abs. destruct (Qc_ltb v 0) eqn:E.
  - apply Qc_ltb_lt, Qclt_le_weak, Qcopp_le_compat in E. exact E.
  - by apply Qc_ltb_ge.
Qed.

Lemma np_amax_abs_bound t m :
  np_amax (np_map Qc_abs t) = OK m ->
  0 ≤ m ∧ ∀ v, v ∈ data t -> - m ≤ v ∧ v ≤ m.
Proof.
  unfold np_amax. simpl. destruct (data t) as [|v0 l] eqn:Hd; [discriminate|].
  simpl. intros [= <-].
  destruct (foldl_py_max2_is_max (Qc_abs v0) (map Qc_abs l)) as [_ Hub].
  split.
  - apply Qcle_trans with (Qc_abs v0); [apply Qc_abs_nonneg | apply Hub; left].
  - intros v Hv. apply Qc_abs_bounds, Hub.
    change (Qc_abs v ∈ Qc_abs <$> (v0 :: l)). by apply list_elem_of_fmap_2.
Qed.







(** The image of an input that is zero everywhere. *)
Example visualize_zero_image :
  normalized_image (FloatArr (mk_ndarray [1; 1; 2]%nat [0; 0]))
  = OK (mk_ndarray [1; 2; 1]%nat [NaN; NaN]).
Proof. vm_compute. reflexivity. Qed.

#[local] Close Scope Qc_scope.

(** X21.  The segmentation file written by [visualize] is a well-formed mask
    with the height and the width of the features array: with downsample
    factor 1 nothing is padded. *)
Theorem visualize_segmentation_shape `{Postproc} (input label features : nat)
    (name id : string) (σ σ' : world) (features_arr : array) (c h w : nat) :
  heap σ !! features = Some features_arr ->
  array_shape features_arr = [c; h; w] ->
  visualize input label features name id σ = (σ', OK tt) ->
  ∃ seg,
    files σ' !! seg_file name id "seg.png" = Some (SavedInt seg)
    ∧ shape seg = [h; w] ∧ wf_array seg.
Proof.
  intros Hf Hshape Hrun.
  pose proof (visualize_cases input label features name id σ) as Hcases.
  cbv zeta in Hcases. rewrite Hrun in Hcases.
  destruct (match heap σ !! input with Some _ => _ | None => _ end) as [img|e];
    [|discriminate].
  destruct (heap σ !! label) as [la|] eqn:Hlabel; [|discriminate].
  destruct (<[label := remap_255 la]> (heap σ) !! features) as [farr|] eqn:Hfeat;
    [|discriminate].
  destruct (predict_label (as_float farr) 1) as [seg|e] eqn:Hseg; [|discriminate].
  injection Hcases as ->. cbn [fst snd heap dirs files]. exists seg. split; [apply lookup_insert_eq|].
  assert (shape (as_float farr) = [c; h; w]) as Hs.
  { assert (array_shape farr = [c; h; w]) as Hs'.
    { destruct (decide (label = features)) as [->|Hne].
      - rewrite lookup_insert_eq in Hfeat. injection Hfeat as <-.
        rewrite array_shape_remap_255. congruence.
      - rewrite lookup_insert_ne in Hfeat by done. congruence. }
    by destruct farr. }
  destruct (predict_label_shape _ _ _ c h w Hs Hseg) as [Hshape' Hwf].
  split; [|done]. rewrite Hshape'. unfold ceil_div.
  by rewrite !Nat.div_1_r, !Nat.mul_1_r, !Nat.add_sub.
Qed.

Lemma visualize_segmentation_shape_witness :
  ∃ σ', @visualize toy_postproc 0 1 2 "exp" "7" toy_world = (σ', OK tt)
        ∧ ∃ seg,
            files σ' !! seg_file "exp" "7" "seg.png" = Some (SavedInt seg)
            ∧ shape seg = [2; 2]%nat ∧ wf_array seg.
Proof.
  destruct (@visualize toy_postproc 0 1 2 "exp" "7" toy_world) as [σ' r] eqn:Hrun.
  assert (r = OK tt) as ->.
  { change r with (snd (σ', r)). rewrite <-Hrun. vm_compute. reflexivity. }
  exists σ'. split; [reflexivity|].
  apply (@visualize_segmentation_shape toy_postproc 0 1 2 "exp" "7" toy_world σ'
           (FloatArr features_1x2x2) 1%nat 2%nat 2%nat); [| reflexivity | exact Hrun].
  reflexivity.
Defined.
